(** * mdso: the photometric bundle adjuster (EnergyFunction, Residual,
      StepController, DeltaParameterVector, BundleAdjusterCeres)

    A shallow embedding of the optimizer core of mdso and the proofs of the
    properties stated about it.

    Numbers.  The scalar type [T] of the sources (and [double]) is modelled
    by the canonical rationals [Qc]: arithmetic is exact and equality is
    Leibniz equality; two energies are compared in the total order of the
    rationals, and a NaN energy is outside the model.  The only non-finite
    value the sources test for is the depth [exp(logDepth)] ([std::isfinite]
    in [remapDepthed] and [Residual::getJacobian]); [exp] therefore returns a
    [Depth], a rational together with the answer of [std::isfinite].  The
    one division whose divisor can be zero is the quotient of the reductions
    in [StepController::newStep]; it is a [Quotient]: a rational, an
    infinity or not a number.
    Aborting [CHECK]s are modelled by [option]: [None] is an abort. *)

From Stdlib Require Import QArith Qcanon Lqa.
From stdpp Require Import base decidable option numbers list.

Local Open Scope Qc_scope.

(** ** Scalars *)

Definition qc (n : Z) (d : positive) : Qc := Q2Qc (n # d).

(** [a < b], [a >= b] and [a > b] on [T], as boolean tests. *)
Definition ltb (a b : Qc) : bool := bool_decide (a < b).
Definition geb (a b : Qc) : bool := bool_decide (b ≤ a).
Definition gtb (a b : Qc) : bool := bool_decide (b < a).

(** [std::max(a, b)] is [(a < b) ? b : a]. *)
Definition std_max (a b : Qc) : Qc := if ltb a b then b else a.

(** The mathematical maximum of two rationals. *)
Definition Qc_max (a b : Qc) : Qc := if bool_decide (a ≤ b) then b else a.

(** [std::abs]. *)
Definition std_abs (a : Qc) : Qc := if ltb a 0 then - a else a.

(** The quotient [a / b] of two finite values of [T].  It is a rational when
    [b] is not zero; a division by zero gives the infinity with the sign of
    [a], and [0 / 0] is not a number. *)
Inductive Quotient :=
| Finite (q : Qc)
| PlusInfinity
| MinusInfinity
| NotANumber.

Definition divide (a b : Qc) : Quotient :=
  if decide (b = 0)
  then if ltb 0 a then PlusInfinity
       else if ltb a 0 then MinusInfinity else NotANumber
  else Finite (a / b).

(** The result of [exp] on [T]: [dval] is the value, [dfinite] the answer of
    [std::isfinite] on it.  When [dfinite] is [false], [dval] stands for the
    infinity or NaN that the rationals do not have. *)
Record Depth := mkDepth { dval : Qc; dfinite : bool }.

(** ** Small vectors and matrices (Eigen fixed-size types) *)

Definition Vec2 : Type := Qc * Qc.
Definition Vec3 : Type := Qc * Qc * Qc.
Definition Vec4 : Type := Qc * Qc * Qc * Qc.
(** Matrices are tuples of rows. *)
Definition Mat33 : Type := Vec3 * Vec3 * Vec3.
Definition Mat23 : Type := Vec3 * Vec3.
Definition Mat24 : Type := Vec4 * Vec4.
Definition Mat34 : Type := Vec4 * Vec4 * Vec4.

Definition vec2_add (u v : Vec2) : Vec2 :=
  let '(u0, u1) := u in let '(v0, v1) := v in (u0 + v0, u1 + v1).
Definition vec2_sub (u v : Vec2) : Vec2 :=
  let '(u0, u1) := u in let '(v0, v1) := v in (u0 - v0, u1 - v1).
Definition vec2_squaredNorm (u : Vec2) : Qc :=
  let '(u0, u1) := u in u0 * u0 + u1 * u1.

Definition vec3_zero : Vec3 := (0, 0, 0).
Definition vec3_add (u v : Vec3) : Vec3 :=
  let '(u0, u1, u2) := u in let '(v0, v1, v2) := v in
  (u0 + v0, u1 + v1, u2 + v2).
Definition vec3_sub (u v : Vec3) : Vec3 :=
  let '(u0, u1, u2) := u in let '(v0, v1, v2) := v in
  (u0 - v0, u1 - v1, u2 - v2).
Definition vec3_opp (u : Vec3) : Vec3 :=
  let '(u0, u1, u2) := u in (- u0, - u1, - u2).
Definition vec3_scale (s : Qc) (u : Vec3) : Vec3 :=
  let '(u0, u1, u2) := u in (s * u0, s * u1, s * u2).
Definition vec3_dot (u v : Vec3) : Qc :=
  let '(u0, u1, u2) := u in let '(v0, v1, v2) := v in
  u0 * v0 + u1 * v1 + u2 * v2.

Definition makeHomogeneous (u : Vec3) : Vec4 :=
  let '(u0, u1, u2) := u in (u0, u1, u2, 1).

Definition mat33_id : Mat33 := ((1, 0, 0), (0, 1, 0), (0, 0, 1)).
Definition mat33_col0 (m : Mat33) : Vec3 :=
  let '((a, _, _), (d, _, _), (g, _, _)) := m in (a, d, g).
Definition mat33_col1 (m : Mat33) : Vec3 :=
  let '((_, b, _), (_, e, _), (_, h, _)) := m in (b, e, h).
Definition mat33_col2 (m : Mat33) : Vec3 :=
  let '((_, _, c), (_, _, f), (_, _, i)) := m in (c, f, i).
Definition mat33_transpose (m : Mat33) : Mat33 :=
  (mat33_col0 m, mat33_col1 m, mat33_col2 m).
Definition mat33_mulv (m : Mat33) (v : Vec3) : Vec3 :=
  let '(r0, r1, r2) := m in (vec3_dot r0 v, vec3_dot r1 v, vec3_dot r2 v).
Definition vec3_mulm (r : Vec3) (m : Mat33) : Vec3 :=
  (vec3_dot r (mat33_col0 m), vec3_dot r (mat33_col1 m),
   vec3_dot r (mat33_col2 m)).
Definition mat33_mul (m n : Mat33) : Mat33 :=
  let '(r0, r1, r2) := m in (vec3_mulm r0 n, vec3_mulm r1 n, vec3_mulm r2 n).

Definition mat23_mulv (m : Mat23) (v : Vec3) : Vec2 :=
  let '(r0, r1) := m in (vec3_dot r0 v, vec3_dot r1 v).
Definition mat23_mul33 (m : Mat23) (n : Mat33) : Mat23 :=
  let '(r0, r1) := m in (vec3_mulm r0 n, vec3_mulm r1 n).
Definition mat34_col (k : nat) (m : Mat34) : Vec3 :=
  let '((a0, a1, a2, a3), (b0, b1, b2, b3), (c0, c1, c2, c3)) := m in
  match k with
  | O => (a0, b0, c0)
  | 1%nat => (a1, b1, c1)
  | 2%nat => (a2, b2, c2)
  | _ => (a3, b3, c3)
  end.
Definition vec3_mulm34 (r : Vec3) (m : Mat34) : Vec4 :=
  (vec3_dot r (mat34_col 0 m), vec3_dot r (mat34_col 1 m),
   vec3_dot r (mat34_col 2 m), vec3_dot r (mat34_col 3 m)).
Definition mat23_mul34 (m : Mat23) (n : Mat34) : Mat24 :=
  let '(r0, r1) := m in (vec3_mulm34 r0 n, vec3_mulm34 r1 n).

(** ** Rigid motions (Sophus::SE3)

    A rigid motion is kept as its rotation matrix and its translation.
    Sophus keeps the rotation as a unit quaternion whose inverse is the
    conjugate; on matrices that is the transpose. *)
Record SE3 := mkSE3 { so3 : Mat33; translation : Vec3 }.

Definition se3_id : SE3 := mkSE3 mat33_id vec3_zero.
(** [a * b] *)
Definition se3_mul (a b : SE3) : SE3 :=
  mkSE3 (mat33_mul (so3 a) (so3 b))
        (vec3_add (mat33_mulv (so3 a) (translation b)) (translation a)).
(** [a.inverse()] *)
Definition se3_inverse (a : SE3) : SE3 :=
  mkSE3 (mat33_transpose (so3 a))
        (vec3_opp (mat33_mulv (mat33_transpose (so3 a)) (translation a))).
(** [a * v] on a point. *)
Definition se3_act (a : SE3) (v : Vec3) : Vec3 :=
  vec3_add (mat33_mulv (so3 a) v) (translation a).
(** The rotation matrix of an element of SE(3) is orthogonal. *)
Definition is_rotation (r : Mat33) : Prop :=
  mat33_mul (mat33_transpose r) r = mat33_id.

(** ** StepController (optimize/StepController.cpp) *)
Module StepController.

(** [Settings::Optimization::StepControl], the fields the controller reads. *)
Record StepControl := mkStepControl {
  initialLambda : Qc;
  initialFailMultiplier : Qc;
  failMultiplierMultiplier : Qc;
  minLambdaMultiplier : Qc;
  acceptedQuality : Qc
}.

Record t := mk {
  mLambda : Qc;
  failMultiplier : Qc;
  settings : StepControl
}.

(** The constructor. *)
Definition make (newSettings : StepControl) : t :=
  mk (initialLambda newSettings) (initialFailMultiplier newSettings)
     newSettings.

(** [StepController::newStep]: the returned flag and the controller after
    the call.  [predictionQuality] is the quotient of two doubles.  When
    [predictedDiff] is zero it is an infinity or not a number: at plus
    infinity [predictionQuality > acceptedQuality] holds, [1.0 - q2m1^3] is
    minus infinity and [std::max] returns its first argument,
    [minLambdaMultiplier]; at minus infinity and at not-a-number the
    comparison is false. *)
Definition newStep (c : t) (oldEnergy newEnergy predictedEnergy : Qc)
  : bool * t :=
  let predictedDiff := oldEnergy - predictedEnergy in
  let actualDiff := oldEnergy - newEnergy in
  let '(predictedDiff, actualDiff) :=
    if ltb predictedDiff 0
    then (predictedDiff * - 1, actualDiff * - 1)
    else (predictedDiff, actualDiff) in
  let failed :=
    (false,
     mk (mLambda c * failMultiplier c)
        (failMultiplier c * failMultiplierMultiplier (settings c))
        (settings c)) in
  match divide actualDiff predictedDiff with
  | Finite predictionQuality =>
      let q2m1 := 2 * predictionQuality - 1 in
      let isStepSuccessful :=
        gtb predictionQuality (acceptedQuality (settings c)) in
      if isStepSuccessful
      then (isStepSuccessful,
            mk (mLambda c *
                std_max (minLambdaMultiplier (settings c))
                        (1 - q2m1 * q2m1 * q2m1))
               (initialFailMultiplier (settings c))
               (settings c))
      else failed
  | PlusInfinity =>
      (true,
       mk (mLambda c * minLambdaMultiplier (settings c))
          (initialFailMultiplier (settings c))
          (settings c))
  | MinusInfinity | NotANumber => failed
  end.

Definition lambda (c : t) : Qc := mLambda c.

(** The quantities of the description of [newStep]: the predicted and the
    observed reduction, both flipped when the predicted one is negative,
    and their quotient. *)
Definition D_pred (oldEnergy predictedEnergy : Qc) : Qc :=
  oldEnergy - predictedEnergy.
Definition D_obs (oldEnergy newEnergy : Qc) : Qc := oldEnergy - newEnergy.
Definition quality (oldEnergy newEnergy predictedEnergy : Qc) : Quotient :=
  if bool_decide (D_pred oldEnergy predictedEnergy < 0)
  then divide (- D_obs oldEnergy newEnergy) (- D_pred oldEnergy predictedEnergy)
  else divide (D_obs oldEnergy newEnergy) (D_pred oldEnergy predictedEnergy).

End StepController.

(** ** Robust losses (ceres::LossFunction)

    [Evaluate(s, rho)] fills [rho[0..2]] with the loss at [s] and its first
    two derivatives. *)
Record Rho := mkRho { rho0 : Qc; rho1 : Qc; rho2 : Qc }.

Definition LossFunction : Type := Qc -> Rho.

(** [Settings::Optimization::Loss] *)
Inductive Loss := TRIVIAL | HUBER.

(** [ceres::TrivialLoss] *)
Definition TrivialLoss : LossFunction := fun s => mkRho s 1 0.

(** [std::numeric_limits<double>::min()] *)
Definition DBL_MIN : Qc := qc 1 (2 ^ 1022).

(** [ceres::HuberLoss(a)], over the square root [sqrtT] of the platform. *)
Definition HuberLoss (sqrtT : Qc -> Qc) (a : Qc) : LossFunction := fun s =>
  let b := a * a in
  if gtb s b
  then let r := sqrtT s in
       let r1 := std_max DBL_MIN (a / r) in
       mkRho (2 * a * r - b) r1 (- r1 / (2 * s))
  else mkRho s 1 0.

(** [getLoss] of EnergyFunction.cpp; the [default] branch of its [switch] is
    not reachable for the two values of the enumeration. *)
Definition getLoss (sqrtT : Qc -> Qc) (type : Loss) (outlierDiff : Qc)
  : LossFunction :=
  match type with
  | TRIVIAL => TrivialLoss
  | HUBER => HuberLoss sqrtT outlierDiff
  end.

(** ** Data model *)

(** [AffineLightTransform<T>]: the two numbers [data[0] = a], [data[1] = b]. *)
Record AffLight := mkAffLight { aff_a : Qc; aff_b : Qc }.

Inductive PointState := ACTIVE | OUTLIER | OOB.

Record OptimizedPoint := mkOptimizedPoint {
  op_p : Vec2;
  op_dir : Vec3;
  op_logDepth : Qc;
  op_state : PointState
}.

Record KeyFrameEntry := mkKeyFrameEntry {
  lightWorldToThis : AffLight;
  optimizedPoints : list OptimizedPoint
}.

Record KeyFrame := mkKeyFrame {
  thisToWorld : SE3;
  frames : list KeyFrameEntry
}.

(** One camera of the rig: [CameraBundle::bundle[i]]. *)
Record CamInBundle := mkCamInBundle {
  thisToBody : SE3;
  bodyToThis : SE3
}.

Record CameraBundle := mkCameraBundle { bundle : list CamInBundle }.

(** The address of an [OptimizedPoint] (what [&op] and [&op.logDepth]
    denote): key frame, camera, position in [optimizedPoints]. *)
Definition PointRef : Type := nat * nat * nat.

Definition lookupPoint (keyFrames : list KeyFrame) (r : PointRef)
  : option OptimizedPoint :=
  let '(kf, ci, k) := r in
  keyFrames !! kf ≫= λ f, frames f !! ci ≫= λ e, optimizedPoints e !! k.

(** [MotionDerivatives]: the members [Residual::getJacobian] reads. *)
Record MotionDerivatives := mkMotionDerivatives {
  daction_dq_host : Vec4 -> Mat34;
  daction_dt_host : Mat33;
  daction_dq_target : Vec4 -> Mat34;
  daction_dt_target : Mat33
}.

(** ** What the optimizer calls outside of the sources modelled here

    The mathematical library, the camera models (indexed by their position
    in the bundle), the bicubic interpolators of the frames at pyramid level
    0 (indexed by key frame and camera; [Evaluate(r, c, &f, &dfdr, &dfdc)]
    returns [(f, dfdr, dfdc)]), the operations of [AffineLightTransform] and
    the constructor of [MotionDerivatives]. *)
Record Env := mkEnv {
  expT : Qc -> Depth;
  sqrtT : Qc -> Qc;
  cam_map : nat -> Vec3 -> Vec2;
  cam_unmap : nat -> Vec2 -> Vec3;
  cam_isMappable : nat -> Vec3 -> bool;
  cam_isOnImage : nat -> Vec2 -> Z -> bool;
  cam_diffMap : nat -> Vec3 -> Vec2 * Mat23;
  interpolator : nat * nat -> Qc -> Qc -> Qc * Qc * Qc;
  aff_apply : AffLight -> Qc -> Qc;
  aff_mul : AffLight -> AffLight -> AffLight;
  aff_inverse : AffLight -> AffLight;
  aff_ea : AffLight -> Qc;
  newMotionDerivatives : SE3 -> SE3 -> SE3 -> SE3 -> MotionDerivatives
}.

(** [v.normalized()] *)
Definition vec3_normalized (env : Env) (v : Vec3) : Vec3 :=
  let n := sqrtT env (vec3_dot v v) in
  let '(v0, v1, v2) := v in (v0 / n, v1 / n, v2 / n).

(** ** Settings *)

(** [ResidualSettings]: [residualPattern.pattern()] and
    [residualPattern.height], [residualWeighting.c] and
    [residualWeighting.lossEps], [intensity.outlierDiff], [depth.max]. *)
Record ResidualSettings := mkResidualSettings {
  pattern : list Vec2;
  patternHeight : Z;
  weighting_c : Qc;
  lossEps : Qc;
  outlierDiff : Qc;
  depth_max : Qc
}.

(** [Settings::Optimization], the fields [EnergyFunction] and the step
    control read. *)
Record OptimizationSettings := mkOptimizationSettings {
  initialLambda : Qc;
  successMultiplier : Qc;
  failMultiplier : Qc;
  failMultiplierMultiplier : Qc;
  initialFailMultiplier : Qc;
  lossType : Loss
}.

Record EnergyFunctionSettings := mkEnergyFunctionSettings {
  residual : ResidualSettings;
  optimization : OptimizationSettings
}.

(** ** Residual (optimize/Residual.cpp) *)

Record Residual := mkResidual {
  mHostInd : nat;
  mHostCamInd : nat;
  mTargetInd : nat;
  mTargetCamInd : nat;
  mPointInd : nat;
  (** [const T *logDepth]: where the log-depth of the point lives *)
  logDepth : PointRef;
  (** [KeyFrameEntry *target] *)
  target : nat * nat;
  hostPoint : Vec2;
  hostDir : Vec3;
  reprojPattern : list Vec2;
  hostIntensities : list Qc;
  gradWeights : list Qc
}.

(** [result[i]] of an Eigen vector kept as a list. *)
Definition at_ (l : list Qc) (i : nat) : Qc := default 0 (l !! i).
Definition at2 (l : list Vec2) (i : nat) : Vec2 := default (0, 0) (l !! i).

Definition remapDepthed (frameToFrame : SE3) (ray : Vec3) (depth : Depth)
  : Vec3 :=
  if dfinite depth
  then se3_act frameToFrame (vec3_scale (dval depth) ray)
  else mat33_mulv (so3 frameToFrame) ray.

(** The constructor [Residual::Residual].  [logDepthVal] is the number read
    through the pointer [logDepth]; [hostFrame] and [targetFrame] are the
    key frame entries, named by key frame and camera. *)
Definition Residual_new (env : Env) (settings : ResidualSettings)
    (hostInd hostCamInd targetInd targetCamInd pointInd : nat)
    (logDepthPtr : PointRef) (logDepthVal : Qc)
    (optimizedPoint : OptimizedPoint) (hostToTargetImage : SE3) : Residual :=
  let hostPoint := op_p optimizedPoint in
  let hostDir := op_dir optimizedPoint in
  let depth := expT env logDepthVal in
  let reproj :=
    cam_map env targetCamInd (remapDepthed hostToTargetImage hostDir depth) in
  let reprojPattern :=
    (λ off,
       let r := cam_map env targetCamInd
                  (se3_act hostToTargetImage
                     (vec3_scale (dval depth)
                        (vec3_normalized env
                           (cam_unmap env hostCamInd (vec2_add hostPoint off)))))
       in vec2_sub r reproj) <$> pattern settings in
  let host := (λ off,
       let p := vec2_add (op_p optimizedPoint) off in
       let '(hostIntensity, gradIhost1, gradIhost0) :=
         interpolator env (hostInd, hostCamInd) (snd p) (fst p) in
       let normSq := vec2_squaredNorm (gradIhost0, gradIhost1) in
       let c := weighting_c settings in
       (hostIntensity, c / sqrtT env (c * c + normSq))) <$> pattern settings in
  mkResidual hostInd hostCamInd targetInd targetCamInd pointInd
             logDepthPtr (targetInd, targetCamInd) hostPoint hostDir
             reprojPattern (fst <$> host) (snd <$> host).

(** [Residual::getValues], with the reprojection it reports through
    [reprojOut]. *)
Definition getValues (env : Env) (settings : ResidualSettings)
    (res : Residual) (hostToTargetImage : SE3) (lightHostToTarget : AffLight)
    (logDepthVal : Qc) : list Qc * Vec2 :=
  let depth := expT env logDepthVal in
  let reproj :=
    cam_map env (mTargetCamInd res)
            (remapDepthed hostToTargetImage (hostDir res) depth) in
  let result :=
    (λ i,
       let p := vec2_add reproj (at2 (reprojPattern res) i) in
       let '(targetIntensity, _, _) :=
         interpolator env (target res) (snd p) (fst p) in
       let hostIntensity :=
         aff_apply env lightHostToTarget (at_ (hostIntensities res) i) in
       targetIntensity - hostIntensity) <$> seq 0 (length (pattern settings)) in
  (result, reproj).

(** One turn of the loop of [Residual::getWeights]; [None] when
    [CHECK_GE(rho[1], 0)] fails. *)
Definition getWeight (lossFunction : LossFunction) (settings : ResidualSettings)
    (res : Residual) (values : list Qc) (i : nat) : option Qc :=
  let v := at_ values i in
  let v2 := v * v in
  let rho := lossFunction v2 in
  let w := rho1 rho + 2 * rho2 rho * v2 in
  if ltb w 0
  then if geb (rho1 rho) 0
       then Some (at_ (gradWeights res) i * (lossEps settings * rho1 rho))
       else None
  else Some (at_ (gradWeights res) i * w).

(** [Residual::getWeights] *)
Definition getWeights (lossFunction : LossFunction) (settings : ResidualSettings)
    (res : Residual) (values : list Qc) : option (list Qc) :=
  mapM (getWeight lossFunction settings res values)
       (seq 0 (length (pattern settings))).

Record DiffFrameParams := mkDiffFrameParams {
  dp_dq : Mat24;
  dp_dt : Mat23;
  dr_dab : list (Qc * Qc)
}.

Record Jacobian := mkJacobian {
  dhost : DiffFrameParams;
  dtarget : DiffFrameParams;
  dp_dlogd : Vec2;
  gradItarget : list Vec2;
  isInfDepth : bool
}.

(** [Residual::getJacobian] *)
Definition getJacobian (env : Env) (settings : ResidualSettings)
    (res : Residual) (hostToTarget : SE3) (dHostToTarget : MotionDerivatives)
    (lightWorldToHost lightHostToTarget : AffLight) (logDepthVal : Qc)
  : Jacobian :=
  let depth := expT env logDepthVal in
  let '(isInfDepth, depth) :=
    if negb (dfinite depth) then (true, depth_max settings)
    else (false, dval depth) in
  let hostVec := vec3_scale depth (hostDir res) in
  let hostVecH := makeHomogeneous hostVec in
  let targetVec := se3_act hostToTarget hostVec in
  let '(reproj, dpi) := cam_diffMap env (mTargetCamInd res) targetVec in
  let gradItarget :=
    (λ i,
       let p := vec2_add reproj (at2 (reprojPattern res) i) in
       let '(_, gradItarget1, gradItarget0) :=
         interpolator env (target res) (snd p) (fst p) in
       (gradItarget0, gradItarget1)) <$> seq 0 (length (pattern settings)) in
  let dp_dlogd := mat23_mulv dpi (mat33_mulv (so3 hostToTarget) hostVec) in
  let d_da i :=
    aff_ea env lightHostToTarget *
    (at_ (hostIntensities res) i - aff_b lightWorldToHost) in
  let dhost :=
    mkDiffFrameParams
      (mat23_mul34 dpi (daction_dq_host dHostToTarget hostVecH))
      (mat23_mul33 dpi (daction_dt_host dHostToTarget))
      ((λ i, (d_da i, aff_ea env lightHostToTarget))
         <$> seq 0 (length (pattern settings))) in
  let dtarget :=
    mkDiffFrameParams
      (mat23_mul34 dpi (daction_dq_target dHostToTarget hostVecH))
      (mat23_mul33 dpi (daction_dt_target dHostToTarget))
      ((λ i, (- d_da i, - 1)) <$> seq 0 (length (pattern settings))) in
  mkJacobian dhost dtarget dp_dlogd gradItarget isInfDepth.

(** ** Parameters (the ParameterBlock) *)

(** Modelled from the spec: the storage of the class [Parameters], whose
    source is not among the files modelled.  Per key frame the body-to-world
    pose, per key frame and camera the affine brightness pair, per point the
    log-depth; [saveState] and [recoverState] take and put back a snapshot of
    exactly these values. *)
Record ParametersState := mkParametersState {
  st_bodyToWorld : list SE3;
  st_lightWorldToFrame : list (list AffLight);
  st_logDepth : list Qc
}.

Record Parameters := mkParameters {
  state : ParametersState;
  p_camBundleSize : nat;
  (** the points handed over by [setPoints] *)
  p_points : list PointRef
}.

(** Modelled from the spec: the constructor of [Parameters] mirrors the
    storage of the key frames. *)
Definition Parameters_new (cam : CameraBundle) (keyFrames : list KeyFrame)
  : Parameters :=
  mkParameters
    (mkParametersState (thisToWorld <$> keyFrames)
                       ((λ kf, lightWorldToThis <$> frames kf) <$> keyFrames)
                       [])
    (length (bundle cam)) [].

(** Modelled from the spec: [Parameters::setPoints] takes the points that
    have residuals, with their current log-depths. *)
Definition setPoints (p : Parameters)
    (optimizedPoints : list (PointRef * OptimizedPoint)) : Parameters :=
  mkParameters
    (mkParametersState (st_bodyToWorld (state p))
                       (st_lightWorldToFrame (state p))
                       ((λ rp, op_logDepth (snd rp)) <$> optimizedPoints))
    (p_camBundleSize p) (fst <$> optimizedPoints).

Definition numKeyFrames (p : Parameters) : nat :=
  length (st_bodyToWorld (state p)).
Definition camBundleSize (p : Parameters) : nat := p_camBundleSize p.
Definition numPoints (p : Parameters) : nat := length (st_logDepth (state p)).
Definition getBodyToWorld (p : Parameters) (i : nat) : SE3 :=
  default se3_id (st_bodyToWorld (state p) !! i).
Definition getLightWorldToFrame (p : Parameters) (i c : nat) : AffLight :=
  let ofFrame : list AffLight :=
    default [] (st_lightWorldToFrame (state p) !! i) in
  default (mkAffLight 0 0) (ofFrame !! c).
Definition p_logDepth (p : Parameters) (pi : nat) : Qc :=
  at_ (st_logDepth (state p)) pi.

(** Modelled from the spec: [Parameters::saveState] and
    [Parameters::recoverState], the snapshot for trial steps. *)
Definition saveState (p : Parameters) : ParametersState := state p.
Definition recoverState (p : Parameters) (s : ParametersState) : Parameters :=
  mkParameters s (p_camBundleSize p) (p_points p).

(** ** Precomputations of EnergyFunction.cpp *)

Definition camToBody (cam : CameraBundle) (ci : nat) : SE3 :=
  default se3_id (thisToBody <$> bundle cam !! ci).
Definition bodyToCam (cam : CameraBundle) (ci : nat) : SE3 :=
  default se3_id (bodyToThis <$> bundle cam !! ci).

(** The table [hostToTarget[hostInd][hostCamInd][targetInd][targetCamInd]]. *)
Definition PrecomputedHostToTarget : Type := list (list (list (list SE3))).

(** The constructor [PrecomputedHostToTarget::PrecomputedHostToTarget].
    The entries with [hostInd = targetInd] are skipped by the loops and keep
    the default-constructed identity. *)
Definition PrecomputedHostToTarget_new (cam : CameraBundle)
    (parameters : Parameters) : PrecomputedHostToTarget :=
  (λ hostInd,
     (λ hostCamInd,
        (λ targetInd,
           (λ targetCamInd,
              if decide (hostInd = targetInd) then se3_id
              else
                let hostBodyToTargetBody :=
                  se3_mul (se3_inverse (getBodyToWorld parameters targetInd))
                          (getBodyToWorld parameters hostInd) in
                let hostFrameToTargetBody :=
                  se3_mul hostBodyToTargetBody (camToBody cam hostCamInd) in
                se3_mul (bodyToCam cam targetCamInd) hostFrameToTargetBody)
           <$> seq 0 (length (bundle cam)))
        <$> seq 0 (numKeyFrames parameters))
     <$> seq 0 (length (bundle cam)))
  <$> seq 0 (numKeyFrames parameters).

(** [PrecomputedHostToTarget::get] *)
Definition hostToTarget_get (h : PrecomputedHostToTarget)
    (hostInd hostCamInd targetInd targetCamInd : nat) : SE3 :=
  let byHostCam : list (list (list SE3)) :=
    default [] ((h : list (list (list (list SE3)))) !! hostInd) in
  let byTarget : list (list SE3) := default [] (byHostCam !! hostCamInd) in
  let byTargetCam : list SE3 := default [] (byTarget !! targetInd) in
  default se3_id (byTargetCam !! targetCamInd).

(** [PrecomputedLightHostToTarget] fills its table on first access from the
    parameters it points to.  Every object of the class is queried, for all
    the residuals, right after its construction and before the parameters
    change again, so it is kept as the parameters at its construction. *)
Record PrecomputedLightHostToTarget := mkPrecomputedLightHostToTarget {
  plh_parameters : Parameters
}.

(** [PrecomputedLightHostToTarget::get] *)
Definition lightHostToTarget_get (env : Env) (l : PrecomputedLightHostToTarget)
    (hostInd hostCamInd targetInd targetCamInd : nat) : AffLight :=
  aff_mul env
    (getLightWorldToFrame (plh_parameters l) targetInd targetCamInd)
    (aff_inverse env (getLightWorldToFrame (plh_parameters l) hostInd hostCamInd)).

(** [PrecomputedMotionDerivatives], filled on first access in the same way. *)
Record PrecomputedMotionDerivatives := mkPrecomputedMotionDerivatives {
  pmd_cam : CameraBundle;
  pmd_parameters : Parameters
}.

(** [PrecomputedMotionDerivatives::get] *)
Definition motionDerivatives_get (env : Env) (m : PrecomputedMotionDerivatives)
    (hostInd hostCamInd targetInd targetCamInd : nat) : MotionDerivatives :=
  newMotionDerivatives env
    (camToBody (pmd_cam m) hostCamInd)
    (getBodyToWorld (pmd_parameters m) hostInd)
    (getBodyToWorld (pmd_parameters m) targetInd)
    (bodyToCam (pmd_cam m) targetCamInd).

(** ** EnergyFunction::Values *)

(** Per residual the pattern values and what was cached with them (the
    reprojection). *)
Record Values := mkValues {
  v_lossFunction : LossFunction;
  valsAndCache : list (list Qc * Vec2)
}.

(** The constructor [Values::Values]. *)
Definition Values_new (env : Env) (settings : ResidualSettings)
    (residuals : list Residual) (parameters : Parameters)
    (lossFunction : LossFunction) (hostToTarget : PrecomputedHostToTarget)
    (lightHostToTarget : PrecomputedLightHostToTarget) : Values :=
  mkValues lossFunction
    ((λ res,
        let hi := mHostInd res in
        let hci := mHostCamInd res in
        let ti := mTargetInd res in
        let tci := mTargetCamInd res in
        let pi := mPointInd res in
        getValues env settings res
                  (hostToTarget_get hostToTarget hi hci ti tci)
                  (lightHostToTarget_get env lightHostToTarget hi hci ti tci)
                  (p_logDepth parameters pi)) <$> residuals).

(** [Values::values] and [Values::cachedValues]; [None] when one of the two
    [CHECK]s on the index fails. *)
Definition values (v : Values) (residualInd : nat) : option (list Qc) :=
  fst <$> valsAndCache v !! residualInd.
Definition cachedValues (v : Values) (residualInd : nat) : option Vec2 :=
  snd <$> valsAndCache v !! residualInd.

(** The inner loop of [Values::totalEnergy] over one residual: it adds
    [rho[0]] of the squared value for [i = 0 .. patternSize - 1]. *)
Definition addResidualEnergy (lossFunction : LossFunction) (patternSize : nat)
    (energy : Qc) (vc : list Qc * Vec2) : Qc :=
  foldl (λ energy i,
           let v2 := at_ (fst vc) i * at_ (fst vc) i in
           let rho := lossFunction v2 in
           energy + rho0 rho)
        energy (seq 0 patternSize).

(** [Values::totalEnergy]; [None] when [CHECK_GT(valsAndCache.size(), 0)]
    fails.  The [Accumulator<T>] adds the terms up. *)
Definition totalEnergy (v : Values) : option Qc :=
  match valsAndCache v with
  | [] => None
  | vc0 :: _ =>
      let patternSize := length (fst vc0) in
      Some (foldl (addResidualEnergy (v_lossFunction v) patternSize)
                  0 (valsAndCache v))
  end.

(** ** The constructor of EnergyFunction *)

Record EnergyFunction := mkEnergyFunction {
  parameters : Parameters;
  residuals : list Residual;
  lossFunction : LossFunction;
  cam : CameraBundle;
  settings : EnergyFunctionSettings
}.

(** What the loops of the constructor build up. *)
Record CtorState := mkCtorState {
  cs_residuals : list Residual;
  cs_optimizedPoints : list (PointRef * OptimizedPoint)
}.

(** Modelled from the spec: [OptimizedPoint::depth], [depth = exp(logDepth)]. *)
Definition op_depth (env : Env) (op : OptimizedPoint) : Qc :=
  dval (expT env (op_logDepth op)).

(** The test that lets a residual be made for a host point and a target. *)
Definition reprojects (env : Env) (PH : Z) (hostToTargetImage : SE3)
    (ray : Vec3) (targetCamInd : nat) : bool :=
  let rayTarget := se3_act hostToTargetImage ray in
  if negb (cam_isMappable env targetCamInd rayTarget) then false
  else
    let pointTarget := cam_map env targetCamInd rayTarget in
    if negb (cam_isOnImage env targetCamInd pointTarget PH) then false
    else true.

(** The body of the loop over [targetCamInd]; the state is [hasResiduals]
    and what was built so far. *)
Definition visitTargetCam (env : Env) (settings : EnergyFunctionSettings)
    (hostToTarget : PrecomputedHostToTarget) (hostInd hostCamInd : nat)
    (ref : PointRef) (op : OptimizedPoint) (ray : Vec3) (targetInd : nat)
    (acc : bool * CtorState) (targetCamInd : nat) : bool * CtorState :=
  let PH := patternHeight (residual settings) in
  let hostToTargetImage :=
    hostToTarget_get hostToTarget hostInd hostCamInd targetInd targetCamInd in
  if negb (reprojects env PH hostToTargetImage ray targetCamInd) then acc
  else
    let '(hasResiduals, cs) := acc in
    let points :=
      if hasResiduals then cs_optimizedPoints cs
      else cs_optimizedPoints cs ++ [(ref, op)] in
    (true,
     mkCtorState
       (cs_residuals cs ++
        [Residual_new env (residual settings) hostInd hostCamInd targetInd
                      targetCamInd (length points - 1) ref (op_logDepth op)
                      op hostToTargetImage])
       points).

(** The body of the loop over [targetInd]. *)
Definition visitTarget (env : Env) (settings : EnergyFunctionSettings)
    (cam : CameraBundle) (hostToTarget : PrecomputedHostToTarget)
    (hostInd hostCamInd : nat) (ref : PointRef) (op : OptimizedPoint)
    (ray : Vec3) (acc : bool * CtorState) (targetInd : nat)
  : bool * CtorState :=
  if decide (hostInd = targetInd) then acc
  else foldl (visitTargetCam env settings hostToTarget hostInd hostCamInd
                             ref op ray targetInd)
             acc (seq 0 (length (bundle cam))).

(** The body of the loop over the optimized points of a host entry. *)
Definition visitPoint (env : Env) (settings : EnergyFunctionSettings)
    (cam : CameraBundle) (hostToTarget : PrecomputedHostToTarget)
    (numKeyFrames hostInd hostCamInd : nat) (cs : CtorState)
    (kop : nat * OptimizedPoint) : CtorState :=
  let '(k, op) := kop in
  match op_state op with
  | ACTIVE =>
      let ray := vec3_scale (op_depth env op) (op_dir op) in
      snd (foldl (visitTarget env settings cam hostToTarget hostInd hostCamInd
                              (hostInd, hostCamInd, k) op ray)
                 (false, cs) (seq 0 numKeyFrames))
  | _ => cs
  end.

(** [keyFrames[hostInd]->frames[hostCamInd].optimizedPoints], each point with
    its position. *)
Definition pointsOf (keyFrames : list KeyFrame) (hostInd hostCamInd : nat)
  : list (nat * OptimizedPoint) :=
  let pts :=
    default [] (optimizedPoints <$>
                  (keyFrames !! hostInd ≫= λ kf, frames kf !! hostCamInd)) in
  zip (seq 0 (length pts)) pts.

Definition visitHostCam (env : Env) (settings : EnergyFunctionSettings)
    (cam : CameraBundle) (keyFrames : list KeyFrame)
    (hostToTarget : PrecomputedHostToTarget) (hostInd : nat)
    (cs : CtorState) (hostCamInd : nat) : CtorState :=
  foldl (visitPoint env settings cam hostToTarget (length keyFrames)
                    hostInd hostCamInd)
        cs (pointsOf keyFrames hostInd hostCamInd).

Definition visitHost (env : Env) (settings : EnergyFunctionSettings)
    (cam : CameraBundle) (keyFrames : list KeyFrame)
    (hostToTarget : PrecomputedHostToTarget) (cs : CtorState) (hostInd : nat)
  : CtorState :=
  foldl (visitHostCam env settings cam keyFrames hostToTarget hostInd)
        cs (seq 0 (length (bundle cam))).

(** [EnergyFunction::EnergyFunction]; [numKeyFrames] is the length of
    [keyFrames], and [None] is the failure of [CHECK(numKeyFrames >= 2)]. *)
Definition EnergyFunction_new (env : Env) (cam : CameraBundle)
    (keyFrames : list KeyFrame) (settings : EnergyFunctionSettings)
  : option EnergyFunction :=
  let parameters := Parameters_new cam keyFrames in
  let lossFunction :=
    getLoss (sqrtT env) (lossType (optimization settings))
            (outlierDiff (residual settings)) in
  if decide (2 ≤ length keyFrames)%nat then
    let hostToTarget := PrecomputedHostToTarget_new cam parameters in
    let cs :=
      foldl (visitHost env settings cam keyFrames hostToTarget)
            (mkCtorState [] []) (seq 0 (length keyFrames)) in
    Some (mkEnergyFunction (setPoints parameters (cs_optimizedPoints cs))
                           (cs_residuals cs) lossFunction cam settings)
  else None.

(** ** DeltaParameterVector (optimize/DeltaParameterVector.cpp) *)
Module DeltaParameterVector.

(** [FrameParameterOrder]: the layout of the frame part of a delta.  Its
    source is not among the files modelled; [lightWorldToFrame f c] is where
    the affine block of frame [f] and camera [c] starts, and [affBlock (f, c)]
    is the two entries from there. *)
Record FrameParameterOrder := mkFrameParameterOrder {
  fpo_numKeyFrames : nat;
  fpo_numCameras : nat;
  totalFrameParameters : nat;
  lightWorldToFrame : nat -> nat -> nat
}.

Record t := mk {
  frameParameterOrder : FrameParameterOrder;
  frame : list Qc;
  point : list Qc
}.

(** The zero delta of the first constructor. *)
Definition zero (order : FrameParameterOrder) (numPoints : nat) : t :=
  mk order (replicate (totalFrameParameters order) 0) (replicate numPoints 0).

Definition getFrame (d : t) : list Qc := frame d.
Definition getPoint (d : t) : list Qc := point d.

(** [factor * delta] *)
Definition scale (factor : Qc) (delta : t) : t :=
  mk (frameParameterOrder delta)
     ((λ x, factor * x) <$> getFrame delta)
     ((λ x, factor * x) <$> getPoint delta).

Definition vdot (u v : list Qc) : Qc :=
  foldr Qcplus 0 (zip_with Qcmult u v).

(** [DeltaParameterVector::dot] *)
Definition dot (d other : t) : Qc :=
  vdot (frame d) (frame other) + vdot (point d) (point other).

(** [affBlock(frameInd, camInd).setZero()] on the frame part. *)
Definition affBlock_setZero (order : FrameParameterOrder)
    (frameInd camInd : nat) (frame : list Qc) : list Qc :=
  let start := lightWorldToFrame order frameInd camInd in
  <[S start := 0]> (<[start := 0]> frame).

(** [DeltaParameterVector::setAffineZero]: [frameInd] runs from 1. *)
Definition setAffineZero (d : t) : t :=
  let order := frameParameterOrder d in
  mk order
     (foldl (λ frame frameInd,
               foldl (λ frame camInd,
                        affBlock_setZero order frameInd camInd frame)
                     frame (seq 0 (fpo_numCameras order)))
            (frame d) (seq 1 (fpo_numKeyFrames order - 1)))
     (point d).

(** [DeltaParameterVector::constraintDepths] *)
Definition constraintDepths (maxAbsDeltaD : Qc) (d : t) : t :=
  mk (frameParameterOrder d) (frame d)
     ((λ x, if gtb (std_abs x) maxAbsDeltaD then 0 else x) <$> point d).

End DeltaParameterVector.

(** ** EnergyFunction::Derivatives and the solver side *)

(** What [EnergyFunction::optimize] calls and the modelled sources do not
    contain: the parametrization Jacobians, the block accumulation that
    turns residual contributions into the Hessian and the gradient, the
    damping and the Schur solve, and [Parameters::update] and
    [Parameters::apply]. *)
Record Collaborators := mkCollaborators {
  ParametrizationJacobians : Type;
  Hessian : Type;
  Gradient : Type;
  newParametrizationJacobians : Parameters -> ParametrizationJacobians;
  newHessian : Parameters -> list Residual -> Values -> list Jacobian ->
               ParametrizationJacobians -> OptimizationSettings -> Hessian;
  newGradient : Parameters -> list Residual -> Values -> list Jacobian ->
                ParametrizationJacobians -> Gradient;
  levenbergMarquardtDamp : Hessian -> Qc -> Hessian;
  solve : Hessian -> Gradient -> DeltaParameterVector.t;
  update : Parameters -> DeltaParameterVector.t -> Parameters;
  apply : Parameters -> list KeyFrame -> list KeyFrame
}.

Record Derivatives (C : Collaborators) := mkDerivatives {
  parametrizationJacobians : ParametrizationJacobians C;
  residualJacobians : list Jacobian
}.
Arguments mkDerivatives {C}.
Arguments parametrizationJacobians {C}.
Arguments residualJacobians {C}.

(** The constructor [Derivatives::Derivatives]; [None] when a [CHECK] of
    [Values::cachedValues] fails. *)
Definition Derivatives_new (env : Env) (C : Collaborators)
    (settings : ResidualSettings) (parameters : Parameters)
    (residuals : list Residual) (values : Values)
    (hostToTarget : PrecomputedHostToTarget)
    (motionDerivatives : PrecomputedMotionDerivatives)
    (lightHostToTarget : PrecomputedLightHostToTarget)
  : option (Derivatives C) :=
  residualJacobians ←
    mapM (λ rires : nat * Residual,
            let '(ri, res) := rires in
            let hi := mHostInd res in
            let hci := mHostCamInd res in
            let ti := mTargetInd res in
            let tci := mTargetCamInd res in
            let pi := mPointInd res in
            let curHostToTarget :=
              hostToTarget_get hostToTarget hi hci ti tci in
            let curLightHostToTarget :=
              lightHostToTarget_get env lightHostToTarget hi hci ti tci in
            let lightWorldToHost := getLightWorldToFrame parameters hi hci in
            let dHostToTarget :=
              motionDerivatives_get env motionDerivatives hi hci ti tci in
            let logDepth := p_logDepth parameters pi in
            _ ← cachedValues values ri;
            Some (getJacobian env settings res curHostToTarget dHostToTarget
                              lightWorldToHost curLightHostToTarget logDepth))
         (zip (seq 0 (length residuals)) residuals);
  Some (mkDerivatives (newParametrizationJacobians C parameters)
                      residualJacobians).

(** ** EnergyFunction::optimize *)

(** The variables of [optimize] that live across iterations. *)
Record LoopState (C : Collaborators) := mkLoopState {
  ls_parameters : Parameters;
  ls_lambda : Qc;
  ls_hostToTarget : PrecomputedHostToTarget;
  ls_motionDerivatives : PrecomputedMotionDerivatives;
  ls_lightHostToTarget : PrecomputedLightHostToTarget;
  ls_curValues : Values;
  ls_curDerivatives : Derivatives C;
  ls_hessian : Hessian C;
  ls_gradient : Gradient C;
  ls_parametersUpdated : bool
}.
Arguments mkLoopState {C}.
Arguments ls_parameters {C}.
Arguments ls_lambda {C}.
Arguments ls_hostToTarget {C}.
Arguments ls_motionDerivatives {C}.
Arguments ls_lightHostToTarget {C}.
Arguments ls_curValues {C}.
Arguments ls_curDerivatives {C}.
Arguments ls_hessian {C}.
Arguments ls_gradient {C}.
Arguments ls_parametersUpdated {C}.

(** The line an iteration writes to the log: the two energies. *)
Record StepLog := mkStepLog { log_curEnergy : Qc; log_newEnergy : Qc }.

Definition createValues (env : Env) (ef : EnergyFunction)
    (parameters : Parameters) (hostToTarget : PrecomputedHostToTarget)
    (lightHostToTarget : PrecomputedLightHostToTarget) : Values :=
  Values_new env (residual (settings ef)) (residuals ef) parameters
             (lossFunction ef) hostToTarget lightHostToTarget.

Definition createDerivatives (env : Env) (C : Collaborators)
    (ef : EnergyFunction) (parameters : Parameters) (values : Values)
    (hostToTarget : PrecomputedHostToTarget)
    (motionDerivatives : PrecomputedMotionDerivatives)
    (lightHostToTarget : PrecomputedLightHostToTarget)
  : option (Derivatives C) :=
  Derivatives_new env C (residual (settings ef)) parameters (residuals ef)
                  values hostToTarget motionDerivatives lightHostToTarget.

(** [getHessian(values, derivatives)] and [getGradient(values, derivatives)] *)
Definition getHessian (C : Collaborators) (ef : EnergyFunction)
    (parameters : Parameters) (values : Values) (d : Derivatives C)
  : Hessian C :=
  newHessian C parameters (residuals ef) values (residualJacobians d)
             (parametrizationJacobians d) (optimization (settings ef)).
Definition getGradient (C : Collaborators) (ef : EnergyFunction)
    (parameters : Parameters) (values : Values) (d : Derivatives C)
  : Gradient C :=
  newGradient C parameters (residuals ef) values (residualJacobians d)
              (parametrizationJacobians d).

(** What [optimize] does before its loop. *)
Definition optimize_init (env : Env) (C : Collaborators) (ef : EnergyFunction)
  : option (LoopState C) :=
  let lambda := initialLambda (optimization (settings ef)) in
  let hostToTarget := PrecomputedHostToTarget_new (cam ef) (parameters ef) in
  let motionDerivatives :=
    mkPrecomputedMotionDerivatives (cam ef) (parameters ef) in
  let lightHostToTarget := mkPrecomputedLightHostToTarget (parameters ef) in
  let curValues :=
    createValues env ef (parameters ef) hostToTarget lightHostToTarget in
  curDerivatives ←
    createDerivatives env C ef (parameters ef) curValues hostToTarget
                      motionDerivatives lightHostToTarget;
  let hessian := getHessian C ef (parameters ef) curValues curDerivatives in
  let gradient := getGradient C ef (parameters ef) curValues curDerivatives in
  Some (mkLoopState (parameters ef) lambda hostToTarget motionDerivatives
                    lightHostToTarget curValues curDerivatives hessian
                    gradient false).

(** One turn of the loop of [optimize]. *)
Definition iteration (env : Env) (C : Collaborators) (ef : EnergyFunction)
    (st : LoopState C) : option (StepLog * LoopState C) :=
  curEnergy ← totalEnergy (ls_curValues st);
  refreshed ←
    (if ls_parametersUpdated st
     then
       let motionDerivatives :=
         mkPrecomputedMotionDerivatives (cam ef) (ls_parameters st) in
       curDerivatives ←
         createDerivatives env C ef (ls_parameters st) (ls_curValues st)
                           (ls_hostToTarget st) motionDerivatives
                           (ls_lightHostToTarget st);
       Some (motionDerivatives, curDerivatives,
             getHessian C ef (ls_parameters st) (ls_curValues st) curDerivatives,
             getGradient C ef (ls_parameters st) (ls_curValues st) curDerivatives)
     else Some (ls_motionDerivatives st, ls_curDerivatives st,
                ls_hessian st, ls_gradient st));
  let '(motionDerivatives, curDerivatives, hessian, gradient) := refreshed in
  let dampedHessian := levenbergMarquardtDamp C hessian (ls_lambda st) in
  let delta := solve C dampedHessian gradient in
  let savedState := saveState (ls_parameters st) in
  let parameters := update C (ls_parameters st) delta in
  let newHostToTarget := PrecomputedHostToTarget_new (cam ef) parameters in
  let newLightHostToTarget := mkPrecomputedLightHostToTarget parameters in
  let newValues :=
    createValues env ef parameters newHostToTarget newLightHostToTarget in
  newEnergy ← totalEnergy newValues;
  Some (mkStepLog curEnergy newEnergy,
        if geb newEnergy curEnergy
        then mkLoopState (recoverState parameters savedState)
                         (ls_lambda st * failMultiplier (optimization (settings ef)))
                         (ls_hostToTarget st) motionDerivatives
                         (ls_lightHostToTarget st) (ls_curValues st)
                         curDerivatives hessian gradient false
        else mkLoopState parameters
                         (ls_lambda st * successMultiplier (optimization (settings ef)))
                         newHostToTarget motionDerivatives
                         newLightHostToTarget newValues
                         curDerivatives hessian gradient true).

(** The loop: [maxIterations] turns, with the lines logged. *)
Fixpoint optimize_loop (env : Env) (C : Collaborators) (ef : EnergyFunction)
    (maxIterations : nat) (st : LoopState C)
  : option (list StepLog * LoopState C) :=
  match maxIterations with
  | O => Some ([], st)
  | S n =>
      '(log, st1) ← iteration env C ef st;
      '(logs, st2) ← optimize_loop env C ef n st1;
      Some (log :: logs, st2)
  end.

(** [EnergyFunction::optimize]: the energy function and the key frames after
    the call. *)
Definition optimize (env : Env) (C : Collaborators) (ef : EnergyFunction)
    (keyFrames : list KeyFrame) (maxIterations : nat)
  : option (EnergyFunction * list KeyFrame) :=
  st0 ← optimize_init env C ef;
  '(_, st) ← optimize_loop env C ef maxIterations st0;
  Some (mkEnergyFunction (ls_parameters st) (residuals ef) (lossFunction ef)
                         (cam ef) (settings ef),
        apply C (ls_parameters st) keyFrames).

(** ** BundleAdjusterCeres (system/BundleAdjusterCeres.cpp) *)
Module BundleAdjusterCeres.

(** [BundleAdjusterSettings], the fields that decide which parameter blocks
    are optimized. *)
Record BundleAdjusterSettings := mkBundleAdjusterSettings {
  optimizeAffineLight : bool;
  minFirstToSecondRadius : Qc;
  fixedRotationOnSecondKF : bool;
  fixedMotionOnFirstAdjustent : bool;
  depth_min : Qc;
  depth_max : Qc
}.

(** The parameter blocks handed to [ceres::Problem]: the translation and the
    rotation of [bodyToWorld[i]], the affine pair of an entry, the log-depth
    of a point. *)
Inductive Block :=
| TranslationBlock (kf : nat)
| RotationBlock (kf : nat)
| AffineBlock (kf ci : nat)
| LogDepthBlock (ref : PointRef).

(** The values the minimizer would give to the blocks. *)
Record Solution := mkSolution {
  sol_translation : nat -> Vec3;
  sol_rotation : nat -> Mat33;
  sol_affine : nat -> nat -> AffLight;
  sol_logDepth : PointRef -> Qc
}.

(** [(secondToWorld.translation() - firstToWorld.translation()).norm()] *)
Definition firstToSecondRadius (env : Env) (bodyToWorld : list SE3) : Qc :=
  let firstToWorld := default se3_id (bodyToWorld !! 0%nat) in
  let secondToWorld := default se3_id (bodyToWorld !! 1%nat) in
  let d := vec3_sub (translation secondToWorld) (translation firstToWorld) in
  sqrtT env (vec3_dot d d).

(** The blocks on which [adjust] calls [SetParameterBlockConstant], and the
    log-depths it does not add to the problem. *)
Definition isConstant (env : Env) (settings : BundleAdjusterSettings)
    (keyFrames : list KeyFrame) (b : Block) : bool :=
  let size := length keyFrames in
  let radius := firstToSecondRadius env (thisToWorld <$> keyFrames) in
  let fixedMotion :=
    fixedMotionOnFirstAdjustent settings && bool_decide (size = 2%nat) in
  match b with
  | TranslationBlock kf =>
      bool_decide (kf = 0%nat) ||
      (bool_decide (kf = 1%nat) &&
       (negb (gtb radius (minFirstToSecondRadius settings)) || fixedMotion))
  | RotationBlock kf =>
      bool_decide (kf = 0%nat) ||
      (bool_decide (kf = 1%nat) &&
       (fixedRotationOnSecondKF settings || fixedMotion))
  | AffineBlock kf _ =>
      negb (optimizeAffineLight settings) || bool_decide (kf = 0%nat)
  | LogDepthBlock ref =>
      match lookupPoint keyFrames ref with
      | Some op =>
          geb (depth_min settings) (op_depth env op) ||
          geb (op_depth env op) (depth_max settings)
      | None => true
      end
  end.

(** [ceres::Solve] writes the blocks of the problem that are not constant and
    leaves the others as they are. *)
Definition solved {A} (constant : bool) (old new : A) : A :=
  if constant then old else new.

Definition adjustPoint (env : Env) (settings : BundleAdjusterSettings)
    (keyFrames : list KeyFrame) (sol : Solution) (kf ci : nat)
    (k : nat) (op : OptimizedPoint) : OptimizedPoint :=
  mkOptimizedPoint (op_p op) (op_dir op)
    (solved (isConstant env settings keyFrames (LogDepthBlock (kf, ci, k)))
            (op_logDepth op) (sol_logDepth sol (kf, ci, k)))
    (op_state op).

Definition adjustEntry (env : Env) (settings : BundleAdjusterSettings)
    (keyFrames : list KeyFrame) (sol : Solution) (kf : nat)
    (ci : nat) (e : KeyFrameEntry) : KeyFrameEntry :=
  mkKeyFrameEntry
    (solved (isConstant env settings keyFrames (AffineBlock kf ci))
            (lightWorldToThis e) (sol_affine sol kf ci))
    (imap (adjustPoint env settings keyFrames sol kf ci) (optimizedPoints e)).

Definition adjustKeyFrame (env : Env) (settings : BundleAdjusterSettings)
    (keyFrames : list KeyFrame) (sol : Solution)
    (kf : nat) (f : KeyFrame) : KeyFrame :=
  mkKeyFrame
    (mkSE3
       (solved (isConstant env settings keyFrames (RotationBlock kf))
               (so3 (thisToWorld f)) (sol_rotation sol kf))
       (solved (isConstant env settings keyFrames (TranslationBlock kf))
               (translation (thisToWorld f)) (sol_translation sol kf)))
    (imap (adjustEntry env settings keyFrames sol kf) (frames f)).

(** The constructor's checks and [BundleAdjusterCeres::adjust]: the key
    frames after the call, for the values [sol] the minimizer arrives at.
    [None] when [CHECK(size >= 2)] or [CHECK(cam->bundle.size() == 1)]
    fails. *)
Definition adjust (env : Env) (settings : BundleAdjusterSettings)
    (cam : CameraBundle) (keyFrames : list KeyFrame) (sol : Solution)
  : option (list KeyFrame) :=
  if decide (2 ≤ length keyFrames)%nat then
    if decide (length (bundle cam) = 1%nat) then
      Some (imap (adjustKeyFrame env settings keyFrames sol) keyFrames)
    else None
  else None.

End BundleAdjusterCeres.

(** ** A small concrete scene

    A pinhole camera of focal length 100 on a 640 x 480 image, images whose
    intensity is linear in the pixel position, two key frames one unit
    apart, one active point.  It is the input at which the statements below
    are evaluated. *)
Module Demo.

Definition q (n : Z) : Qc := qc n 1.

(** A square root that is exact on squares of rationals. *)
Definition sqrt_exact (x : Qc) : Qc :=
  qc (Z.sqrt (Qnum (this x))) (Pos.sqrt (Qden (this x))).

(** An [exp] that overflows above 709, as on [double]; below, the first
    terms of the series stand for the value. *)
Definition exp_overflowing (x : Qc) : Depth :=
  if gtb x (q 709) then mkDepth 0 false
  else mkDepth (1 + x + x * x / 2) true.

Definition pinhole_map (v : Vec3) : Vec2 :=
  let '(x, y, z) := v in (q 100 * x / z + q 320, q 100 * y / z + q 240).
Definition pinhole_unmap (p : Vec2) : Vec3 :=
  let '(u, v) := p in ((u - q 320) / q 100, (v - q 240) / q 100, 1).
Definition pinhole_isMappable (v : Vec3) : bool :=
  let '(_, _, z) := v in gtb z 0.
Definition pinhole_isOnImage (p : Vec2) (border : Z) : bool :=
  let '(u, v) := p in
  geb u (q border) && ltb u (q (640 - border)) &&
  geb v (q border) && ltb v (q (480 - border)).
Definition pinhole_diffMap (v : Vec3) : Vec2 * Mat23 :=
  let '(x, y, z) := v in
  (pinhole_map v,
   ((q 100 / z, 0, - (q 100 * x) / (z * z)),
    (0, q 100 / z, - (q 100 * y) / (z * z)))).

(** The image of entry [(kf, ci)]: [f(r, c) = r + 2 c + kf]. *)
Definition linear_image (frame : nat * nat) (r c : Qc) : Qc * Qc * Qc :=
  (r + 2 * c + q (Z.of_nat (fst frame)), 1, 2).

Definition light_ea (l : AffLight) : Qc := dval (exp_overflowing (aff_a l)).
Definition light_apply (l : AffLight) (i : Qc) : Qc :=
  light_ea l * i + aff_b l.
Definition light_mul (l2 l1 : AffLight) : AffLight :=
  mkAffLight (aff_a l2 + aff_a l1) (light_ea l2 * aff_b l1 + aff_b l2).
Definition light_inverse (l : AffLight) : AffLight :=
  mkAffLight (- aff_a l) (- aff_b l / light_ea l).

Definition mat34_zero : Mat34 := ((0, 0, 0, 0), (0, 0, 0, 0), (0, 0, 0, 0)).
Definition motion (hostCamToBody hostToWorld targetToWorld bodyToTargetCam : SE3)
  : MotionDerivatives :=
  mkMotionDerivatives (λ _, mat34_zero) mat33_id (λ _, mat34_zero)
                      (so3 (se3_inverse targetToWorld)).

Definition env : Env :=
  mkEnv exp_overflowing sqrt_exact
        (λ _, pinhole_map) (λ _, pinhole_unmap) (λ _, pinhole_isMappable)
        (λ _, pinhole_isOnImage) (λ _, pinhole_diffMap)
        linear_image light_apply light_mul light_inverse light_ea motion.

Definition residualSettings : ResidualSettings :=
  mkResidualSettings [(0, 0)] 2 2 (qc 1 10) 1 (q 100).

(** [failMultiplier = 2], [failMultiplierMultiplier = 3]; [successMultiplier]
    is one half. *)
Definition optimizationSettings (lossType : Loss) : OptimizationSettings :=
  mkOptimizationSettings 1 (qc 1 2) 2 (q 3) 2 lossType.

Definition energySettings (lossType : Loss) : EnergyFunctionSettings :=
  mkEnergyFunctionSettings residualSettings (optimizationSettings lossType).

Definition rig : CameraBundle := mkCameraBundle [mkCamInBundle se3_id se3_id].

Definition thePoint (logDepth : Qc) (s : PointState) : OptimizedPoint :=
  mkOptimizedPoint (q 320, q 240) (0, 0, 1) logDepth s.

Definition sideways (x : Qc) : SE3 := mkSE3 mat33_id (x, 0, 0).

(** Two key frames; the first hosts one point. *)
Definition scene (logDepth : Qc) (s : PointState) : list KeyFrame :=
  [ mkKeyFrame se3_id [mkKeyFrameEntry (mkAffLight 0 0) [thePoint logDepth s]];
    mkKeyFrame (sideways 1) [mkKeyFrameEntry (mkAffLight 0 0) []] ].

(** A solver side that proposes the same step of the log-depths whatever the
    Hessian is, and applies it by adding. *)
Definition collaborators (step : Qc) : Collaborators :=
  mkCollaborators unit unit unit (λ _, ()) (λ _ _ _ _ _ _, ()) (λ _ _ _ _ _, ())
    (λ h _, h)
    (λ _ _,
       DeltaParameterVector.mk
         (DeltaParameterVector.mkFrameParameterOrder 2 1 9 (λ _ _, 7%nat))
         (replicate 9 0) [step])
    (λ p d,
       mkParameters
         (mkParametersState
            (st_bodyToWorld (state p)) (st_lightWorldToFrame (state p))
            (zip_with Qcplus (st_logDepth (state p))
                      (DeltaParameterVector.point d)))
         (p_camBundleSize p) (p_points p))
    (λ _ keyFrames, keyFrames).

(** The rotation by the angle of the 3-4-5 triangle about the third axis,
    followed by a translation. *)
Definition gauge : SE3 :=
  mkSE3 ((qc 3 5, qc (-4) 5, 0), (qc 4 5, qc 3 5, 0), (0, 0, 1))
        (q 1, q 2, q 3).

End Demo.

(** ** Sums, and the energies and weights of the descriptions *)

Definition sum_list (l : list Qc) : Qc := foldr Qcplus 0 l.

(** The sum over the pattern of the loss at the squared values of one
    residual. *)
Definition residualEnergy (lossFunction : LossFunction) (vals : list Qc) : Qc :=
  sum_list ((λ r, rho0 (lossFunction (r * r))) <$> vals).

(** The sum over all residuals and pattern indices of [w_i * rho(r_i^2)],
    with the weights [w] of [Residual::getWeights]. *)
Definition weightedEnergy (settings : ResidualSettings)
    (residuals : list Residual) (v : Values) : option Qc :=
  terms ←
    mapM (λ rv : Residual * (list Qc * Vec2),
            ws ← getWeights (v_lossFunction v) settings (fst rv) (fst (snd rv));
            Some (sum_list
                    (zip_with (λ w r, w * rho0 (v_lossFunction v (r * r)))
                              ws (fst (snd rv)))))
         (zip residuals (valsAndCache v));
  Some (sum_list terms).

(** The curvature term [rho_1 + 2 rho_2 v_i^2] of a sample. *)
Definition curvature (lossFunction : LossFunction) (values : list Qc) (i : nat)
  : Qc :=
  let v2 := at_ values i * at_ values i in
  rho1 (lossFunction v2) + 2 * rho2 (lossFunction v2) * v2.

(** The weight with the floor taken as a maximum:
    [gradWeights[i] * max (rho_1 + 2 rho_2 v_i^2) (eps * rho_1)]. *)
Definition maxWeight (lossFunction : LossFunction) (settings : ResidualSettings)
    (res : Residual) (values : list Qc) (i : nat) : Qc :=
  let v2 := at_ values i * at_ values i in
  at_ (gradWeights res) i *
  Qc_max (curvature lossFunction values i)
         (lossEps settings * rho1 (lossFunction v2)).

(** The weight with the floor taken only under a negative curvature term. *)
Definition flooredWeight (lossFunction : LossFunction)
    (settings : ResidualSettings) (res : Residual) (values : list Qc)
    (i : nat) : Qc :=
  let v2 := at_ values i * at_ values i in
  at_ (gradWeights res) i *
  (if bool_decide (curvature lossFunction values i < 0)
   then lossEps settings * rho1 (lossFunction v2)
   else curvature lossFunction values i).

(** ** Gauge and depth at infinity, as the descriptions put them *)

(** The parameters with every body-to-world pose multiplied by [t] from the
    left. *)
Definition gaugeParameters (t : SE3) (p : Parameters) : Parameters :=
  mkParameters
    (mkParametersState (se3_mul t <$> st_bodyToWorld (state p))
                       (st_lightWorldToFrame (state p))
                       (st_logDepth (state p)))
    (p_camBundleSize p) (p_points p).

(** The environment with another [exp]. *)
Definition withExp (env : Env) (e : Qc → Depth) : Env :=
  mkEnv e (sqrtT env) (cam_map env) (cam_unmap env) (cam_isMappable env)
        (cam_isOnImage env) (cam_diffMap env) (interpolator env)
        (aff_apply env) (aff_mul env) (aff_inverse env) (aff_ea env)
        (newMotionDerivatives env).

(** A Jacobian with the mark of the infinite depth set. *)
Definition markInfDepth (j : Jacobian) : Jacobian :=
  mkJacobian (dhost j) (dtarget j) (dp_dlogd j) (gradItarget j) true.

(** ** The residuals the constructor makes, as the description puts them *)

(** A residual has distinct host and target key frames; its point, the one
    its log-depth pointer leads to in the host entry, is [ACTIVE]; and the
    ray of the point at its depth, taken to the target by the host-to-target
    transform at construction, is mappable by the target camera and projects
    on the target image within the border [residualPattern.height].  A
    combination of host, target and point that violates one of these
    therefore has no residual. *)
Definition residual_ok (env : Env) (cam : CameraBundle)
    (keyFrames : list KeyFrame) (settings : EnergyFunctionSettings)
    (r : Residual) : Prop :=
  mHostInd r ≠ mTargetInd r ∧
  ∃ op k,
    logDepth r = (mHostInd r, mHostCamInd r, k) ∧
    lookupPoint keyFrames (logDepth r) = Some op ∧
    op_state op = ACTIVE ∧
    let hostToTargetImage :=
      hostToTarget_get
        (PrecomputedHostToTarget_new cam (Parameters_new cam keyFrames))
        (mHostInd r) (mHostCamInd r) (mTargetInd r) (mTargetCamInd r) in
    let rayTarget :=
      se3_act hostToTargetImage (vec3_scale (op_depth env op) (op_dir op)) in
    cam_isMappable env (mTargetCamInd r) rayTarget = true ∧
    cam_isOnImage env (mTargetCamInd r)
                  (cam_map env (mTargetCamInd r) rayTarget)
                  (patternHeight (residual settings)) = true.

(** The constructor succeeds, all its residuals are as above, and [optimize]
    returns with the same residuals. *)
Definition residuals_rule (env : Env) (cam : CameraBundle)
    (keyFrames : list KeyFrame) (settings : EnergyFunctionSettings) : Prop :=
  ∃ ef,
    EnergyFunction_new env cam keyFrames settings = Some ef ∧
    Forall (residual_ok env cam keyFrames settings) (residuals ef) ∧
    ∀ C maxIterations ef' keyFrames',
      optimize env C ef keyFrames maxIterations = Some (ef', keyFrames') →
      residuals ef' = residuals ef.

(** ** Parameters::update and Parameters::apply *)

(** What an update leaves to the platform: how a pose takes the seven pose
    entries of its frame block (the right-multiplication by the exponential,
    the additive translation, for key frame 1 the projection on the scale
    sphere), how an affine pair takes its two entries and a log-depth its
    step (with their bounds). *)
Record Retraction := mkRetraction {
  plusPose : nat -> SE3 -> list Qc -> SE3;
  plusAffine : AffLight -> Qc -> Qc -> AffLight;
  plusLogDepth : Qc -> Qc -> Qc
}.

(** An increment of zero changes neither a pose nor an affine pair: the
    exponential of zero is the identity. *)
Definition zero_increment (R : Retraction) : Prop :=
  (∀ frameInd pose, plusPose R frameInd pose (replicate 7 0) = pose) ∧
  (∀ light, plusAffine R light 0 0 = light).

(** Modelled from the spec: the layout of the frame part of a delta, which
    [FrameParameterOrder] decides and whose source is missing.  As the frame
    block of the normal equations, the frame part has
    [numKeyFrames * (7 + 2 * camBundleSize)] entries: per key frame the seven
    of the pose, then the affine pair of each camera. *)
Definition frameBlock (numCameras : nat) : nat := 7 + 2 * numCameras.
Definition specOrder (numKeyFrames numCameras : nat)
  : DeltaParameterVector.FrameParameterOrder :=
  DeltaParameterVector.mkFrameParameterOrder
    numKeyFrames numCameras (numKeyFrames * frameBlock numCameras)
    (λ frameInd camInd, frameInd * frameBlock numCameras + 7 + 2 * camInd)%nat.

(** Modelled from the spec: the frame part of a delta with the entries of key
    frame 0, pose and affine pairs, masked to zero. *)
Definition maskAnchor (numCameras : nat) (frame : list Qc) : list Qc :=
  imap (λ i x, if decide (i < frameBlock numCameras)%nat then 0 else x) frame.

(** Modelled from the spec: [Parameters::update], whose source is missing.
    The entries of key frame 0 are masked to zero before application; then
    every pose takes the seven pose entries of its block, every affine pair
    its two entries and every log-depth its step. *)
Definition specUpdate (R : Retraction) (p : Parameters)
    (delta : DeltaParameterVector.t) : Parameters :=
  let numCameras := p_camBundleSize p in
  let frame := maskAnchor numCameras (DeltaParameterVector.frame delta) in
  let start (frameInd : nat) : nat := (frameInd * frameBlock numCameras)%nat in
  mkParameters
    (mkParametersState
       (imap (λ frameInd pose,
                plusPose R frameInd pose
                         ((λ k, at_ frame (start frameInd + k)) <$> seq 0 7))
             (st_bodyToWorld (state p)))
       (imap (λ frameInd lights,
                imap (λ camInd light,
                        plusAffine R light
                          (at_ frame (start frameInd + 7 + 2 * camInd))
                          (at_ frame (start frameInd + 7 + 2 * camInd + 1)))
                     lights)
             (st_lightWorldToFrame (state p)))
       (imap (λ pi logDepth,
                plusLogDepth R logDepth
                             (at_ (DeltaParameterVector.point delta) pi))
             (st_logDepth (state p))))
    (p_camBundleSize p) (p_points p).

(** Modelled from the spec: [Parameters::apply], whose source is missing,
    writes the poses, the affine pairs and the log-depths of the points of
    the parameters back to the key frames. *)
Definition specApply (p : Parameters) (keyFrames : list KeyFrame)
  : list KeyFrame :=
  imap (λ frameInd kf,
          mkKeyFrame
            (getBodyToWorld p frameInd)
            (imap (λ camInd entry,
                     mkKeyFrameEntry
                       (getLightWorldToFrame p frameInd camInd)
                       (imap (λ k op,
                                mkOptimizedPoint
                                  (op_p op) (op_dir op)
                                  (match list_find
                                           (λ r : nat * nat * nat,
                                              r = (frameInd, camInd, k))
                                           (p_points p) with
                                   | Some (pi, _) => p_logDepth p pi
                                   | None => op_logDepth op
                                   end)
                                  (op_state op))
                             (optimizedPoints entry)))
                  (frames kf)))
       keyFrames.

(** A solver side with the update and the write-back above. *)
Definition withParameters (R : Retraction) (C : Collaborators)
  : Collaborators :=
  mkCollaborators (ParametrizationJacobians C) (Hessian C) (Gradient C)
                  (newParametrizationJacobians C) (newHessian C)
                  (newGradient C) (levenbergMarquardtDamp C) (solve C)
                  (specUpdate R) specApply.

(** ** The anchor, as the description puts it *)

(** [adjust] returns, and the first key frame has the pose and the affine
    pair of every camera it had before. *)
Definition anchor_kept (env : Env)
    (settings : BundleAdjusterCeres.BundleAdjusterSettings)
    (cam : CameraBundle) (keyFrames : list KeyFrame)
    (sol : BundleAdjusterCeres.Solution) : Prop :=
  ∃ keyFrames' kf0 kf0',
    BundleAdjusterCeres.adjust env settings cam keyFrames sol = Some keyFrames' ∧
    keyFrames !! 0%nat = Some kf0 ∧
    keyFrames' !! 0%nat = Some kf0' ∧
    thisToWorld kf0' = thisToWorld kf0 ∧
    lightWorldToThis <$> frames kf0' = lightWorldToThis <$> frames kf0.

(** The entry [i] of the frame part lies in the affine block of a frame from
    index 1 on. *)
Definition inAffineBlockFrom1 (order : DeltaParameterVector.FrameParameterOrder)
    (i : nat) : Prop :=
  ∃ frameInd camInd,
    (1 ≤ frameInd < DeltaParameterVector.fpo_numKeyFrames order)%nat ∧
    (camInd < DeltaParameterVector.fpo_numCameras order)%nat ∧
    (i = DeltaParameterVector.lightWorldToFrame order frameInd camInd ∨
     i = S (DeltaParameterVector.lightWorldToFrame order frameInd camInd)).

(** [setAffineZero] writes zero to the affine blocks of the frames from index
    1 on and to nothing else: every other entry of the frame part, those of
    frame 0 among them, and the point part stay as they are. *)
Definition setAffineZero_from1 (d : DeltaParameterVector.t) : Prop :=
  let d' := DeltaParameterVector.setAffineZero d in
  DeltaParameterVector.point d' = DeltaParameterVector.point d ∧
  length (DeltaParameterVector.frame d') = length (DeltaParameterVector.frame d) ∧
  (∀ i, ¬ inAffineBlockFrom1 (DeltaParameterVector.frameParameterOrder d) i →
        DeltaParameterVector.frame d' !! i = DeltaParameterVector.frame d !! i) ∧
  (∀ i, inAffineBlockFrom1 (DeltaParameterVector.frameParameterOrder d) i →
        (i < length (DeltaParameterVector.frame d))%nat →
        DeltaParameterVector.frame d' !! i = Some 0).

(** The pose and the affine pairs of key frame 0 in the parameters. *)
Definition anchor_is (pose0 : SE3) (lights0 : list AffLight) (numCameras : nat)
    (p : Parameters) : Prop :=
  st_bodyToWorld (state p) !! 0%nat = Some pose0 ∧
  st_lightWorldToFrame (state p) !! 0%nat = Some lights0 ∧
  p_camBundleSize p = numCameras.

(** The first key frame of [keyFrames'] has the pose and the affine pair of
    every camera that the first key frame of [keyFrames] has. *)
Definition same_anchor (keyFrames keyFrames' : list KeyFrame) : Prop :=
  ∃ kf0 kf0',
    keyFrames !! 0%nat = Some kf0 ∧
    keyFrames' !! 0%nat = Some kf0' ∧
    thisToWorld kf0' = thisToWorld kf0 ∧
    lightWorldToThis <$> frames kf0' = lightWorldToThis <$> frames kf0.

(** [optimize] returns, with any solver side and after any number of
    iterations, and key frame 0 has kept its pose and its affine pairs, in
    the key frames written back and in the parameters. *)
Definition anchor_kept_by_optimize (env : Env) (R : Retraction)
    (C : Collaborators) (ef : EnergyFunction) (keyFrames : list KeyFrame)
    (maxIterations : nat) : Prop :=
  ∃ ef' keyFrames',
    optimize env (withParameters R C) ef keyFrames maxIterations =
      Some (ef', keyFrames') ∧
    same_anchor keyFrames keyFrames' ∧
    getBodyToWorld (parameters ef') 0 = getBodyToWorld (parameters ef) 0 ∧
    ∀ camInd, getLightWorldToFrame (parameters ef') 0 camInd =
              getLightWorldToFrame (parameters ef) 0 camInd.

(** [setAffineZero] leaves every entry of the block of key frame 0, its pose
    entries and its affine pairs, as it is. *)
Definition anchor_block_untouched (d : DeltaParameterVector.t) : Prop :=
  ∀ i,
    (i < frameBlock (DeltaParameterVector.fpo_numCameras
                       (DeltaParameterVector.frameParameterOrder d)))%nat →
    DeltaParameterVector.frame (DeltaParameterVector.setAffineZero d) !! i =
    DeltaParameterVector.frame d !! i.

(** ** Concrete inputs built from the scene *)
Module DemoRun.

Definition noParameters : Parameters :=
  mkParameters (mkParametersState [] [] []) 0 [].

(** The energy function of the scene with one active point at depth 1. *)
Definition ef (lossType : Loss) : EnergyFunction :=
  default (mkEnergyFunction noParameters [] TrivialLoss Demo.rig
                            (Demo.energySettings lossType))
          (EnergyFunction_new Demo.env Demo.rig (Demo.scene 0 ACTIVE)
                              (Demo.energySettings lossType)).

(** The energy function of the scene whose only point is an outlier. *)
Definition efEmpty : EnergyFunction :=
  default (mkEnergyFunction noParameters [] TrivialLoss Demo.rig
                            (Demo.energySettings TRIVIAL))
          (EnergyFunction_new Demo.env Demo.rig (Demo.scene 0 OUTLIER)
                              (Demo.energySettings TRIVIAL)).

(** The state of the loop of [optimize] when it is entered. *)
Definition st0 (step : Qc) : LoopState (Demo.collaborators step) :=
  let e := ef TRIVIAL in
  let h := PrecomputedHostToTarget_new (cam e) (parameters e) in
  let l := mkPrecomputedLightHostToTarget (parameters e) in
  mkLoopState (parameters e) (initialLambda (optimization (settings e))) h
              (mkPrecomputedMotionDerivatives (cam e) (parameters e)) l
              (createValues Demo.env e (parameters e) h l)
              (mkDerivatives (C := Demo.collaborators step) () [])
              () () false.

(** Lambda after [n] turns of the loop, as a fraction. *)
Definition lambdaAfter (step : Qc) (n : nat) : option Q :=
  '(_, st) ← optimize_loop Demo.env (Demo.collaborators step) (ef TRIVIAL) n
                           (st0 step);
  Some (this (ls_lambda st)).

(** Which turns were accepted: the flag [parametersUpdated] after each. *)
Fixpoint acceptedTurns (step : Qc) (n : nat)
    (st : LoopState (Demo.collaborators step)) : list bool :=
  match n with
  | O => []
  | S n =>
      match iteration Demo.env (Demo.collaborators step) (ef TRIVIAL) st with
      | Some (_, st1) => ls_parametersUpdated st1 :: acceptedTurns step n st1
      | None => []
      end
  end.

(** Lambda of a [StepController] after [n] failed steps in a row (the new
    energy equal to the old one, a reduction of 1 predicted). *)
Fixpoint controllerAfterFails (n : nat) (c : StepController.t)
  : StepController.t :=
  match n with
  | O => c
  | S n => controllerAfterFails n (snd (StepController.newStep c 1 1 0))
  end.

(** The residual of the scene: host 0, target 1, the point at depth 1. *)
Definition res0 : Residual :=
  Residual_new Demo.env Demo.residualSettings 0 0 1 0 0 (0, 0, 0)%nat 0
               (Demo.thePoint 0 ACTIVE) (Demo.sideways (- 1)).

(** The values of the scene at its parameters. *)
Definition values0 : Values :=
  let e := ef TRIVIAL in
  createValues Demo.env e (parameters e)
               (PrecomputedHostToTarget_new (cam e) (parameters e))
               (mkPrecomputedLightHostToTarget (parameters e)).

(** The motion derivatives of the residual of the scene. *)
Definition dH0 : MotionDerivatives :=
  Demo.motion se3_id se3_id (Demo.sideways 1) se3_id.

(** The Jacobian of the residual of the scene at the log-depth 710, where
    [exp] overflows, for the host-to-target transform [h]. *)
Definition jacobianAt (h : SE3) : Jacobian :=
  getJacobian Demo.env Demo.residualSettings res0 h dH0
              (mkAffLight 0 0) (mkAffLight 0 0) (Demo.q 710).

Definition fractions (v : Vec2) : Q * Q := (this (fst v), this (snd v)).

(** The settings of a step controller: [initialFailMultiplier = 2],
    [failMultiplierMultiplier = 3], [minLambdaMultiplier = 1/10],
    [acceptedQuality = 1/4]. *)
Definition stepControl : StepController.StepControl :=
  StepController.mkStepControl 1 2 (Demo.q 3) (qc 1 10) (qc 1 4).

(** A minimizer result that moves everything it is allowed to. *)
Definition movedSolution : BundleAdjusterCeres.Solution :=
  BundleAdjusterCeres.mkSolution
    (λ _, (Demo.q 7, Demo.q 8, Demo.q 9)) (λ _, so3 Demo.gauge)
    (λ _ _, mkAffLight (qc 1 5) (Demo.q 10)) (λ _, qc 1 2).

Definition adjusterSettings : BundleAdjusterCeres.BundleAdjusterSettings :=
  BundleAdjusterCeres.mkBundleAdjusterSettings true (qc 1 10) false false
                                               (qc 1 100) (Demo.q 100).

(** A delta of two key frames and one camera, nine entries per frame, the
    affine block in the last two of each. *)
Definition delta0 : DeltaParameterVector.t :=
  DeltaParameterVector.mk
    (DeltaParameterVector.mkFrameParameterOrder
       2 1 18 (λ frameInd camInd, (9 * frameInd + 7 + 2 * camInd)%nat))
    (Demo.q <$> [1; 2; 3; 4; 5; 6; 7; 8; 9; 10; 11; 12; 13; 14; 15; 16; 17; 18]%Z)
    [Demo.q 5].

(** A retraction that adds the last three pose entries to the translation
    and keeps the rotation, and adds the affine entries and the log-depth
    step. *)
Definition additive : Retraction :=
  mkRetraction
    (λ _ pose xi,
       mkSE3 (so3 pose)
             (vec3_add (translation pose) (at_ xi 4, at_ xi 5, at_ xi 6)))
    (λ light da db, mkAffLight (aff_a light + da) (aff_b light + db))
    Qcplus.

(** A solver side that proposes, whatever the Hessian is, a step of one in
    every frame entry, those of key frame 0 among them, and [step] for the
    log-depth.  With the step [-1/2] the first iteration on the scene is
    accepted and the next ones are rejected. *)
Definition pushing (step : Qc) : Collaborators :=
  mkCollaborators unit unit unit (λ _, ()) (λ _ _ _ _ _ _, ()) (λ _ _ _ _ _, ())
    (λ h _, h)
    (λ _ _, DeltaParameterVector.mk (specOrder 2 1) (replicate 18 1) [step])
    (λ p _, p) (λ _ keyFrames, keyFrames).

(** A delta in the layout of two key frames and one camera. *)
Definition delta1 : DeltaParameterVector.t :=
  DeltaParameterVector.mk
    (specOrder 2 1)
    (Demo.q <$> [1; 2; 3; 4; 5; 6; 7; 8; 9; 10; 11; 12; 13; 14; 15; 16; 17; 18]%Z)
    [Demo.q 5].

End DemoRun.

(** ** What the statements say, as propositions *)

(** The values of the trial point of an iteration that solves to [delta]. *)
Definition trialValues (env : Env) (C : Collaborators) (ef : EnergyFunction)
    (st : LoopState C) (delta : DeltaParameterVector.t) : Values :=
  let trial := update C (ls_parameters st) delta in
  createValues env ef trial (PrecomputedHostToTarget_new (cam ef) trial)
               (mkPrecomputedLightHostToTarget trial).

(** An iteration runs to its end, logs the current energy and the energy of
    the trial point, accepts exactly when the latter is strictly lower, and
    after a rejection the parameters hold the snapshot again. *)
Definition accept_rule (env : Env) (C : Collaborators) (ef : EnergyFunction)
    (st : LoopState C) : Prop :=
  ∃ log st' delta,
    iteration env C ef st = Some (log, st') ∧
    totalEnergy (ls_curValues st) = Some (log_curEnergy log) ∧
    totalEnergy (trialValues env C ef st delta) = Some (log_newEnergy log) ∧
    (ls_parametersUpdated st' = true ↔ log_newEnergy log < log_curEnergy log) ∧
    (ls_parametersUpdated st' = true →
       ls_parameters st' = update C (ls_parameters st) delta) ∧
    (ls_parametersUpdated st' = false →
       saveState (ls_parameters st') = saveState (ls_parameters st)).

(** An iteration multiplies lambda by the setting [failMultiplier] when it
    rejects and by the setting [successMultiplier] when it accepts. *)
Definition lambda_rule (env : Env) (C : Collaborators) (ef : EnergyFunction)
    (st : LoopState C) : Prop :=
  ∃ log st',
    iteration env C ef st = Some (log, st') ∧
    (ls_parametersUpdated st' = false →
       ls_lambda st' =
       ls_lambda st * failMultiplier (optimization (settings ef))) ∧
    (ls_parametersUpdated st' = true →
       ls_lambda st' =
       ls_lambda st * successMultiplier (optimization (settings ef))).

(** * Further definitions: what the properties beyond the statements above
      are about *)

(** ** Runs of the step controller *)

(** A caller's sequence of calls of [StepController::newStep], each with its
    three energies: the flags returned and the controller at the end. *)
Fixpoint newSteps (c : StepController.t) (steps : list (Qc * Qc * Qc))
  : list bool * StepController.t :=
  match steps with
  | [] => ([], c)
  | (oldEnergy, newEnergy, predictedEnergy) :: steps =>
      let '(flag, c1) :=
        StepController.newStep c oldEnergy newEnergy predictedEnergy in
      let '(flags, c2) := newSteps c1 steps in
      (flag :: flags, c2)
  end.

(** [0 + 1 + ... + (n - 1)] *)
Fixpoint triangle (n : nat) : nat :=
  match n with
  | O => O
  | S k => (k + triangle k)%nat
  end.

(** Lambda, the fail multiplier and the multipliers of the settings that
    make them are positive. *)
Definition controller_positive (c : StepController.t) : Prop :=
  0 < StepController.mLambda c ∧
  0 < StepController.failMultiplier c ∧
  0 < StepController.minLambdaMultiplier (StepController.settings c) ∧
  0 < StepController.initialFailMultiplier (StepController.settings c) ∧
  0 < StepController.failMultiplierMultiplier (StepController.settings c).

(** ** Concrete inputs for the further properties *)
Module Examples.

Definition stepControl : StepController.StepControl :=
  StepController.mkStepControl 1 2 (Demo.q 3) (qc 1 10) (qc 1 4).

Definition controller : StepController.t := StepController.make stepControl.

(** A delta with point steps on both sides of the bound 3. *)
Definition delta : DeltaParameterVector.t :=
  DeltaParameterVector.mk
    (DeltaParameterVector.mkFrameParameterOrder
       2 1 18 (λ frameInd camInd, (9 * frameInd + 7 + 2 * camInd)%nat))
    (Demo.q <$> [1; 2; 3; 4; 5; 6; 7; 8; 9; 10; 11; 12; 13; 14; 15; 16; 17; 18]%Z)
    [Demo.q 5; qc (-1) 2; Demo.q (-4); Demo.q 3].

(** Adjuster settings whose [depth.min] is 2: a point at depth 1 is not
    strictly inside the range. *)
Definition nearSettings : BundleAdjusterCeres.BundleAdjusterSettings :=
  BundleAdjusterCeres.mkBundleAdjusterSettings true (qc 1 10) false false
                                               (Demo.q 2) (Demo.q 100).

(** Adjuster settings with [optimizeAffineLight] off,
    [fixedRotationOnSecondKF] on and [minFirstToSecondRadius = 1], the
    distance of the two key frames of the scene. *)
Definition frozenSettings : BundleAdjusterCeres.BundleAdjusterSettings :=
  BundleAdjusterCeres.mkBundleAdjusterSettings false 1 true false
                                               (qc 1 100) (Demo.q 100).

(** Adjuster settings with [fixedMotionOnFirstAdjustent] on and nothing else
    frozen. *)
Definition fixedMotionSettings : BundleAdjusterCeres.BundleAdjusterSettings :=
  BundleAdjusterCeres.mkBundleAdjusterSettings true (qc 1 10) false true
                                               (qc 1 100) (Demo.q 100).

End Examples.

(** ** Rigid motions with their inverses *)

(** The rotation matrix is orthogonal from both sides, so that
    [se3_inverse] is the inverse. *)
Definition rigid (a : SE3) : Prop :=
  is_rotation (so3 a) ∧
  mat33_mul (so3 a) (mat33_transpose (so3 a)) = mat33_id.

(** ** The cached values of EnergyFunction.cpp *)

(** The members [std::optional<Values> values] and
    [std::optional<Derivatives> derivatives] of [EnergyFunction]. *)
Record Precomputations (C : Collaborators) := mkPrecomputations {
  pc_values : option Values;
  pc_derivatives : option (Derivatives C)
}.
Arguments mkPrecomputations {C}.
Arguments pc_values {C}.
Arguments pc_derivatives {C}.

(** [EnergyFunction::clearPrecomputations] *)
Definition clearPrecomputations {C : Collaborators} (pc : Precomputations C)
  : Precomputations C :=
  mkPrecomputations None None.

(** [EnergyFunction::getAllValues(hostToTarget, lightHostToTarget)]: the
    values, made only if there are none yet, and the members after. *)
Definition getAllValuesWith {C : Collaborators} (env : Env)
    (ef : EnergyFunction) (pc : Precomputations C)
    (hostToTarget : PrecomputedHostToTarget)
    (lightHostToTarget : PrecomputedLightHostToTarget)
  : Values * Precomputations C :=
  match pc_values pc with
  | Some v => (v, pc)
  | None =>
      let v :=
        Values_new env (residual (settings ef)) (residuals ef) (parameters ef)
                   (lossFunction ef) hostToTarget lightHostToTarget in
      (v, mkPrecomputations (Some v) (pc_derivatives pc))
  end.

(** [EnergyFunction::getAllValues()] *)
Definition getAllValues {C : Collaborators} (env : Env) (ef : EnergyFunction)
    (pc : Precomputations C) : Values * Precomputations C :=
  let hostToTarget := PrecomputedHostToTarget_new (cam ef) (parameters ef) in
  let lightHostToTarget := mkPrecomputedLightHostToTarget (parameters ef) in
  getAllValuesWith env ef pc hostToTarget lightHostToTarget.

(** [EnergyFunction::getResidualValues]; [None] when one of its checks on
    the index, or of those of [Values::values], fails. *)
Definition getResidualValues {C : Collaborators} (env : Env)
    (ef : EnergyFunction) (pc : Precomputations C) (residualInd : nat)
  : option (list Qc * Precomputations C) :=
  if decide (residualInd < length (residuals ef))%nat then
    let '(v, pc') := getAllValues env ef pc in
    vals ← values v residualInd;
    Some (vals, pc')
  else None.

(** [EnergyFunction::numPoints] *)
Definition EnergyFunction_numPoints (ef : EnergyFunction) : nat :=
  numPoints (parameters ef).

(** ** The points of the constructor, as properties *)

(** The residuals and the points of an energy function fit: the point index
    of a residual names, among the points handed to the parameters, the
    point the residual was made for, with the log-depth that point has in
    its key frame; every point of the parameters has a residual; and there
    are as many log-depths as points. *)
Definition points_rule (keyFrames : list KeyFrame) (ef : EnergyFunction)
  : Prop :=
  (∀ r, r ∈ residuals ef →
        p_points (parameters ef) !! mPointInd r = Some (logDepth r) ∧
        ∃ op, lookupPoint keyFrames (logDepth r) = Some op ∧
              st_logDepth (state (parameters ef)) !! mPointInd r =
              Some (op_logDepth op)) ∧
  (∀ j, (j < numPoints (parameters ef))%nat →
        ∃ r, r ∈ residuals ef ∧ mPointInd r = j) ∧
  length (p_points (parameters ef)) = numPoints (parameters ef).

(** There is a residual for the host entry, the point and the target
    camera given. *)
Definition has_residual (ef : EnergyFunction)
    (hostInd hostCamInd k targetInd targetCamInd : nat) : Prop :=
  ∃ r, r ∈ residuals ef ∧
       mHostInd r = hostInd ∧ mHostCamInd r = hostCamInd ∧
       mTargetInd r = targetInd ∧ mTargetCamInd r = targetCamInd ∧
       logDepth r = (hostInd, hostCamInd, k).

(** ** The run of [optimize], as properties *)

(** The values of the residuals of [ef] at the parameters [p], as
    [optimize] makes them. *)
Definition valuesAt (env : Env) (ef : EnergyFunction) (p : Parameters)
  : Values :=
  createValues env ef p (PrecomputedHostToTarget_new (cam ef) p)
               (mkPrecomputedLightHostToTarget p).

(** The iteration that wrote the line [log] accepted its step. *)
Definition accepted (log : StepLog) : bool :=
  bool_decide (log_newEnergy log < log_curEnergy log).

(** The number of accepted iterations among those logged. *)
Definition countAccepted (logs : list StepLog) : nat :=
  length (filter (λ log, accepted log = true) logs).

(** [optimize] returns, and the energy at the parameters it returns is not
    above the energy at the parameters it started from. *)
Definition descent_rule (env : Env) (C : Collaborators) (ef : EnergyFunction)
    (keyFrames : list KeyFrame) (maxIterations : nat) : Prop :=
  ∃ ef' keyFrames' energy0 energy1,
    optimize env C ef keyFrames maxIterations = Some (ef', keyFrames') ∧
    totalEnergy (valuesAt env ef (parameters ef)) = Some energy0 ∧
    totalEnergy (valuesAt env ef (parameters ef')) = Some energy1 ∧
    energy1 ≤ energy0.

(** The loop of [optimize] runs all its iterations; the current energy an
    iteration logs is the lesser of the two energies of the iteration
    before; and lambda ends as its start value times [successMultiplier] to
    the number of accepted iterations times [failMultiplier] to the number of
    rejected ones. *)
Definition loop_rule (env : Env) (C : Collaborators) (ef : EnergyFunction)
    (maxIterations : nat) (st : LoopState C) : Prop :=
  ∃ logs st',
    optimize_loop env C ef maxIterations st = Some (logs, st') ∧
    length logs = maxIterations ∧
    (∀ i log1 log2,
       logs !! i = Some log1 → logs !! S i = Some log2 →
       log_curEnergy log2 =
       if accepted log1 then log_newEnergy log1 else log_curEnergy log1) ∧
    ls_lambda st' =
      ls_lambda st
      * successMultiplier (optimization (settings ef)) ^ countAccepted logs
      * failMultiplier (optimization (settings ef))
        ^ (maxIterations - countAccepted logs).

(** ** The Hessian contribution of a residual (optimize/Residual.cpp)

    A matrix with two rows ([Mat27t], [Mat24t], [Mat23t]) is read by its
    columns, a matrix with two columns ([MatR2t], [Mat72t]) by its rows; both
    are lists of [Vec2].  [Mat22t] is the pair of its rows and [Mat77t] the
    list of its rows. *)

Module Hessians.

Definition Mat22 : Type := Vec2 * Vec2.

Definition vec2_dot (u v : Vec2) : Qc :=
  let '(u0, u1) := u in let '(v0, v1) := v in u0 * v0 + u1 * v1.
Definition mat22_zero : Mat22 := ((0, 0), (0, 0)).
Definition mat22_add (m n : Mat22) : Mat22 :=
  let '(m0, m1) := m in let '(n0, n1) := n in (vec2_add m0 n0, vec2_add m1 n1).
Definition mat22_transpose (m : Mat22) : Mat22 :=
  let '((a, b), (c, d)) := m in ((a, c), (b, d)).
Definition mat22_mulv (m : Mat22) (v : Vec2) : Vec2 :=
  let '(m0, m1) := m in (vec2_dot m0 v, vec2_dot m1 v).

(** The columns of [Mat24t] and [Mat23t]. *)
Definition mat24_cols (m : Mat24) : list Vec2 :=
  let '((a0, a1, a2, a3), (b0, b1, b2, b3)) := m in
  [(a0, b0); (a1, b1); (a2, b2); (a3, b3)].
Definition mat23_cols (m : Mat23) : list Vec2 :=
  let '((a0, a1, a2), (b0, b1, b2)) := m in [(a0, b0); (a1, b1); (a2, b2)].

(** [g^T * weights.asDiagonal() * d] for [g] and [d] with two columns: the
    sum over the rows of [w_i g_i d_i^T]. *)
Fixpoint gtwd (weights : list Qc) (g d : list Vec2) : Mat22 :=
  match weights, g, d with
  | w :: weights, (g0, g1) :: g, (d0, d1) :: d =>
      mat22_add ((w * g0 * d0, w * g0 * d1), (w * g1 * d0, w * g1 * d1))
                (gtwd weights g d)
  | _, _, _ => mat22_zero
  end.

(** [sum_gradab] *)
Definition sum_gradab (weights : list Qc) (gradItarget dr_dab : list Vec2)
  : Mat22 :=
  gtwd weights gradItarget dr_dab.

(** The blocks of [FrameFrameHessian]: [qtqt] (7 x 7) as the list of its
    rows, [qtab] (7 x 2) as the list of its rows, [abqt] (2 x 7) as the list
    of its columns, so that the transpose of a 7 x 2 matrix is the same list
    read as a 2 x 7 matrix; [abab] (2 x 2) by rows. *)
Record FrameFrameHessian := mkFrameFrameHessian {
  qtqt : list (list Qc);
  qtab : list Vec2;
  abqt : list Vec2;
  abab : Mat22
}.

Record FramePointHessian := mkFramePointHessian {
  qtd : list Qc;
  abd : Vec2
}.

Record DeltaHessian := mkDeltaHessian {
  hostHost : FrameFrameHessian;
  hostTarget : FrameFrameHessian;
  targetTarget : FrameFrameHessian;
  hostPoint : FramePointHessian;
  targetPoint : FramePointHessian;
  pointPoint : Qc
}.

(** [H_frameframe<isSameFrame>]; [df1_dp_dqt] and [df2_dp_dqt] are given by
    their seven columns. *)
Definition H_frameframe (isSameFrame : bool) (df1_dp_dqt df2_dp_dqt : list Vec2)
    (df1_dr_dab df2_dr_dab : list Vec2) (weights : list Qc)
    (sum_wgradgradT sum_gradab1 sum_gradab2 : Mat22) : FrameFrameHessian :=
  let qtqt :=
    (λ c1, (λ c2, vec2_dot c1 (mat22_mulv sum_wgradgradT c2)) <$> df2_dp_dqt)
      <$> df1_dp_dqt in
  let qtab := (λ c1, mat22_mulv (mat22_transpose sum_gradab2) c1) <$> df1_dp_dqt in
  let abqt :=
    if isSameFrame then qtab
    else (λ c2, mat22_mulv (mat22_transpose sum_gradab1) c2) <$> df2_dp_dqt in
  mkFrameFrameHessian qtqt qtab abqt (gtwd weights df1_dr_dab df2_dr_dab).

(** [H_framepoint] *)
Definition H_framepoint (dp_dqt : list Vec2) (dp_dlogd : Vec2)
    (sum_wgradgradT sum_gradab : Mat22) : FramePointHessian :=
  mkFramePointHessian
    ((λ c, vec2_dot c (mat22_mulv sum_wgradgradT dp_dlogd)) <$> dp_dqt)
    (mat22_mulv (mat22_transpose sum_gradab) dp_dlogd).

(** [Residual::getDeltaHessian] *)
Definition getDeltaHessian (weights : list Qc) (jacobian : Jacobian)
  : DeltaHessian :=
  let dhost_dp_dqt :=
    mat24_cols (dp_dq (dhost jacobian)) ++ mat23_cols (dp_dt (dhost jacobian)) in
  let dtarget_dp_dqt :=
    mat24_cols (dp_dq (dtarget jacobian))
    ++ mat23_cols (dp_dt (dtarget jacobian)) in
  let sum_wgradgradT :=
    gtwd weights (gradItarget jacobian) (gradItarget jacobian) in
  let sum_gradab_host :=
    sum_gradab weights (gradItarget jacobian) (dr_dab (dhost jacobian)) in
  let sum_gradab_target :=
    sum_gradab weights (gradItarget jacobian) (dr_dab (dtarget jacobian)) in
  mkDeltaHessian
    (H_frameframe true dhost_dp_dqt dhost_dp_dqt (dr_dab (dhost jacobian))
                  (dr_dab (dhost jacobian)) weights sum_wgradgradT
                  sum_gradab_host sum_gradab_host)
    (H_frameframe false dhost_dp_dqt dtarget_dp_dqt (dr_dab (dhost jacobian))
                  (dr_dab (dtarget jacobian)) weights sum_wgradgradT
                  sum_gradab_host sum_gradab_target)
    (H_frameframe true dtarget_dp_dqt dtarget_dp_dqt (dr_dab (dtarget jacobian))
                  (dr_dab (dtarget jacobian)) weights sum_wgradgradT
                  sum_gradab_target sum_gradab_target)
    (H_framepoint dhost_dp_dqt (dp_dlogd jacobian) sum_wgradgradT
                  sum_gradab_host)
    (H_framepoint dtarget_dp_dqt (dp_dlogd jacobian) sum_wgradgradT
                  sum_gradab_target)
    (vec2_dot (dp_dlogd jacobian)
              (mat22_mulv sum_wgradgradT (dp_dlogd jacobian))).

(** The transpose of a [Mat77t] kept by its rows. *)
Definition mat77_transpose (m : list (list Qc)) : list (list Qc) :=
  (λ j, (λ row, at_ row j) <$> m) <$> seq 0 7.

(** [FrameFrameHessian::transpose]: the transpose of the 7 x 2 block [abqt],
    kept by its columns, is the list of the same pairs kept by rows. *)
Definition FrameFrameHessian_transpose (h : FrameFrameHessian)
  : FrameFrameHessian :=
  mkFrameFrameHessian (mat77_transpose (qtqt h)) (abqt h) (qtab h)
                      (mat22_transpose (abab h)).

(** [FrameFrameHessian::operator+=] and [FramePointHessian::operator+=] *)
Definition FrameFrameHessian_add (h other : FrameFrameHessian)
  : FrameFrameHessian :=
  mkFrameFrameHessian
    (zip_with (zip_with Qcplus) (qtqt h) (qtqt other))
    (zip_with vec2_add (qtab h) (qtab other))
    (zip_with vec2_add (abqt h) (abqt other))
    (mat22_add (abab h) (abab other)).
Definition FramePointHessian_add (h other : FramePointHessian)
  : FramePointHessian :=
  mkFramePointHessian (zip_with Qcplus (qtd h) (qtd other))
                      (vec2_add (abd h) (abd other)).

(** [Jacobian::dr_dlogd]: [gradItarget * dp_dlogd]. *)
Definition dr_dlogd (j : Jacobian) : list Qc :=
  (λ g, vec2_dot g (dp_dlogd j)) <$> gradItarget j.

(** [Jacobian::dr_dq_host] and the like: [gradItarget] times a matrix of two
    rows, as the list of the rows of the product. *)
Definition gradItarget_times (j : Jacobian) (cols : list Vec2)
  : list (list Qc) :=
  (λ g, (λ c, vec2_dot g c) <$> cols) <$> gradItarget j.
Definition dr_dq_host (j : Jacobian) : list (list Qc) :=
  gradItarget_times j (mat24_cols (dp_dq (dhost j))).
Definition dr_dt_host (j : Jacobian) : list (list Qc) :=
  gradItarget_times j (mat23_cols (dp_dt (dhost j))).
Definition dr_dq_target (j : Jacobian) : list (list Qc) :=
  gradItarget_times j (mat24_cols (dp_dq (dtarget j))).
Definition dr_dt_target (j : Jacobian) : list (list Qc) :=
  gradItarget_times j (mat23_cols (dp_dt (dtarget j))).
Definition dr_daff_host (j : Jacobian) : list Vec2 := dr_dab (dhost j).
Definition dr_daff_target (j : Jacobian) : list Vec2 := dr_dab (dtarget j).

(** The derivatives of the pattern values by the seven pose parameters of
    the host, row by row: [dr_dq_host] beside [dr_dt_host]. *)
Definition dr_dqt_host (j : Jacobian) : list (list Qc) :=
  zip_with app (dr_dq_host j) (dr_dt_host j).

End Hessians.

(** Concrete inputs for the Hessian contribution. *)
Module HessianExamples.

(** The Jacobian of the residual of the scene at its parameters. *)
Definition jacobian : Jacobian :=
  getJacobian Demo.env Demo.residualSettings DemoRun.res0 (Demo.sideways (- 1))
              DemoRun.dH0 (mkAffLight 0 0) (mkAffLight 0 0) 0.

Definition weights : list Qc := [qc 2 3].

Definition hostColumns : list Vec2 :=
  Hessians.mat24_cols (dp_dq (dhost jacobian))
  ++ Hessians.mat23_cols (dp_dt (dhost jacobian)).
Definition targetColumns : list Vec2 :=
  Hessians.mat24_cols (dp_dq (dtarget jacobian))
  ++ Hessians.mat23_cols (dp_dt (dtarget jacobian)).
Definition gradGrad : Hessians.Mat22 :=
  Hessians.gtwd weights (gradItarget jacobian) (gradItarget jacobian).

End HessianExamples.

(** ** The residual at the point where it was made *)

(** The projection into the target image of the pattern pixel at the offset
    [off] of a host point, at the depth [exp(logDepthVal)]. *)
Definition patternProjection (env : Env) (hostCamInd targetCamInd : nat)
    (hostToTargetImage : SE3) (op : OptimizedPoint) (logDepthVal : Qc)
    (off : Vec2) : Vec2 :=
  cam_map env targetCamInd
    (se3_act hostToTargetImage
       (vec3_scale (dval (expT env logDepthVal))
          (vec3_normalized env
             (cam_unmap env hostCamInd (vec2_add (op_p op) off))))).

(** The intensity an interpolator returns at a pixel position [(x, y)]. *)
Definition intensityAt (env : Env) (frame : nat * nat) (p : Vec2) : Qc :=
  fst (fst (interpolator env frame (snd p) (fst p))).

(** ** What [adjust] leaves alone, as properties *)

(** The point at [ref] after the call is the point before, but for its
    log-depth; and the log-depth, too, is the one before when the depth of
    the point was not strictly between [depth.min] and [depth.max]. *)
Definition point_kept (env : Env)
    (settings : BundleAdjusterCeres.BundleAdjusterSettings)
    (keyFrames keyFrames' : list KeyFrame) (ref : PointRef) : Prop :=
  match lookupPoint keyFrames ref with
  | Some op =>
      ∃ op', lookupPoint keyFrames' ref = Some op' ∧
             op_p op' = op_p op ∧ op_dir op' = op_dir op ∧
             op_state op' = op_state op ∧
             (op_depth env op ≤ BundleAdjusterCeres.depth_min settings ∨
              BundleAdjusterCeres.depth_max settings ≤ op_depth env op →
              op_logDepth op' = op_logDepth op)
  | None => lookupPoint keyFrames' ref = None
  end.

(** The options that freeze: without [optimizeAffineLight] no affine pair
    changes; the rotation of the second key frame stays under
    [fixedRotationOnSecondKF], its translation stays when the distance of
    the first two key frames is not above [minFirstToSecondRadius], and its
    whole pose stays under [fixedMotionOnFirstAdjustent] with two key
    frames. *)
Definition frozen_by_options (env : Env)
    (settings : BundleAdjusterCeres.BundleAdjusterSettings)
    (keyFrames keyFrames' : list KeyFrame) : Prop :=
  (BundleAdjusterCeres.optimizeAffineLight settings = false →
   ∀ i kf, keyFrames !! i = Some kf →
     ∃ kf', keyFrames' !! i = Some kf' ∧
            lightWorldToThis <$> frames kf' = lightWorldToThis <$> frames kf) ∧
  ∀ kf1, keyFrames !! 1%nat = Some kf1 →
    ∃ kf1', keyFrames' !! 1%nat = Some kf1' ∧
      (BundleAdjusterCeres.fixedRotationOnSecondKF settings = true →
       so3 (thisToWorld kf1') = so3 (thisToWorld kf1)) ∧
      (BundleAdjusterCeres.firstToSecondRadius env (thisToWorld <$> keyFrames)
         ≤ BundleAdjusterCeres.minFirstToSecondRadius settings →
       translation (thisToWorld kf1') = translation (thisToWorld kf1)) ∧
      (BundleAdjusterCeres.fixedMotionOnFirstAdjustent settings = true →
       length keyFrames = 2%nat →
       thisToWorld kf1' = thisToWorld kf1).

(** ** Reprojector (system/Reprojector.cpp, for [OptimizedPoint]) *)
Module Reprojector.

Record Reprojection := mkReprojection {
  hostInd : nat;
  hostCamInd : nat;
  targetCamInd : nat;
  pointInd : nat;
  reprojected : Vec2;
  reprojectedDepth : Qc
}.

Record t := mk {
  targetWorldToBody : SE3;
  keyFrames : list KeyFrame;
  cam : CameraBundle;
  borderSize : Z;
  numCams : nat;
  numKeyFrames : nat
}.

(** The constructor.  The camera bundle is the one of the first key frame,
    given here as [cam]; without key frames the constructor reads the size
    of a null bundle, which is [None] here. *)
Definition make (cam : CameraBundle) (keyFrames : list KeyFrame)
    (targetBodyToWorld : SE3) (borderSize : Z) : option t :=
  match keyFrames with
  | [] => None
  | _ :: _ =>
      Some (mk (se3_inverse targetBodyToWorld) keyFrames cam borderSize
               (length (bundle cam)) (length keyFrames))
  end.

(** The transform of the innermost loop. *)
Definition hostCamToTargetCam (r : t) (targetCamInd hostInd hostCamInd : nat)
  : SE3 :=
  let worldToTargetCam :=
    se3_mul (bodyToCam (cam r) targetCamInd) (targetWorldToBody r) in
  let hostBodyToTargetCam :=
    se3_mul worldToTargetCam
            (default se3_id (thisToWorld <$> keyFrames r !! hostInd)) in
  se3_mul hostBodyToTargetCam (camToBody (cam r) hostCamInd).

(** The body of the loop over the points: the reprojection pushed, if any. *)
Definition reprojectPoint (env : Env) (r : t)
    (targetCamInd hostInd hostCamInd : nat) (kp : nat * OptimizedPoint)
  : list Reprojection :=
  let '(pointInd, p) := kp in
  let vInTarget :=
    se3_act (hostCamToTargetCam r targetCamInd hostInd hostCamInd)
            (vec3_scale (op_depth env p) (op_dir p)) in
  if negb (cam_isMappable env targetCamInd vInTarget) then []
  else
    let reprojected := cam_map env targetCamInd vInTarget in
    if negb (cam_isOnImage env targetCamInd reprojected (borderSize r)) then []
    else [mkReprojection hostInd hostCamInd targetCamInd pointInd reprojected
                         (sqrtT env (vec3_dot vInTarget vInTarget))].

(** [Reprojector<OptimizedPoint>::reproject]: the four loops push the
    reprojections in this order. *)
Definition reproject (env : Env) (r : t) : list Reprojection :=
  targetCamInd ← seq 0 (numCams r);
  hostInd ← seq 0 (numKeyFrames r);
  hostCamInd ← seq 0 (numCams r);
  kp ← pointsOf (keyFrames r) hostInd hostCamInd;
  reprojectPoint env r targetCamInd hostInd hostCamInd kp.

End Reprojector.

(** The reprojector reports the point [k] of the host entry in the target
    camera. *)
Definition reports (env : Env) (r : Reprojector.t)
    (hostInd hostCamInd k targetCamInd : nat) : Prop :=
  ∃ re, re ∈ Reprojector.reproject env r ∧
        Reprojector.hostInd re = hostInd ∧
        Reprojector.hostCamInd re = hostCamInd ∧
        Reprojector.targetCamInd re = targetCamInd ∧
        Reprojector.pointInd re = k.

(** * Theorems *)

(** ** Lemmas on the pieces *)

Lemma totalEnergy_is_Some v : valsAndCache v ≠ [] → is_Some (totalEnergy v).
Proof. unfold totalEnergy. destruct (valsAndCache v); [done | eauto]. Qed.

Lemma totalEnergy_empty v : valsAndCache v = [] → totalEnergy v = None.
Proof. unfold totalEnergy. by intros ->. Qed.

Lemma createValues_length env ef p h l :
  length (valsAndCache (createValues env ef p h l)) = length (residuals ef).
Proof. unfold createValues, Values_new. simpl. by rewrite length_fmap. Qed.

Lemma createValues_nonempty env ef p h l :
  residuals ef ≠ [] → valsAndCache (createValues env ef p h l) ≠ [].
Proof.
  intros Hne Hnil. apply (f_equal length) in Hnil.
  rewrite createValues_length in Hnil. by destruct (residuals ef).
Qed.

Lemma createDerivatives_is_Some env C ef p v h m l :
  length (valsAndCache v) = length (residuals ef) →
  is_Some (createDerivatives env C ef p v h m l).
Proof.
  intros Hlen. unfold createDerivatives, Derivatives_new.
  match goal with
  | |- is_Some (mapM ?f ?xs ≫= _) =>
      assert (Hm : is_Some (mapM f xs)); [| destruct Hm as [js ->]; by eexists]
  end.
  apply mapM_is_Some_2, Forall_forall. intros [ri res] Hin.
  apply elem_of_zip_l, elem_of_seq in Hin.
  unfold compose, cachedValues.
  destruct (lookup_lt_is_Some_2 (valsAndCache v) ri) as [vc Hvc]; [lia |].
  rewrite Hvc. by eexists.
Qed.

(** What one turn of the loop does, case by case. *)
Lemma iteration_cases env C ef (st : LoopState C) :
  residuals ef ≠ [] →
  length (valsAndCache (ls_curValues st)) = length (residuals ef) →
  ∃ curEnergy newEnergy delta st',
    iteration env C ef st = Some (mkStepLog curEnergy newEnergy, st') ∧
    totalEnergy (ls_curValues st) = Some curEnergy ∧
    totalEnergy (trialValues env C ef st delta) = Some newEnergy ∧
    length (valsAndCache (ls_curValues st')) = length (residuals ef) ∧
    ((newEnergy < curEnergy ∧ ls_parametersUpdated st' = true ∧
      ls_parameters st' = update C (ls_parameters st) delta ∧
      ls_curValues st' = trialValues env C ef st delta ∧
      ls_lambda st' =
      ls_lambda st * successMultiplier (optimization (settings ef)))
     ∨
     (curEnergy ≤ newEnergy ∧ ls_parametersUpdated st' = false ∧
      saveState (ls_parameters st') = saveState (ls_parameters st) ∧
      ls_curValues st' = ls_curValues st ∧
      ls_lambda st' =
      ls_lambda st * failMultiplier (optimization (settings ef)))).
Proof.
  intros Hres Hlen.
  assert (Hcur : is_Some (totalEnergy (ls_curValues st))).
  { apply totalEnergy_is_Some. intros Hnil. rewrite Hnil in Hlen.
    by destruct (residuals ef). }
  destruct Hcur as [curEnergy Hcur].
  unfold iteration. rewrite Hcur. cbn [mbind option_bind].
  destruct (createDerivatives_is_Some env C ef (ls_parameters st)
              (ls_curValues st) (ls_hostToTarget st)
              (mkPrecomputedMotionDerivatives (cam ef) (ls_parameters st))
              (ls_lightHostToTarget st) Hlen) as [d Hd].
  set (refreshed := if ls_parametersUpdated st then _ else _).
  assert (Href : ∃ m cd hs g, refreshed = Some (m, cd, hs, g)).
  { subst refreshed. destruct (ls_parametersUpdated st).
    - rewrite Hd. cbn [mbind option_bind]. by do 4 eexists.
    - by do 4 eexists. }
  destruct Href as (m & cd & hs & g & ->). cbn [mbind option_bind].
  set (delta := solve C (levenbergMarquardtDamp C hs (ls_lambda st)) g).
  fold (trialValues env C ef st delta).
  assert (Hnew : is_Some (totalEnergy (trialValues env C ef st delta))).
  { apply totalEnergy_is_Some, createValues_nonempty, Hres. }
  destruct Hnew as [newEnergy Hnew]. rewrite Hnew. cbn [mbind option_bind].
  exists curEnergy, newEnergy, delta. eexists. split; [reflexivity |].
  split; [done |]. split; [done |].
  unfold geb. destruct (decide (curEnergy ≤ newEnergy)) as [Hle | Hnle].
  - rewrite (bool_decide_eq_true_2 _ Hle). cbn.
    split; [done |]. right. by repeat split.
  - rewrite (bool_decide_eq_false_2 _ Hnle). cbn.
    split; [apply createValues_length |]. left.
    split; [by apply Qcnot_le_lt |]. by repeat split.
Qed.

Lemma std_max_is_max a b : std_max a b = Qc_max a b.
Proof.
  unfold std_max, Qc_max, ltb.
  destruct (decide (a < b)) as [Hlt | Hnlt].
  - rewrite (bool_decide_eq_true_2 _ Hlt).
    rewrite bool_decide_eq_true_2; [done | by apply Qclt_le_weak].
  - rewrite (bool_decide_eq_false_2 _ Hnlt).
    destruct (decide (a ≤ b)) as [Hle | Hnle].
    + rewrite (bool_decide_eq_true_2 _ Hle).
      apply Qcnot_lt_le in Hnlt. by apply Qcle_antisym.
    + by rewrite (bool_decide_eq_false_2 _ Hnle).
Qed.

Lemma Qcopp_nonzero (x : Qc) : x ≠ 0 → - x ≠ 0.
Proof.
  intros Hx H0. apply Hx. rewrite <- (Qcopp_involutive x), H0.
  apply Qc_is_canon. reflexivity.
Qed.

(** C4. For every call [newStep oldEnergy newEnergy predictedEnergy], with
    [q] the quotient of the observed by the predicted reduction (both
    flipped when the predicted one is negative): the call returns [true],
    multiplies lambda by [max minLambdaMultiplier (1 - (2q-1)^3)] and resets
    [failMultiplier] to [initialFailMultiplier] exactly when
    [q > acceptedQuality]; otherwise it returns [false], multiplies lambda by
    [failMultiplier] and [failMultiplier] by [failMultiplierMultiplier].
    When the predicted reduction is not zero, [q] is the rational
    [D_obs / D_pred].  When it is zero, [q] is the quotient of the doubles:
    plus infinity for a positive observed reduction, which exceeds
    [acceptedQuality] and makes the maximum [minLambdaMultiplier]; minus
    infinity or not a number otherwise, which do not exceed it. *)
Theorem newStep_spec (c : StepController.t) (oldEnergy newEnergy predictedEnergy : Qc) :
  let q := StepController.quality oldEnergy newEnergy predictedEnergy in
  let s := StepController.settings c in
  let d_pred := StepController.D_pred oldEnergy predictedEnergy in
  let d_obs := StepController.D_obs oldEnergy newEnergy in
  let accepted factor :=
    (true,
     StepController.mk (StepController.mLambda c * factor)
                       (StepController.initialFailMultiplier s) s) in
  let rejected :=
    (false,
     StepController.mk
       (StepController.mLambda c * StepController.failMultiplier c)
       (StepController.failMultiplier c *
        StepController.failMultiplierMultiplier s) s) in
  (d_pred ≠ 0 → q = Finite (d_obs / d_pred)) ∧
  (d_pred = 0 →
   q = if bool_decide (0 < d_obs) then PlusInfinity
       else if bool_decide (d_obs < 0) then MinusInfinity else NotANumber) ∧
  StepController.newStep c oldEnergy newEnergy predictedEnergy =
    match q with
    | Finite q =>
        if bool_decide (StepController.acceptedQuality s < q)
        then accepted (Qc_max (StepController.minLambdaMultiplier s)
                              (1 - (2 * q - 1) ^ 3))
        else rejected
    | PlusInfinity => accepted (StepController.minLambdaMultiplier s)
    | MinusInfinity | NotANumber => rejected
    end.
Proof.
  intros q s d_pred d_obs accepted rejected.
  subst q s accepted rejected d_pred d_obs.
  unfold StepController.newStep, StepController.quality,
    StepController.D_pred, StepController.D_obs, ltb, gtb.
  set (dp := oldEnergy - predictedEnergy).
  set (da := oldEnergy - newEnergy).
  assert (Hneg : ∀ x : Qc, x * - 1 = - x) by (intros; ring).
  rewrite !Hneg.
  assert (Hp : ∀ x : Qc, 1 - x * x * x = 1 - x ^ 3)
    by (intros; unfold Qcpower; ring).
  split; [| split].
  - intros Hdp. destruct (bool_decide (dp < 0)).
    + unfold divide. rewrite decide_False by by apply Qcopp_nonzero.
      f_equal. field. split; [done | by apply Qcopp_nonzero].
    + unfold divide. by rewrite decide_False.
  - intros Hdp. rewrite Hdp.
    rewrite (bool_decide_eq_false_2 (0 < 0))
      by (intros H; by apply Qclt_not_eq in H).
    unfold divide, ltb. by rewrite decide_True.
  - destruct (bool_decide (dp < 0)).
    + destruct (divide (- da) (- dp)) as [q | | |]; try reflexivity.
      destruct (bool_decide (_ < q)); [| reflexivity].
      by rewrite std_max_is_max, Hp.
    + destruct (divide da dp) as [q | | |]; try reflexivity.
      destruct (bool_decide (_ < q)); [| reflexivity].
      by rewrite std_max_is_max, Hp.
Qed.

Lemma newStep_spec_witness :
  StepController.newStep (StepController.mk 1 2 DemoRun.stepControl)
                         (Demo.q 10) (Demo.q 4) (Demo.q 10) =
  (true,
   StepController.mk
     (1 * StepController.minLambdaMultiplier DemoRun.stepControl)
     (StepController.initialFailMultiplier DemoRun.stepControl)
     DemoRun.stepControl).
Proof.
  pose proof (newStep_spec (StepController.mk 1 2 DemoRun.stepControl)
                           (Demo.q 10) (Demo.q 4) (Demo.q 10)) as H.
  cbv zeta in H. destruct H as (_ & Hzero & Hstep).
  rewrite Hstep, Hzero by (apply Qc_is_canon; reflexivity).
  rewrite bool_decide_eq_true_2 by reflexivity.
  reflexivity.
Defined.

(** ** The acceptance test of [optimize] *)

(** C1. In every iteration of [EnergyFunction::optimize] the trial step is
    accepted if and only if the new total energy is strictly lower than the
    current total energy, and after a rejected iteration the parameters equal
    the snapshot taken before the update.  The iteration is one on an energy
    function with residuals, entered with the values of all of them. *)
Theorem optimize_accepts_iff_lower env C ef (st : LoopState C) :
  residuals ef ≠ [] →
  length (valsAndCache (ls_curValues st)) = length (residuals ef) →
  accept_rule env C ef st.
Proof.
  intros Hres Hlen.
  destruct (iteration_cases env C ef st Hres Hlen)
    as (cur & new & delta & st' & Hit & Hcur & Hnew & _ & Hcase).
  exists (mkStepLog cur new), st', delta. simpl.
  repeat split; try done.
  - intros Hacc. destruct Hcase as [(? & _) | (_ & Hrej & _)]; [done |].
    congruence.
  - intros Hlt. destruct Hcase as [(_ & ? & _) | (Hle & _)]; [done |].
    by apply Qcle_not_lt in Hle.
  - intros Hacc. destruct Hcase as [(_ & _ & ? & _) | (_ & Hrej & _)]; [done |].
    congruence.
  - intros Hrej. destruct Hcase as [(_ & Hacc & _) | (_ & _ & ? & _)]; [| done].
    congruence.
Qed.

Lemma optimize_accepts_iff_lower_witness :
  accept_rule Demo.env (Demo.collaborators (qc 1 10)) (DemoRun.ef TRIVIAL)
              (DemoRun.st0 (qc 1 10)).
Proof.
  apply optimize_accepts_iff_lower.
  - intros H. apply (f_equal length) in H. vm_compute in H. discriminate.
  - vm_compute. reflexivity.
Defined.

(** ** Lambda in [optimize] *)

(** C5, as the code has it.  On every rejected iteration of
    [EnergyFunction::optimize] lambda is multiplied by the constant setting
    [failMultiplier], and on every accepted one by the setting
    [successMultiplier]; [optimize] keeps no fail multiplier of its own. *)
Theorem optimize_lambda_constant_factors env C ef (st : LoopState C) :
  residuals ef ≠ [] →
  length (valsAndCache (ls_curValues st)) = length (residuals ef) →
  lambda_rule env C ef st.
Proof.
  intros Hres Hlen.
  destruct (iteration_cases env C ef st Hres Hlen)
    as (cur & new & delta & st' & Hit & _ & _ & _ & Hcase).
  exists (mkStepLog cur new), st'. split; [done |].
  destruct Hcase as [(_ & Hacc & _ & _ & Hl) | (_ & Hrej & _ & _ & Hl)];
    split; intros; congruence.
Qed.

Lemma optimize_lambda_constant_factors_witness :
  lambda_rule Demo.env (Demo.collaborators 0) (DemoRun.ef TRIVIAL)
              (DemoRun.st0 0).
Proof.
  apply optimize_lambda_constant_factors.
  - intros H. apply (f_equal length) in H. vm_compute in H. discriminate.
  - vm_compute. reflexivity.
Defined.

(** C5 fails as stated.  With [failMultiplier = 2],
    [failMultiplierMultiplier = 3] and lambda 1 at the start, two rejected
    iterations in a row leave lambda at [1 * 2 * 2 = 4] in [optimize]; the
    back-off of the fail multiplier, which is what [StepController] does after
    two failed steps, gives [1 * 2 * (2 * 3) = 12]. *)
Lemma optimize_backoff_counterexample :
  DemoRun.acceptedTurns 0 2 (DemoRun.st0 0) = [false; false] ∧
  DemoRun.lambdaAfter 0 0 = Some (1 # 1)%Q ∧
  DemoRun.lambdaAfter 0 1 = Some (2 # 1)%Q ∧
  DemoRun.lambdaAfter 0 2 = Some (4 # 1)%Q ∧
  this (StepController.lambda
          (DemoRun.controllerAfterFails 2
             (StepController.make
                (StepController.mkStepControl 1 2 (Demo.q 3) (qc 1 10) (qc 1 4)))))
  = (12 # 1)%Q.
Proof. repeat split; vm_compute; reflexivity. Qed.

(** ** The empty residual set *)

Lemma iteration_without_values env C ef (st : LoopState C) :
  valsAndCache (ls_curValues st) = [] → iteration env C ef st = None.
Proof. intros H. unfold iteration. by rewrite (totalEnergy_empty _ H). Qed.

(** C10. [totalEnergy] needs at least one residual: on an energy function
    without residuals it fails its [CHECK] instead of returning zero, and so
    does [optimize] as soon as it runs one iteration. *)
Theorem totalEnergy_needs_a_residual env ef :
  residuals ef = [] →
  (∀ p h l, totalEnergy (createValues env ef p h l) = None) ∧
  (∀ C keyFrames maxIterations,
     (0 < maxIterations)%nat →
     optimize env C ef keyFrames maxIterations = None).
Proof.
  intros Hres. split.
  - intros p h l. apply totalEnergy_empty.
    unfold createValues, Values_new. simpl. by rewrite Hres.
  - intros C keyFrames [| n] Hpos; [lia |].
    unfold optimize, optimize_init, createDerivatives, Derivatives_new.
    rewrite Hres. cbn [length seq zip zip_with mapM mbind option_bind mret option_ret].
    cbn [optimize_loop]. rewrite iteration_without_values; [done |].
    unfold createValues, Values_new. simpl. by rewrite Hres.
Qed.

Lemma totalEnergy_needs_a_residual_witness :
  (∀ p h l,
     totalEnergy (createValues Demo.env DemoRun.efEmpty p h l) = None) ∧
  (∀ C keyFrames maxIterations,
     (0 < maxIterations)%nat →
     optimize Demo.env C DemoRun.efEmpty keyFrames maxIterations = None).
Proof. apply totalEnergy_needs_a_residual. vm_compute. reflexivity. Defined.


(** ** The total energy *)

Lemma foldl_add_sum {A} (f : A → Qc) (l : list A) (e : Qc) :
  foldl (λ e x, e + f x) e l = e + sum_list (f <$> l).
Proof.
  revert e. induction l as [| x l IH]; intros e;
    cbn [foldl fmap list_fmap sum_list foldr].
  - ring.
  - rewrite IH. unfold sum_list. ring.
Qed.

Lemma fmap_at_seq {B} (g : Qc → B) (l : list Qc) :
  (λ i, g (at_ l i)) <$> seq 0 (length l) = g <$> l.
Proof.
  apply list_eq. intros i. rewrite !list_lookup_fmap.
  destruct (decide (i < length l)%nat) as [Hlt | Hge].
  - rewrite lookup_seq_lt by done. simpl.
    destruct (lookup_lt_is_Some_2 l i Hlt) as [x Hx].
    unfold at_. by rewrite Hx.
  - rewrite lookup_seq_ge by lia. by rewrite lookup_ge_None_2 by lia.
Qed.

Lemma addResidualEnergy_sum lossFunction (energy : Qc) (vc : list Qc * Vec2) :
  addResidualEnergy lossFunction (length (fst vc)) energy vc =
  energy + residualEnergy lossFunction (fst vc).
Proof.
  unfold addResidualEnergy, residualEnergy.
  rewrite (foldl_add_sum (λ i, rho0 (lossFunction (at_ (fst vc) i * at_ (fst vc) i)))).
  f_equal. f_equal.
  apply (fmap_at_seq (λ r, rho0 (lossFunction (r * r)))).
Qed.

Lemma foldl_addResidualEnergy lossFunction n (l : list (list Qc * Vec2)) e :
  Forall (λ vc, length (fst vc) = n) l →
  foldl (addResidualEnergy lossFunction n) e l =
  e + sum_list ((λ vc, residualEnergy lossFunction (fst vc)) <$> l).
Proof.
  intros Hall. revert e. induction Hall as [| vc l Hlen _ IH]; intros e;
    cbn [foldl fmap list_fmap sum_list foldr].
  - ring.
  - rewrite IH. subst n. rewrite addResidualEnergy_sum.
    unfold sum_list. ring.
Qed.

(** C2, as the code has it.  [totalEnergy] returns the sum over all residuals
    and all pattern indices of the robust loss at the squared pattern value,
    [rho(r_i^2)]; no weight enters.  It does so when there is a residual and
    all residuals have as many values as the first one, as the values made
    from a pattern do. *)
Theorem totalEnergy_is_unweighted_sum (v : Values) vc0 rest :
  valsAndCache v = vc0 :: rest →
  Forall (λ vc, length (fst vc) = length (fst vc0)) rest →
  totalEnergy v =
  Some (sum_list ((λ vc, residualEnergy (v_lossFunction v) (fst vc))
                    <$> valsAndCache v)).
Proof.
  intros Hv Hall. unfold totalEnergy. rewrite Hv. f_equal.
  rewrite foldl_addResidualEnergy by (by constructor). ring.
Qed.

Lemma totalEnergy_is_unweighted_sum_witness :
  totalEnergy DemoRun.values0 =
  Some (sum_list ((λ vc, residualEnergy (v_lossFunction DemoRun.values0) (fst vc))
                    <$> valsAndCache DemoRun.values0)).
Proof.
  apply (totalEnergy_is_unweighted_sum DemoRun.values0
           (fst (getValues Demo.env Demo.residualSettings DemoRun.res0
                           (Demo.sideways (- 1)) (mkAffLight 0 0) 0),
            (Demo.q 220, Demo.q 240)) []).
  - vm_compute. reflexivity.
  - constructor.
Defined.

(** C2 fails as stated.  In the scene the one residual has the value -199
    and the gradient weight 2/3; under the trivial loss [totalEnergy] returns
    [199^2 = 39601], and the weighted sum is [2/3 * 39601]. *)
Lemma totalEnergy_weights_counterexample :
  this <$> totalEnergy DemoRun.values0 = Some (39601 # 1)%Q ∧
  this <$> weightedEnergy Demo.residualSettings
             (residuals (DemoRun.ef TRIVIAL)) DemoRun.values0
  = Some (79202 # 3)%Q.
Proof. split; vm_compute; reflexivity. Qed.

(** ** The weights *)

Lemma getWeight_floored lossFunction settings res values i :
  (∀ s, 0 ≤ rho1 (lossFunction s)) →
  getWeight lossFunction settings res values i =
  Some (flooredWeight lossFunction settings res values i).
Proof.
  intros Hpos. unfold getWeight, flooredWeight, curvature, ltb, geb.
  destruct (bool_decide _); [| done].
  by rewrite (bool_decide_eq_true_2 _ (Hpos _)).
Qed.

(** C6, as the code has it.  For a loss whose first derivative is never
    negative, [getWeights] returns at each pattern index [i] the weight
    [gradWeights[i] * (rho_1 + 2 rho_2 v_i^2)], except that the floor
    [gradWeights[i] * eps * rho_1] is taken when [rho_1 + 2 rho_2 v_i^2] is
    negative, and only then. *)
Theorem getWeights_floors_negative_only lossFunction settings res values :
  (∀ s, 0 ≤ rho1 (lossFunction s)) →
  getWeights lossFunction settings res values =
  Some (flooredWeight lossFunction settings res values
          <$> seq 0 (length (pattern settings))).
Proof.
  intros Hpos. unfold getWeights. apply mapM_Some_2.
  apply Forall2_fmap_r, Forall_Forall2_diag, Forall_forall.
  intros i _. by apply getWeight_floored.
Qed.

Lemma getWeights_floors_negative_only_witness :
  getWeights TrivialLoss Demo.residualSettings DemoRun.res0 [Demo.q 5] =
  Some (flooredWeight TrivialLoss Demo.residualSettings DemoRun.res0 [Demo.q 5]
          <$> seq 0 (length (pattern Demo.residualSettings))).
Proof.
  apply getWeights_floors_negative_only.
  intros s. unfold TrivialLoss. simpl. discriminate.
Defined.

(** C6 fails as stated.  Under the Huber loss of threshold 1 the value 2
    gives [rho_1 = 1/2], [rho_2 = -1/16] and [rho_1 + 2 rho_2 v^2 = 0]: the
    code returns the weight [2/3 * 0 = 0], and the maximum with the floor
    [eps * rho_1 = 1/20] gives [2/3 * 1/20 = 1/30]. *)
Lemma getWeights_max_counterexample :
  fmap (M := list) this <$>
    getWeights (HuberLoss Demo.sqrt_exact 1) Demo.residualSettings DemoRun.res0
               [Demo.q 2]
  = Some [0 # 1]%Q ∧
  this (maxWeight (HuberLoss Demo.sqrt_exact 1) Demo.residualSettings
                  DemoRun.res0 [Demo.q 2] 0)
  = (1 # 30)%Q.
Proof. split; vm_compute; reflexivity. Qed.


(** ** The depth that is not finite *)

(** C8, as the code has it.  When [exp(logDepth)] is not finite,
    [getValues] reprojects the host direction with the rotation part of the
    host-to-target transform alone (the translation has no effect), and
    [getJacobian] sets [isInfDepth] and computes the Jacobian it computes for
    the finite depth [settings.depth.max], with the whole transform; the mark
    [isInfDepth] is set exactly when the depth is not finite. *)
Theorem nonfinite_depth_handling env settings res (h : SE3) dH lw lh l :
  dfinite (expT env l) = false →
  (∀ t, getValues env settings res (mkSE3 (so3 h) t) lh l =
        getValues env settings res h lh l) ∧
  snd (getValues env settings res h lh l) =
    cam_map env (mTargetCamInd res) (mat33_mulv (so3 h) (hostDir res)) ∧
  getJacobian env settings res h dH lw lh l =
    markInfDepth
      (getJacobian (withExp env (λ _, mkDepth (depth_max settings) true))
                   settings res h dH lw lh l) ∧
  (∀ l', isInfDepth (getJacobian env settings res h dH lw lh l') =
         negb (dfinite (expT env l'))).
Proof.
  intros Hinf. repeat split.
  - intros t. unfold getValues, remapDepthed. by rewrite Hinf.
  - unfold getValues, remapDepthed. by rewrite Hinf.
  - unfold getJacobian, markInfDepth, withExp. rewrite Hinf.
    cbn [negb expT dfinite dval cam_diffMap interpolator aff_ea].
    by destruct (cam_diffMap env _ _).
  - intros l'. unfold getJacobian.
    destruct (dfinite (expT env l')); cbn [negb];
      by destruct (cam_diffMap env _ _).
Qed.

Lemma nonfinite_depth_handling_witness :
  (∀ t, getValues Demo.env Demo.residualSettings DemoRun.res0
                  (mkSE3 (so3 (Demo.sideways (- 1))) t) (mkAffLight 0 0)
                  (Demo.q 710) =
        getValues Demo.env Demo.residualSettings DemoRun.res0
                  (Demo.sideways (- 1)) (mkAffLight 0 0) (Demo.q 710)) ∧
  snd (getValues Demo.env Demo.residualSettings DemoRun.res0
                 (Demo.sideways (- 1)) (mkAffLight 0 0) (Demo.q 710)) =
    cam_map Demo.env (mTargetCamInd DemoRun.res0)
            (mat33_mulv (so3 (Demo.sideways (- 1))) (hostDir DemoRun.res0)) ∧
  getJacobian Demo.env Demo.residualSettings DemoRun.res0
              (Demo.sideways (- 1)) DemoRun.dH0 (mkAffLight 0 0)
              (mkAffLight 0 0) (Demo.q 710) =
    markInfDepth
      (getJacobian
         (withExp Demo.env
                  (λ _, mkDepth (depth_max Demo.residualSettings) true))
         Demo.residualSettings DemoRun.res0 (Demo.sideways (- 1)) DemoRun.dH0
         (mkAffLight 0 0) (mkAffLight 0 0) (Demo.q 710)) ∧
  (∀ l', isInfDepth
           (getJacobian Demo.env Demo.residualSettings DemoRun.res0
                        (Demo.sideways (- 1)) DemoRun.dH0 (mkAffLight 0 0)
                        (mkAffLight 0 0) l') =
         negb (dfinite (expT Demo.env l'))).
Proof. apply nonfinite_depth_handling. vm_compute. reflexivity. Defined.

(** C8 fails as stated.  At the log-depth 710, where [exp] overflows, the
    Jacobian is not the one of a pure rotation: two host-to-target transforms
    with the same rotation and the translations (-1, 0, 0) and (-2, 0, 0)
    give the derivatives (1, 0) and (2, 0) of the projection by the
    log-depth, where a point at infinity has none; the depth used is
    [settings.depth.max = 100]. *)
Lemma getJacobian_rotation_only_counterexample :
  dfinite (expT Demo.env (Demo.q 710)) = false ∧
  so3 (Demo.sideways (- 1)) = so3 (Demo.sideways (- 2)) ∧
  DemoRun.fractions (dp_dlogd (DemoRun.jacobianAt (Demo.sideways (- 1))))
  = (1 # 1, 0 # 1)%Q ∧
  DemoRun.fractions (dp_dlogd (DemoRun.jacobianAt (Demo.sideways (- 2))))
  = (2 # 1, 0 # 1)%Q.
Proof. repeat split; vm_compute; reflexivity. Qed.


(** ** Rigid motions *)

Ltac split_tuples :=
  repeat match goal with
         | x : Mat33 |- _ => destruct x as [[? ?] ?]
         | x : Vec3 |- _ => destruct x as [[? ?] ?]
         end.

Ltac by_components :=
  split_tuples;
  cbv [mat33_mul mat33_mulv mat33_transpose mat33_col0 mat33_col1 mat33_col2
       vec3_mulm vec3_dot vec3_add vec3_opp vec3_sub vec3_scale mat33_id
       vec3_zero];
  repeat match goal with |- (_, _) = (_, _) => f_equal end; ring.

Lemma mat33_mul_assoc (a b c : Mat33) :
  mat33_mul (mat33_mul a b) c = mat33_mul a (mat33_mul b c).
Proof. by_components. Qed.

Lemma mat33_transpose_mul (a b : Mat33) :
  mat33_transpose (mat33_mul a b) =
  mat33_mul (mat33_transpose b) (mat33_transpose a).
Proof. by_components. Qed.

Lemma mat33_mul_id_l (a : Mat33) : mat33_mul mat33_id a = a.
Proof. by_components. Qed.

Lemma mat33_mulv_mul (a b : Mat33) (v : Vec3) :
  mat33_mulv (mat33_mul a b) v = mat33_mulv a (mat33_mulv b v).
Proof. by_components. Qed.

Lemma mat33_mulv_add (a : Mat33) (u v : Vec3) :
  mat33_mulv a (vec3_add u v) = vec3_add (mat33_mulv a u) (mat33_mulv a v).
Proof. by_components. Qed.

Lemma vec3_add_cancel (u w c : Vec3) :
  vec3_add (vec3_add u c) (vec3_opp (vec3_add w c)) =
  vec3_add u (vec3_opp w).
Proof. by_components. Qed.

(** Cancelling a rotation: [(t a)^T (t b) = a^T b]. *)
Lemma rotation_cancels (t a b : Mat33) :
  is_rotation t →
  mat33_mul (mat33_transpose (mat33_mul t a)) (mat33_mul t b) =
  mat33_mul (mat33_transpose a) b.
Proof.
  unfold is_rotation. intros Ht.
  rewrite mat33_transpose_mul, mat33_mul_assoc.
  rewrite <- (mat33_mul_assoc (mat33_transpose t) t b), Ht.
  by rewrite mat33_mul_id_l.
Qed.

Lemma rotation_cancels_v (t a : Mat33) (v : Vec3) :
  is_rotation t →
  mat33_mulv (mat33_transpose (mat33_mul t a)) (mat33_mulv t v) =
  mat33_mulv (mat33_transpose a) v.
Proof.
  unfold is_rotation. intros Ht.
  rewrite <- mat33_mulv_mul, mat33_transpose_mul, mat33_mul_assoc, Ht.
  f_equal. by_components.
Qed.

(** The relative motion of two frames does not see a common motion applied
    to both from the left. *)
Lemma se3_relative_gauge (t a b : SE3) :
  is_rotation (so3 t) →
  se3_mul (se3_inverse (se3_mul t a)) (se3_mul t b) =
  se3_mul (se3_inverse a) b.
Proof.
  intros Ht. unfold se3_mul, se3_inverse. cbn [so3 translation]. f_equal.
  - by apply rotation_cancels.
  - rewrite !mat33_mulv_add, !rotation_cancels_v by done.
    apply vec3_add_cancel.
Qed.

Lemma getBodyToWorld_gauge t p i :
  (i < numKeyFrames p)%nat →
  getBodyToWorld (gaugeParameters t p) i = se3_mul t (getBodyToWorld p i).
Proof.
  unfold numKeyFrames, getBodyToWorld, gaugeParameters. cbn [state st_bodyToWorld].
  intros Hi. rewrite list_lookup_fmap.
  destruct (lookup_lt_is_Some_2 _ _ Hi) as [x ->]. done.
Qed.

Lemma hostToTarget_gauge cam t p :
  is_rotation (so3 t) →
  PrecomputedHostToTarget_new cam (gaugeParameters t p) =
  PrecomputedHostToTarget_new cam p.
Proof.
  intros Ht. unfold PrecomputedHostToTarget_new.
  assert (Hn : numKeyFrames (gaugeParameters t p) = numKeyFrames p).
  { unfold numKeyFrames, gaugeParameters. cbn [state st_bodyToWorld].
    by rewrite length_fmap. }
  rewrite Hn.
  apply list_fmap_ext. intros ? hostInd [-> Hh]%lookup_seq.
  apply list_fmap_ext. intros _ hostCamInd _.
  apply list_fmap_ext. intros ? targetInd [-> Ht']%lookup_seq.
  apply list_fmap_ext. intros _ targetCamInd _.
  destruct (decide _); [done |].
  rewrite !getBodyToWorld_gauge by done.
  by rewrite se3_relative_gauge.
Qed.

(** C7. For every rigid motion [t], multiplying every key frame's
    body-to-world pose by [t] from the left leaves every host-to-target
    transform of [PrecomputedHostToTarget] unchanged, and with them the
    values [getValues] returns for every residual. *)
Theorem gauge_invariance env settings cam (t : SE3) p residuals lossFunction :
  is_rotation (so3 t) →
  (∀ hostInd hostCamInd targetInd targetCamInd,
     hostToTarget_get (PrecomputedHostToTarget_new cam (gaugeParameters t p))
                      hostInd hostCamInd targetInd targetCamInd =
     hostToTarget_get (PrecomputedHostToTarget_new cam p)
                      hostInd hostCamInd targetInd targetCamInd) ∧
  Values_new env settings residuals (gaugeParameters t p) lossFunction
             (PrecomputedHostToTarget_new cam (gaugeParameters t p))
             (mkPrecomputedLightHostToTarget (gaugeParameters t p)) =
  Values_new env settings residuals p lossFunction
             (PrecomputedHostToTarget_new cam p)
             (mkPrecomputedLightHostToTarget p).
Proof.
  intros Ht. rewrite (hostToTarget_gauge cam t p Ht). split; done.
Qed.

Lemma gauge_is_rotation : is_rotation (so3 Demo.gauge).
Proof.
  unfold is_rotation, Demo.gauge.
  cbv [so3 mat33_mul mat33_transpose mat33_col0 mat33_col1 mat33_col2
       vec3_mulm vec3_dot mat33_id].
  repeat match goal with |- (_, _) = (_, _) => f_equal end;
    apply Qc_is_canon; reflexivity.
Defined.

Lemma gauge_invariance_witness :
  (∀ hostInd hostCamInd targetInd targetCamInd,
     hostToTarget_get
       (PrecomputedHostToTarget_new
          Demo.rig (gaugeParameters Demo.gauge (parameters (DemoRun.ef TRIVIAL))))
       hostInd hostCamInd targetInd targetCamInd =
     hostToTarget_get
       (PrecomputedHostToTarget_new Demo.rig (parameters (DemoRun.ef TRIVIAL)))
       hostInd hostCamInd targetInd targetCamInd) ∧
  Values_new Demo.env Demo.residualSettings (residuals (DemoRun.ef TRIVIAL))
             (gaugeParameters Demo.gauge (parameters (DemoRun.ef TRIVIAL)))
             TrivialLoss
             (PrecomputedHostToTarget_new
                Demo.rig
                (gaugeParameters Demo.gauge (parameters (DemoRun.ef TRIVIAL))))
             (mkPrecomputedLightHostToTarget
                (gaugeParameters Demo.gauge (parameters (DemoRun.ef TRIVIAL)))) =
  Values_new Demo.env Demo.residualSettings (residuals (DemoRun.ef TRIVIAL))
             (parameters (DemoRun.ef TRIVIAL)) TrivialLoss
             (PrecomputedHostToTarget_new Demo.rig
                                          (parameters (DemoRun.ef TRIVIAL)))
             (mkPrecomputedLightHostToTarget (parameters (DemoRun.ef TRIVIAL))).
Proof.
  apply gauge_invariance. exact gauge_is_rotation.
Defined.


(** ** The residuals of the constructor *)

Lemma foldl_invariant {A B} (P : A → Prop) (f : A → B → A) (l : list B) a :
  P a → (∀ a x, x ∈ l → P a → P (f a x)) → P (foldl f a l).
Proof.
  revert a. induction l as [| x l IH]; intros a Ha Hstep; [done |].
  cbn [foldl]. apply IH.
  - apply Hstep; [left | done].
  - intros a' y Hy. apply Hstep. by right.
Qed.

Lemma reprojects_true env PH h ray targetCamInd :
  reprojects env PH h ray targetCamInd = true →
  cam_isMappable env targetCamInd (se3_act h ray) = true ∧
  cam_isOnImage env targetCamInd
                (cam_map env targetCamInd (se3_act h ray)) PH = true.
Proof.
  unfold reprojects.
  destruct (cam_isMappable env _ _); [| done].
  by destruct (cam_isOnImage env _ _ _).
Qed.

Lemma pointsOf_lookup keyFrames hostInd hostCamInd k op :
  (k, op) ∈ pointsOf keyFrames hostInd hostCamInd →
  lookupPoint keyFrames (hostInd, hostCamInd, k) = Some op.
Proof.
  unfold pointsOf, lookupPoint.
  intros (i & k' & op' & Heq & Hk & Hop)%elem_of_lookup_zip_with.
  inversion Heq; subst k' op'; clear Heq.
  apply lookup_seq in Hk as [-> _].
  destruct (keyFrames !! hostInd) as [kf |]; [| done].
  cbn [mbind option_bind] in *.
  destruct (frames kf !! hostCamInd) as [e |]; [| done].
  done.
Qed.

Section Constructor.

Variables (env : Env) (cam : CameraBundle) (keyFrames : list KeyFrame)
          (settings : EnergyFunctionSettings).

Let hostToTarget : PrecomputedHostToTarget :=
  PrecomputedHostToTarget_new cam (Parameters_new cam keyFrames).

Let ok (cs : CtorState) : Prop :=
  Forall (residual_ok env cam keyFrames settings) (cs_residuals cs).

Lemma visitTargetCam_ok hostInd hostCamInd k op targetInd acc targetCamInd :
  hostInd ≠ targetInd →
  lookupPoint keyFrames (hostInd, hostCamInd, k) = Some op →
  op_state op = ACTIVE →
  ok (snd acc) →
  ok (snd (visitTargetCam env settings hostToTarget hostInd hostCamInd
                          (hostInd, hostCamInd, k) op
                          (vec3_scale (op_depth env op) (op_dir op))
                          targetInd acc targetCamInd)).
Proof.
  intros Hne Hop Hactive Hacc. unfold visitTargetCam.
  destruct (reprojects env _ _ _ _) eqn:Hre; [| done].
  apply reprojects_true in Hre as [Hmap Himg].
  destruct acc as [hasResiduals cs]. cbn [negb snd cs_residuals] in *.
  apply Forall_app. split; [done |].
  apply Forall_singleton. split; [done |].
  exists op, k. by repeat split.
Qed.

Lemma visitTarget_ok hostInd hostCamInd k op acc targetInd :
  lookupPoint keyFrames (hostInd, hostCamInd, k) = Some op →
  op_state op = ACTIVE →
  ok (snd acc) →
  ok (snd (visitTarget env settings cam hostToTarget hostInd hostCamInd
                       (hostInd, hostCamInd, k) op
                       (vec3_scale (op_depth env op) (op_dir op))
                       acc targetInd)).
Proof.
  intros Hop Hactive Hacc. unfold visitTarget.
  destruct (decide (hostInd = targetInd)); [done |].
  apply (foldl_invariant (λ acc, ok (snd acc))); [done |].
  intros acc' targetCamInd _. by apply visitTargetCam_ok.
Qed.

Lemma visitPoint_ok hostInd hostCamInd cs kop :
  kop ∈ pointsOf keyFrames hostInd hostCamInd →
  ok cs →
  ok (visitPoint env settings cam hostToTarget (length keyFrames)
                 hostInd hostCamInd cs kop).
Proof.
  destruct kop as [k op]. intros Hin%pointsOf_lookup Hcs. unfold visitPoint.
  destruct (op_state op) eqn:Hstate; try done.
  apply (foldl_invariant (λ acc, ok (snd acc))); [done |].
  intros acc targetInd _. by apply visitTarget_ok.
Qed.

Lemma visitHost_ok cs hostInd :
  ok cs → ok (visitHost env settings cam keyFrames hostToTarget cs hostInd).
Proof.
  intros Hcs. unfold visitHost.
  apply (foldl_invariant ok); [done |].
  intros cs' hostCamInd _ Hcs'. unfold visitHostCam.
  apply (foldl_invariant ok); [done |].
  intros cs'' kop Hin. by apply visitPoint_ok.
Qed.

Lemma constructor_residuals_ok :
  ok (foldl (visitHost env settings cam keyFrames hostToTarget)
            (mkCtorState [] []) (seq 0 (length keyFrames))).
Proof.
  apply (foldl_invariant ok); [by constructor |].
  intros cs hostInd _. apply visitHost_ok.
Qed.

End Constructor.

Lemma optimize_keeps_residuals env C ef keyFrames maxIterations ef' keyFrames' :
  optimize env C ef keyFrames maxIterations = Some (ef', keyFrames') →
  residuals ef' = residuals ef.
Proof.
  unfold optimize. intros H.
  destruct (optimize_init env C ef) as [st0 |]; [| done].
  cbn [mbind option_bind] in H.
  destruct (optimize_loop env C ef maxIterations st0) as [[logs st] |]; [| done].
  cbn [mbind option_bind] in H. by inversion H.
Qed.

(** C3. Every residual made by the constructor of [EnergyFunction] has
    distinct host and target frame indices, refers to a point in state
    [ACTIVE], and the ray of its point at the current depth is mappable by
    the target camera and projects on the target image within the border
    [residualPattern.height]; a combination violating one of these has no
    residual; and [optimize] leaves the residuals as they are. *)
Theorem constructor_residuals env cam keyFrames settings :
  (2 ≤ length keyFrames)%nat →
  residuals_rule env cam keyFrames settings.
Proof.
  intros Hsize. unfold residuals_rule, EnergyFunction_new.
  destruct (decide (2 ≤ length keyFrames)%nat); [| done].
  eexists. split; [reflexivity |]. cbn [residuals]. split.
  - apply constructor_residuals_ok.
  - intros C maxIterations ef' keyFrames' H.
    by apply optimize_keeps_residuals in H.
Qed.

Lemma constructor_residuals_witness :
  residuals_rule Demo.env Demo.rig (Demo.scene 0 ACTIVE)
                 (Demo.energySettings HUBER).
Proof. apply constructor_residuals. vm_compute. lia. Defined.


(** ** The anchor *)

Lemma adjust_keeps_anchor env settings cam keyFrames sol :
  (2 ≤ length keyFrames)%nat →
  length (bundle cam) = 1%nat →
  anchor_kept env settings cam keyFrames sol.
Proof.
  intros Hsize Hcam. unfold anchor_kept, BundleAdjusterCeres.adjust.
  destruct (decide (2 ≤ length keyFrames)%nat); [| done].
  destruct (decide (length (bundle cam) = 1%nat)); [| done].
  destruct keyFrames as [| kf0 rest]; [cbn in Hsize; lia |].
  eexists _, kf0, _. split; [reflexivity |]. split; [done |].
  split; [rewrite list_lookup_imap; reflexivity |].
  unfold BundleAdjusterCeres.adjustKeyFrame.
  cbn [thisToWorld frames BundleAdjusterCeres.isConstant
       BundleAdjusterCeres.solved bool_decide decide_rel orb].
  rewrite !bool_decide_eq_true_2 by done.
  cbn [orb BundleAdjusterCeres.solved]. split.
  - by destruct (thisToWorld kf0).
  - apply list_eq. intros ci.
    rewrite !list_lookup_fmap, list_lookup_imap.
    destruct (frames kf0 !! ci) as [entry |]; [| done].
    cbn [fmap option_fmap option_map BundleAdjusterCeres.adjustEntry
         lightWorldToThis].
    cbn [BundleAdjusterCeres.isConstant].
    rewrite bool_decide_eq_true_2 by done. by rewrite orb_true_r.
Qed.

Section SetAffineZero.

Variable order : DeltaParameterVector.FrameParameterOrder.

Lemma affBlock_setZero_length frameInd camInd (frame : list Qc) :
  length (DeltaParameterVector.affBlock_setZero order frameInd camInd frame)
  = length frame.
Proof.
  unfold DeltaParameterVector.affBlock_setZero. by rewrite !length_insert.
Qed.

Lemma affBlock_setZero_other frameInd camInd (frame : list Qc) i :
  i ≠ DeltaParameterVector.lightWorldToFrame order frameInd camInd →
  i ≠ S (DeltaParameterVector.lightWorldToFrame order frameInd camInd) →
  DeltaParameterVector.affBlock_setZero order frameInd camInd frame !! i
  = frame !! i.
Proof.
  intros H0 H1. unfold DeltaParameterVector.affBlock_setZero.
  by rewrite !list_lookup_insert_ne.
Qed.

Lemma affBlock_setZero_keeps_zero frameInd camInd (frame : list Qc) i :
  frame !! i = Some 0 →
  DeltaParameterVector.affBlock_setZero order frameInd camInd frame !! i
  = Some 0.
Proof.
  intros Hz. unfold DeltaParameterVector.affBlock_setZero.
  assert (Hi : (i < length frame)%nat) by (by eapply lookup_lt_Some).
  rewrite !list_lookup_insert, !length_insert.
  repeat case_decide; done.
Qed.

Lemma affBlock_setZero_zeroes frameInd camInd (frame : list Qc) i :
  i = DeltaParameterVector.lightWorldToFrame order frameInd camInd ∨
  i = S (DeltaParameterVector.lightWorldToFrame order frameInd camInd) →
  (i < length frame)%nat →
  DeltaParameterVector.affBlock_setZero order frameInd camInd frame !! i
  = Some 0.
Proof.
  intros Hi Hlt. unfold DeltaParameterVector.affBlock_setZero.
  rewrite !list_lookup_insert, !length_insert.
  repeat case_decide; try done; lia.
Qed.

(** A fold establishes what one of its steps establishes and the others
    keep, under an invariant all steps keep. *)
Lemma foldl_establishes {A B} (R Q : A → Prop) (f : A → B → A) (l : list B)
    (x : B) (a : A) :
  x ∈ l →
  (∀ a y, R a → R (f a y)) →
  (∀ a y, Q a → Q (f a y)) →
  (∀ a, R a → Q (f a x)) →
  R a → Q (foldl f a l).
Proof.
  intros Hin HR HQ Hx. revert a.
  induction l as [| y l IH]; intros a Ha; [by apply elem_of_nil in Hin |].
  cbn [foldl]. apply elem_of_cons in Hin as [-> | Hin].
  - apply (foldl_invariant Q); [by apply Hx |]. intros a' z _. apply HQ.
  - apply IH; [done |]. by apply HR.
Qed.

Lemma setAffineZero_spec (d : DeltaParameterVector.t) :
  DeltaParameterVector.frameParameterOrder d = order →
  setAffineZero_from1 d.
Proof.
  intros Horder. unfold setAffineZero_from1, DeltaParameterVector.setAffineZero.
  rewrite Horder. cbn [DeltaParameterVector.point DeltaParameterVector.frame].
  set (cams := seq 0 (DeltaParameterVector.fpo_numCameras order)).
  set (frames := seq 1 (DeltaParameterVector.fpo_numKeyFrames order - 1)).
  set (inner := λ (frame : list Qc) (frameInd : nat),
         foldl (λ frame camInd,
                  DeltaParameterVector.affBlock_setZero order frameInd camInd frame)
               frame cams).
  set (L := length (DeltaParameterVector.frame d)).
  assert (Hinner_len : ∀ a y, length a = L → length (inner a y) = L).
  { intros a y Ha. apply (foldl_invariant (λ a, length a = L)); [done |].
    intros a' c _ Ha'. by rewrite affBlock_setZero_length. }
  split; [done |]. split; [| split].
  - apply (foldl_invariant (λ a, length a = L)); [done |].
    intros a y _. apply Hinner_len.
  - intros i Hout.
    apply (foldl_invariant
             (λ a, a !! i = DeltaParameterVector.frame d !! i)); [done |].
    intros a frameInd Hf Ha. subst inner. cbn beta.
    apply (foldl_invariant
             (λ a, a !! i = DeltaParameterVector.frame d !! i)); [done |].
    intros a' camInd Hc Ha'.
    apply elem_of_seq in Hf. apply elem_of_seq in Hc.
    rewrite affBlock_setZero_other; [done | |];
      intros ->; apply Hout; exists frameInd, camInd;
      (split; [lia |]); (split; [lia |]); auto.
  - intros i (frameInd & camInd & Hf & Hc & Hi) Hlt.
    apply (foldl_establishes (λ a, length a = L) (λ a, a !! i = Some 0)
                             inner frames frameInd).
    + apply elem_of_seq. lia.
    + apply Hinner_len.
    + intros a y Ha. subst inner. cbn beta.
      apply (foldl_invariant (λ a, a !! i = Some 0)); [done |].
      intros a' c _. apply affBlock_setZero_keeps_zero.
    + intros a Ha. subst inner. cbn beta.
      apply (foldl_establishes (λ a, length a = L) (λ a, a !! i = Some 0)
                               _ cams camInd).
      * apply elem_of_seq. lia.
      * intros a' c Ha'. by rewrite affBlock_setZero_length.
      * intros a' c. apply affBlock_setZero_keeps_zero.
      * intros a' Ha'. apply affBlock_setZero_zeroes; [done | lia].
      * done.
    + done.
Qed.

End SetAffineZero.

(** *** The anchor across [EnergyFunction::optimize] *)

Lemma maskAnchor_at numCameras frame i :
  (i < frameBlock numCameras)%nat → at_ (maskAnchor numCameras frame) i = 0.
Proof.
  intros Hi. unfold at_, maskAnchor. rewrite list_lookup_imap.
  destruct (frame !! i); [| done].
  cbn [fmap option_fmap option_map default from_option id].
  by rewrite decide_True.
Qed.

Lemma specUpdate_keeps_anchor R p delta pose0 lights0 numCameras :
  zero_increment R →
  (length lights0 ≤ numCameras)%nat →
  anchor_is pose0 lights0 numCameras p →
  anchor_is pose0 lights0 numCameras (specUpdate R p delta).
Proof.
  intros [Hpose Haffine] Hcams (Hp & Hl & Hn). unfold anchor_is, specUpdate.
  cbn [state st_bodyToWorld st_lightWorldToFrame p_camBundleSize].
  rewrite !list_lookup_imap, Hp, Hl, Hn.
  cbn [fmap option_fmap option_map]. repeat split; f_equal.
  - cbn [seq fmap list_fmap Nat.mul Nat.add].
    rewrite !maskAnchor_at by (unfold frameBlock; lia). apply Hpose.
  - apply list_eq. intros camInd. rewrite list_lookup_imap.
    destruct (lights0 !! camInd) as [light |] eqn:Hlight; [| done].
    apply lookup_lt_Some in Hlight.
    cbn [fmap option_fmap option_map Nat.mul Nat.add]. f_equal.
    rewrite !maskAnchor_at by (unfold frameBlock; lia). apply Haffine.
Qed.

Lemma recoverState_keeps_anchor R p delta pose0 lights0 numCameras :
  anchor_is pose0 lights0 numCameras p →
  anchor_is pose0 lights0 numCameras
            (recoverState (specUpdate R p delta) (saveState p)).
Proof. intros (Hp & Hl & Hn). by repeat split. Qed.

(** The parameters after one turn of the loop: those of the trial step, or
    the trial step with the saved state put back. *)
Lemma iteration_parameters env C ef (st : LoopState C) :
  residuals ef ≠ [] →
  length (valsAndCache (ls_curValues st)) = length (residuals ef) →
  ∃ log delta st',
    iteration env C ef st = Some (log, st') ∧
    length (valsAndCache (ls_curValues st')) = length (residuals ef) ∧
    (ls_parameters st' = update C (ls_parameters st) delta ∨
     ls_parameters st' =
       recoverState (update C (ls_parameters st) delta)
                    (saveState (ls_parameters st))).
Proof.
  intros Hres Hlen.
  assert (Hcur : is_Some (totalEnergy (ls_curValues st))).
  { apply totalEnergy_is_Some. intros Hnil. rewrite Hnil in Hlen.
    by destruct (residuals ef). }
  destruct Hcur as [curEnergy Hcur].
  unfold iteration. rewrite Hcur. cbn [mbind option_bind].
  destruct (createDerivatives_is_Some env C ef (ls_parameters st)
              (ls_curValues st) (ls_hostToTarget st)
              (mkPrecomputedMotionDerivatives (cam ef) (ls_parameters st))
              (ls_lightHostToTarget st) Hlen) as [d Hd].
  set (refreshed := if ls_parametersUpdated st then _ else _).
  assert (Href : ∃ m cd hs g, refreshed = Some (m, cd, hs, g)).
  { subst refreshed. destruct (ls_parametersUpdated st).
    - rewrite Hd. cbn [mbind option_bind]. by do 4 eexists.
    - by do 4 eexists. }
  destruct Href as (m & cd & hs & g & ->). cbn [mbind option_bind].
  set (delta := solve C (levenbergMarquardtDamp C hs (ls_lambda st)) g).
  fold (trialValues env C ef st delta).
  assert (Hnew : is_Some (totalEnergy (trialValues env C ef st delta))).
  { apply totalEnergy_is_Some, createValues_nonempty, Hres. }
  destruct Hnew as [newEnergy Hnew]. rewrite Hnew. cbn [mbind option_bind].
  eexists _, delta, _. split; [reflexivity |].
  destruct (geb newEnergy curEnergy); cbn [ls_curValues ls_parameters].
  - split; [done |]. by right.
  - split; [apply createValues_length |]. by left.
Qed.

(** What every trial step and every restored state keep, the loop keeps. *)
Lemma optimize_loop_keeps env C ef (P : Parameters → Prop) maxIterations
    (st : LoopState C) :
  residuals ef ≠ [] →
  length (valsAndCache (ls_curValues st)) = length (residuals ef) →
  (∀ p delta, P p → P (update C p delta)) →
  (∀ p delta, P p → P (recoverState (update C p delta) (saveState p))) →
  P (ls_parameters st) →
  ∃ logs st',
    optimize_loop env C ef maxIterations st = Some (logs, st') ∧
    P (ls_parameters st').
Proof.
  intros Hres Hlen Hupdate Hrecover. revert st Hlen.
  induction maxIterations as [| n IH]; intros st Hlen HP.
  - by exists [], st.
  - destruct (iteration_parameters env C ef st Hres Hlen)
      as (log & delta & st1 & Hit & Hlen1 & Hp1).
    destruct (IH st1 Hlen1) as (logs & st2 & Hloop & HP2).
    { destruct Hp1 as [-> | ->]; [by apply Hupdate | by apply Hrecover]. }
    exists (log :: logs), st2. cbn [optimize_loop].
    rewrite Hit. cbn [mbind option_bind]. rewrite Hloop. by cbn.
Qed.

Lemma EnergyFunction_new_anchor env cam keyFrames settings ef kf0 :
  EnergyFunction_new env cam keyFrames settings = Some ef →
  keyFrames !! 0%nat = Some kf0 →
  anchor_is (thisToWorld kf0) (lightWorldToThis <$> frames kf0)
            (length (bundle cam)) (parameters ef).
Proof.
  unfold EnergyFunction_new. intros Hef Hkf0.
  destruct (decide (2 ≤ length keyFrames)%nat); [| done].
  injection Hef as <-. unfold anchor_is, setPoints, Parameters_new.
  cbn [parameters state st_bodyToWorld st_lightWorldToFrame p_camBundleSize].
  by rewrite !list_lookup_fmap, Hkf0.
Qed.

Lemma specApply_anchor p keyFrames kf0 :
  keyFrames !! 0%nat = Some kf0 →
  anchor_is (thisToWorld kf0) (lightWorldToThis <$> frames kf0)
            (p_camBundleSize p) p →
  same_anchor keyFrames (specApply p keyFrames).
Proof.
  intros Hkf0 (Hp & Hl & _). exists kf0. eexists.
  split; [done |]. split.
  { unfold specApply. rewrite list_lookup_imap, Hkf0. reflexivity. }
  cbn [thisToWorld frames]. split.
  - unfold getBodyToWorld. by rewrite Hp.
  - apply list_eq. intros camInd.
    rewrite !list_lookup_fmap, list_lookup_imap.
    destruct (frames kf0 !! camInd) as [entry |] eqn:Hentry; [| done].
    cbn [fmap option_fmap option_map lightWorldToThis]. f_equal.
    unfold getLightWorldToFrame. rewrite Hl.
    cbn [default from_option id].
    by rewrite list_lookup_fmap, Hentry.
Qed.

Lemma optimize_keeps_anchor env R C camBundle keyFrames settings ef
    maxIterations :
  Forall (λ kf, length (frames kf) = length (bundle camBundle)) keyFrames →
  EnergyFunction_new env camBundle keyFrames settings = Some ef →
  residuals ef ≠ [] →
  zero_increment R →
  anchor_kept_by_optimize env R C ef keyFrames maxIterations.
Proof.
  intros Hframes Hef Hres Hzero.
  assert (Hkf0 : ∃ kf0, keyFrames !! 0%nat = Some kf0).
  { unfold EnergyFunction_new in Hef.
    destruct (decide (2 ≤ length keyFrames)%nat) as [Hsize |]; [| done].
    destruct keyFrames; [cbn in Hsize; lia | by eexists]. }
  destruct Hkf0 as [kf0 Hkf0].
  pose proof (EnergyFunction_new_anchor _ _ _ _ _ _ Hef Hkf0) as Hanchor.
  assert (Hcams : (length (lightWorldToThis <$> frames kf0)
                   ≤ length (bundle camBundle))%nat).
  { rewrite length_fmap. rewrite Forall_forall in Hframes.
    rewrite (Hframes kf0); [done |]. by eapply list_elem_of_lookup_2. }
  unfold anchor_kept_by_optimize, optimize.
  set (C' := withParameters R C).
  destruct (createDerivatives_is_Some env C' ef (parameters ef)
              (createValues env ef (parameters ef)
                 (PrecomputedHostToTarget_new (cam ef) (parameters ef))
                 (mkPrecomputedLightHostToTarget (parameters ef)))
              (PrecomputedHostToTarget_new (cam ef) (parameters ef))
              (mkPrecomputedMotionDerivatives (cam ef) (parameters ef))
              (mkPrecomputedLightHostToTarget (parameters ef))) as [d Hd].
  { apply createValues_length. }
  unfold optimize_init. rewrite Hd. cbn [mbind option_bind].
  match goal with
  | |- context [optimize_loop env C' ef maxIterations ?st0] =>
      destruct (optimize_loop_keeps env C' ef
                  (anchor_is (thisToWorld kf0)
                             (lightWorldToThis <$> frames kf0)
                             (length (bundle camBundle)))
                  maxIterations st0 Hres)
        as (logs & st & Hloop & Hend)
  end.
  { apply createValues_length. }
  { intros p delta. by apply specUpdate_keeps_anchor. }
  { intros p delta. apply recoverState_keeps_anchor. }
  { exact Hanchor. }
  rewrite Hloop. cbn [mbind option_bind].
  eexists _, _. split; [reflexivity |]. cbn [parameters].
  destruct Hanchor as (Hp0 & Hl0 & Hn0).
  pose proof Hend as (Hp & Hl & Hn).
  split; [| split].
  - apply (specApply_anchor _ _ kf0); [done |]. by rewrite Hn.
  - unfold getBodyToWorld. by rewrite Hp, Hp0.
  - intros camInd. unfold getLightWorldToFrame. by rewrite Hl, Hl0.
Qed.

Lemma setAffineZero_keeps_anchor_block numKeyFrames numCameras
    (d : DeltaParameterVector.t) :
  DeltaParameterVector.frameParameterOrder d =
    specOrder numKeyFrames numCameras →
  anchor_block_untouched d.
Proof.
  intros Horder. unfold anchor_block_untouched. rewrite Horder.
  cbn [specOrder DeltaParameterVector.fpo_numCameras]. intros i Hi.
  destruct (setAffineZero_spec _ d Horder) as (_ & _ & Hout & _).
  rewrite Horder in Hout. apply Hout.
  intros (frameInd & camInd & Hf & _ & Hblock).
  cbn [specOrder DeltaParameterVector.lightWorldToFrame] in Hblock.
  unfold frameBlock in *. destruct Hblock; nia.
Qed.

Lemma additive_zero_increment : zero_increment DemoRun.additive.
Proof.
  split.
  - intros f [r [[x y] z]]. cbn [DemoRun.additive plusPose so3 translation].
    f_equal. change (at_ (replicate 7 0) 4) with (Q2Qc 0).
    change (at_ (replicate 7 0) 5) with (Q2Qc 0).
    change (at_ (replicate 7 0) 6) with (Q2Qc 0).
    unfold vec3_add.
    repeat match goal with |- (_, _) = (_, _) => f_equal end; ring.
  - intros [a b]. cbn [DemoRun.additive plusAffine aff_a aff_b].
    f_equal; ring.
Qed.

(** C9. Across a full optimization call key frame 0 keeps its pose and the
    affine brightness pair of every camera exactly, regardless of
    convergence.  Across [BundleAdjusterCeres::adjust], whatever the
    minimizer arrives at: the parameter blocks of key frame 0 are constant.
    Across [EnergyFunction::optimize], with any solver side and for any
    number of iterations, accepted or rejected: the update masks the delta
    entries of key frame 0 to zero, and a rejected step puts the saved state
    back.  And [DeltaParameterVector::setAffineZero] starts at frame index 1:
    it writes the affine blocks of the frames from index 1 on and no other
    entry, so it never writes an entry of the block of key frame 0.
    [Parameters::update], [Parameters::apply] and the layout of the delta
    are as the description gives them.  The statement is for at least two
    key frames with one entry per camera, a rig of one camera, an energy
    function with a residual, and an update under which an increment of zero
    changes nothing. *)
Theorem anchor_immovable env settings efSettings (R : Retraction)
    (C : Collaborators) cam keyFrames ef sol maxIterations
    numKeyFrames numCameras (d : DeltaParameterVector.t) :
  (2 ≤ length keyFrames)%nat →
  length (bundle cam) = 1%nat →
  Forall (λ kf, length (frames kf) = length (bundle cam)) keyFrames →
  EnergyFunction_new env cam keyFrames efSettings = Some ef →
  residuals ef ≠ [] →
  zero_increment R →
  DeltaParameterVector.frameParameterOrder d =
    specOrder numKeyFrames numCameras →
  anchor_kept env settings cam keyFrames sol ∧
  anchor_kept_by_optimize env R C ef keyFrames maxIterations ∧
  setAffineZero_from1 d ∧
  anchor_block_untouched d.
Proof.
  intros Hsize Hcam Hframes Hef Hres Hzero Horder.
  split; [| split; [| split]].
  - by apply adjust_keeps_anchor.
  - by eapply optimize_keeps_anchor.
  - by apply (setAffineZero_spec (DeltaParameterVector.frameParameterOrder d)).
  - by eapply setAffineZero_keeps_anchor_block.
Qed.

Lemma anchor_immovable_witness :
  anchor_kept Demo.env DemoRun.adjusterSettings Demo.rig (Demo.scene 0 ACTIVE)
              DemoRun.movedSolution ∧
  anchor_kept_by_optimize Demo.env DemoRun.additive
                          (DemoRun.pushing (qc (-1) 2))
                          (DemoRun.ef TRIVIAL) (Demo.scene 0 ACTIVE) 3 ∧
  setAffineZero_from1 DemoRun.delta1 ∧
  anchor_block_untouched DemoRun.delta1.
Proof.
  apply (anchor_immovable Demo.env DemoRun.adjusterSettings
           (Demo.energySettings TRIVIAL) DemoRun.additive
           (DemoRun.pushing (qc (-1) 2)) Demo.rig (Demo.scene 0 ACTIVE)
           (DemoRun.ef TRIVIAL) DemoRun.movedSolution 3 2 1 DemoRun.delta1).
  - vm_compute. lia.
  - reflexivity.
  - by repeat constructor.
  - reflexivity.
  - intros H. apply (f_equal length) in H. vm_compute in H. discriminate.
  - apply additive_zero_increment.
  - reflexivity.
Defined.


(** ** The values across the loop of [optimize] *)

(** The loop is entered with the values of all residuals, and every
    iteration hands them on: the condition under which the statements on an
    iteration are made holds at every iteration of [optimize]. *)
Lemma optimize_init_values env C ef (st0 : LoopState C) :
  optimize_init env C ef = Some st0 →
  length (valsAndCache (ls_curValues st0)) = length (residuals ef).
Proof.
  unfold optimize_init. intros H.
  destruct (createDerivatives env C ef _ _ _ _ _) as [d |]; [| done].
  cbn [mbind option_bind] in H. inversion H. cbn [ls_curValues].
  apply createValues_length.
Qed.

Lemma iteration_keeps_values env C ef (st st' : LoopState C) log :
  residuals ef ≠ [] →
  length (valsAndCache (ls_curValues st)) = length (residuals ef) →
  iteration env C ef st = Some (log, st') →
  length (valsAndCache (ls_curValues st')) = length (residuals ef).
Proof.
  intros Hres Hlen Hit.
  destruct (iteration_cases env C ef st Hres Hlen)
    as (cur & new & delta & st1 & Hit1 & _ & _ & Hlen1 & _).
  rewrite Hit in Hit1. by inversion Hit1.
Qed.

Lemma optimize_loop_runs env C ef maxIterations (st : LoopState C) :
  residuals ef ≠ [] →
  length (valsAndCache (ls_curValues st)) = length (residuals ef) →
  ∃ logs st',
    optimize_loop env C ef maxIterations st = Some (logs, st') ∧
    length logs = maxIterations ∧
    length (valsAndCache (ls_curValues st')) = length (residuals ef).
Proof.
  intros Hres. revert st.
  induction maxIterations as [| n IH]; intros st Hlen.
  - by exists [], st.
  - destruct (iteration_cases env C ef st Hres Hlen)
      as (cur & new & delta & st1 & Hit & _ & _ & Hlen1 & _).
    destruct (IH st1 Hlen1) as (logs & st2 & Hloop & Hlogs & Hlen2).
    exists (mkStepLog cur new :: logs), st2.
    cbn [optimize_loop]. rewrite Hit. cbn [mbind option_bind].
    rewrite Hloop. cbn [mbind option_bind length]. by rewrite Hlogs.
Qed.

(** * Further properties *)

(** Order and equations of [Qc], decided on the fractions. *)
Ltac qc2q :=
  repeat match goal with
         | H : @eq Qc _ _ |- _ => apply (f_equal this) in H
         | |- @eq Qc _ _ => apply Qc_is_canon
         end;
  unfold Qcle, Qclt, Qcdiv, Qcminus, Qcopp, Qcplus, Qcmult, Q2Qc in *;
  cbn [this] in *;
  repeat (rewrite ?Qred_correct in *).

Lemma ltb_true a b : ltb a b = true ↔ a < b.
Proof. unfold ltb. apply bool_decide_eq_true. Qed.
Lemma ltb_false a b : ltb a b = false ↔ b ≤ a.
Proof.
  unfold ltb. rewrite bool_decide_eq_false.
  split; [apply Qcnot_lt_le | apply Qcle_not_lt].
Qed.
Lemma gtb_true a b : gtb a b = true ↔ b < a.
Proof. unfold gtb. apply bool_decide_eq_true. Qed.
Lemma gtb_false a b : gtb a b = false ↔ a ≤ b.
Proof.
  unfold gtb. rewrite bool_decide_eq_false.
  split; [apply Qcnot_lt_le | apply Qcle_not_lt].
Qed.
Lemma geb_true a b : geb a b = true ↔ b ≤ a.
Proof. unfold geb. apply bool_decide_eq_true. Qed.
Lemma geb_false a b : geb a b = false ↔ a < b.
Proof.
  unfold geb. rewrite bool_decide_eq_false.
  split; [apply Qcnot_le_lt | apply Qclt_not_le].
Qed.

Lemma std_max_ge_l a b : a ≤ std_max a b.
Proof.
  unfold std_max. destruct (ltb a b) eqn:H.
  - apply ltb_true in H. by apply Qclt_le_weak.
  - apply Qcle_refl.
Qed.

Lemma std_max_pos a b : 0 < a → 0 < std_max a b.
Proof.
  intros Ha. eapply Qclt_le_trans; [exact Ha | apply std_max_ge_l].
Qed.

Lemma Qcmult_pos (a b : Qc) : 0 < a → 0 < b → 0 < a * b.
Proof. intros. qc2q. nra. Qed.

(** ** The step controller *)

Lemma Qcpower_S (a : Qc) (n : nat) : a ^ S n = a * a ^ n.
Proof. reflexivity. Qed.

Lemma Qcpower_plus' (a : Qc) (i j : nat) : a ^ (i + j) = a ^ i * a ^ j.
Proof.
  induction i as [| i IH].
  - cbn [Nat.add Qcpower]. ring.
  - cbn [Nat.add]. rewrite !Qcpower_S, IH. ring.
Qed.

Lemma Qcpower_mult' (a b : Qc) (n : nat) : (a * b) ^ n = a ^ n * b ^ n.
Proof.
  induction n as [| n IH].
  - cbn [Qcpower]. ring.
  - rewrite !Qcpower_S, IH. ring.
Qed.

(** X1. A failed step multiplies lambda by the fail multiplier and the fail
    multiplier by [failMultiplierMultiplier]; so after [n] calls of [newStep]
    in a row that all return [false], lambda has been multiplied by
    [failMultiplier^n * failMultiplierMultiplier^(n (n - 1) / 2)] and the
    fail multiplier by [failMultiplierMultiplier^n]. *)
Theorem newSteps_all_failed (c : StepController.t) steps :
  fst (newSteps c steps) = replicate (length steps) false →
  let c' := snd (newSteps c steps) in
  let n := length steps in
  let m := StepController.failMultiplierMultiplier (StepController.settings c) in
  StepController.mLambda c' =
    StepController.mLambda c * StepController.failMultiplier c ^ n
    * m ^ triangle n ∧
  StepController.failMultiplier c' = StepController.failMultiplier c * m ^ n ∧
  StepController.settings c' = StepController.settings c.
Proof.
  revert c. induction steps as [| [[o nw] p] steps IH]; intros c Hall.
  - cbn [newSteps snd length triangle Qcpower]. repeat split; ring.
  - cbn [newSteps] in *.
    destruct (StepController.newStep c o nw p) as [flag c1] eqn:Hstep.
    destruct (newSteps c1 steps) as [flags c2] eqn:Hrest.
    cbn [fst snd length replicate] in *.
    injection Hall as Hflag Hflags. subst flag.
    specialize (IH c1). rewrite Hrest in IH. cbn [fst snd] in IH.
    destruct (IH Hflags) as (Hl & Hf & Hs).
    unfold StepController.newStep in Hstep.
    destruct (ltb _ 0);
      (destruct (divide _ _) as [q | | |]; [destruct (gtb _ _) | | |]);
      try discriminate;
      injection Hstep as <-;
      cbn [StepController.mLambda StepController.failMultiplier
           StepController.settings] in *;
      rewrite Hl, Hf, Hs; cbn [triangle];
      rewrite Qcpower_plus', Qcpower_mult', !Qcpower_S;
      repeat split; ring.
Qed.

Lemma newSteps_all_failed_witness :
  StepController.mLambda
    (snd (newSteps Examples.controller [(1, 1, 0); (1, 1, 0); (1, 1, 0)])) =
    StepController.mLambda Examples.controller *
    StepController.failMultiplier Examples.controller ^ 3 *
    StepController.failMultiplierMultiplier
      (StepController.settings Examples.controller) ^ triangle 3 ∧
  StepController.failMultiplier
    (snd (newSteps Examples.controller [(1, 1, 0); (1, 1, 0); (1, 1, 0)])) =
    StepController.failMultiplier Examples.controller *
    StepController.failMultiplierMultiplier
      (StepController.settings Examples.controller) ^ 3 ∧
  StepController.settings
    (snd (newSteps Examples.controller [(1, 1, 0); (1, 1, 0); (1, 1, 0)])) =
    StepController.settings Examples.controller.
Proof.
  apply (newSteps_all_failed Examples.controller [(1, 1, 0); (1, 1, 0); (1, 1, 0)]).
  vm_compute. reflexivity.
Defined.

(** X2. [newStep] keeps lambda and the fail multiplier positive: if they are
    positive, and so are [minLambdaMultiplier], [initialFailMultiplier] and
    [failMultiplierMultiplier], then they are positive after any call,
    accepted or not, whatever the three energies are. *)
Theorem newStep_keeps_positive (c : StepController.t) oldEnergy newEnergy
    predictedEnergy :
  controller_positive c →
  controller_positive
    (snd (StepController.newStep c oldEnergy newEnergy predictedEnergy)).
Proof.
  intros (Hl & Hf & Hm & Hi & Hfm). unfold StepController.newStep.
  destruct (ltb _ 0);
    (destruct (divide _ _) as [q | | |]; [destruct (gtb _ _) | | |]);
    cbn [snd]; unfold controller_positive;
    cbn [StepController.mLambda StepController.failMultiplier
         StepController.settings];
    repeat split; try done;
    apply Qcmult_pos; try done; by apply std_max_pos.
Qed.

Lemma newStep_keeps_positive_witness :
  controller_positive
    (snd (StepController.newStep Examples.controller (Demo.q 10) (Demo.q 4)
                                 (Demo.q 5))).
Proof.
  apply newStep_keeps_positive. unfold controller_positive.
  repeat split; vm_compute; reflexivity.
Defined.

(** X3. [newStep] judges a step by the quotient of the reductions whatever
    their sign: mirroring the new and the predicted energy at the old one
    (which flips the sign of both reductions) gives the same flag and the
    same controller, when the predicted reduction is not zero. *)
Theorem newStep_mirror (c : StepController.t) oldEnergy newEnergy
    predictedEnergy :
  oldEnergy - predictedEnergy ≠ 0 →
  StepController.newStep c oldEnergy (2 * oldEnergy - newEnergy)
                         (2 * oldEnergy - predictedEnergy) =
  StepController.newStep c oldEnergy newEnergy predictedEnergy.
Proof.
  intros Hne. unfold StepController.newStep.
  replace (oldEnergy - (2 * oldEnergy - predictedEnergy))
    with (- (oldEnergy - predictedEnergy)) by ring.
  replace (oldEnergy - (2 * oldEnergy - newEnergy))
    with (- (oldEnergy - newEnergy)) by ring.
  set (pd := oldEnergy - predictedEnergy) in *.
  set (ad := oldEnergy - newEnergy).
  destruct (ltb pd 0) eqn:Hpd.
  - apply ltb_true in Hpd.
    assert (Hn : ltb (- pd) 0 = false).
    { apply ltb_false. qc2q. lra. }
    rewrite Hn. by replace (pd * - 1) with (- pd) by ring;
      replace (ad * - 1) with (- ad) by ring.
  - apply ltb_false in Hpd.
    assert (Hn : ltb (- pd) 0 = true).
    { apply ltb_true.
      assert (pd ≠ 0) by done.
      assert (0 < pd).
      { destruct (Qcle_lt_or_eq _ _ Hpd); [done | congruence]. }
      qc2q. lra. }
    rewrite Hn. by replace (- pd * - 1) with pd by ring;
      replace (- ad * - 1) with ad by ring.
Qed.

Lemma newStep_mirror_witness :
  StepController.newStep Examples.controller (Demo.q 10)
                         (2 * Demo.q 10 - Demo.q 4) (2 * Demo.q 10 - Demo.q 5) =
  StepController.newStep Examples.controller (Demo.q 10) (Demo.q 4) (Demo.q 5).
Proof.
  apply newStep_mirror. intros H. apply (f_equal this) in H.
  vm_compute in H. discriminate.
Defined.


(** ** The delta vector *)

Lemma std_abs_le (x m : Qc) : gtb (std_abs x) m = false ↔ std_abs x ≤ m.
Proof. apply gtb_false. Qed.

Lemma std_abs_0 : std_abs 0 = 0.
Proof. apply Qc_is_canon. reflexivity. Qed.

(** X4. [constraintDepths] sets to zero every point step whose absolute
    value exceeds [maxAbsDeltaD] and keeps the others: for a bound that is
    not negative every point step is within the bound afterwards; the number
    of steps, the frame part and the layout stay; and a second call changes
    nothing. *)
Theorem constraintDepths_bounds (maxAbsDeltaD : Qc) (d : DeltaParameterVector.t) :
  0 ≤ maxAbsDeltaD →
  let d' := DeltaParameterVector.constraintDepths maxAbsDeltaD d in
  Forall (λ x, std_abs x ≤ maxAbsDeltaD) (DeltaParameterVector.point d') ∧
  (∀ i x, DeltaParameterVector.point d !! i = Some x →
          DeltaParameterVector.point d' !! i =
          Some (if bool_decide (std_abs x ≤ maxAbsDeltaD) then x else 0)) ∧
  length (DeltaParameterVector.point d') = length (DeltaParameterVector.point d) ∧
  DeltaParameterVector.frame d' = DeltaParameterVector.frame d ∧
  DeltaParameterVector.frameParameterOrder d' =
    DeltaParameterVector.frameParameterOrder d ∧
  DeltaParameterVector.constraintDepths maxAbsDeltaD d' = d'.
Proof.
  intros Hmax. unfold DeltaParameterVector.constraintDepths.
  cbn [DeltaParameterVector.point DeltaParameterVector.frame
       DeltaParameterVector.frameParameterOrder].
  repeat split.
  - apply Forall_fmap, Forall_forall. intros x _. unfold compose.
    destruct (gtb (std_abs x) maxAbsDeltaD) eqn:H.
    + by rewrite std_abs_0.
    + by apply std_abs_le.
  - intros i x Hx. rewrite list_lookup_fmap, Hx. cbn [fmap option_fmap option_map].
    f_equal. destruct (gtb (std_abs x) maxAbsDeltaD) eqn:H.
    + apply gtb_true in H. rewrite bool_decide_eq_false_2; [done |].
      by apply Qclt_not_le.
    + apply gtb_false in H. by rewrite bool_decide_eq_true_2.
  - by rewrite length_fmap.
  - f_equal. rewrite <- list_fmap_compose. apply list_fmap_ext.
    intros i x _. cbn [compose].
    destruct (gtb (std_abs x) maxAbsDeltaD) eqn:H.
    + by destruct (gtb (std_abs 0) maxAbsDeltaD).
    + by rewrite H.
Qed.

Lemma constraintDepths_bounds_witness :
  Forall (λ x, std_abs x ≤ Demo.q 3)
         (DeltaParameterVector.point
            (DeltaParameterVector.constraintDepths (Demo.q 3) Examples.delta)) ∧
  (∀ i x, DeltaParameterVector.point Examples.delta !! i = Some x →
          DeltaParameterVector.point
            (DeltaParameterVector.constraintDepths (Demo.q 3) Examples.delta) !! i =
          Some (if bool_decide (std_abs x ≤ Demo.q 3) then x else 0)) ∧
  length (DeltaParameterVector.point
            (DeltaParameterVector.constraintDepths (Demo.q 3) Examples.delta)) =
    length (DeltaParameterVector.point Examples.delta) ∧
  DeltaParameterVector.frame
    (DeltaParameterVector.constraintDepths (Demo.q 3) Examples.delta) =
    DeltaParameterVector.frame Examples.delta ∧
  DeltaParameterVector.frameParameterOrder
    (DeltaParameterVector.constraintDepths (Demo.q 3) Examples.delta) =
    DeltaParameterVector.frameParameterOrder Examples.delta ∧
  DeltaParameterVector.constraintDepths (Demo.q 3)
    (DeltaParameterVector.constraintDepths (Demo.q 3) Examples.delta) =
    DeltaParameterVector.constraintDepths (Demo.q 3) Examples.delta.
Proof.
  apply (constraintDepths_bounds (Demo.q 3) Examples.delta). discriminate.
Defined.

Lemma vdot_scale (a : Qc) (u v : list Qc) :
  DeltaParameterVector.vdot ((λ x, a * x) <$> u) v =
  a * DeltaParameterVector.vdot u v.
Proof.
  unfold DeltaParameterVector.vdot. revert v.
  induction u as [| x u IH]; intros [| y v];
    cbn [fmap list_fmap zip_with foldr]; try ring.
  rewrite IH. ring.
Qed.

Lemma vdot_comm (u v : list Qc) :
  DeltaParameterVector.vdot u v = DeltaParameterVector.vdot v u.
Proof.
  unfold DeltaParameterVector.vdot. revert v.
  induction u as [| x u IH]; intros [| y v]; cbn [zip_with foldr]; try ring.
  rewrite IH. ring.
Qed.

Lemma vdot_self_nonneg (u : list Qc) : 0 ≤ DeltaParameterVector.vdot u u.
Proof.
  unfold DeltaParameterVector.vdot.
  induction u as [| x u IH]; cbn [zip_with foldr]; [done |].
  set (r := foldr Qcplus 0 (zip_with Qcmult u u)) in *.
  clearbody r. qc2q. nra.
Qed.

(** X5. The dot product of deltas is symmetric, goes through the scaling
    [factor * delta] as a factor, and is never negative on a delta with
    itself. *)
Theorem dot_bilinear (factor : Qc) (d e : DeltaParameterVector.t) :
  DeltaParameterVector.dot d e = DeltaParameterVector.dot e d ∧
  DeltaParameterVector.dot (DeltaParameterVector.scale factor d) e =
    factor * DeltaParameterVector.dot d e ∧
  0 ≤ DeltaParameterVector.dot d d.
Proof.
  unfold DeltaParameterVector.dot, DeltaParameterVector.scale,
    DeltaParameterVector.getFrame, DeltaParameterVector.getPoint.
  cbn [DeltaParameterVector.frame DeltaParameterVector.point].
  repeat split.
  - by rewrite (vdot_comm (DeltaParameterVector.frame d)),
      (vdot_comm (DeltaParameterVector.point d)).
  - rewrite !vdot_scale. ring.
  - pose proof (vdot_self_nonneg (DeltaParameterVector.frame d)) as Hf.
    pose proof (vdot_self_nonneg (DeltaParameterVector.point d)) as Hp.
    set (f := DeltaParameterVector.vdot (DeltaParameterVector.frame d)
                                        (DeltaParameterVector.frame d)) in *.
    set (p := DeltaParameterVector.vdot (DeltaParameterVector.point d)
                                        (DeltaParameterVector.point d)) in *.
    clearbody f p. qc2q. lra.
Qed.

(** The frame part after [setAffineZero], entry by entry. *)
Lemma setAffineZero_frame_lookup (d : DeltaParameterVector.t) i :
  (inAffineBlockFrom1 (DeltaParameterVector.frameParameterOrder d) i →
   DeltaParameterVector.frame (DeltaParameterVector.setAffineZero d) !! i =
   (λ _, 0) <$> DeltaParameterVector.frame d !! i) ∧
  (¬ inAffineBlockFrom1 (DeltaParameterVector.frameParameterOrder d) i →
   DeltaParameterVector.frame (DeltaParameterVector.setAffineZero d) !! i =
   DeltaParameterVector.frame d !! i).
Proof.
  destruct (setAffineZero_spec (DeltaParameterVector.frameParameterOrder d) d
              eq_refl) as (_ & Hlen & Hout & Hin).
  split; [| apply Hout].
  intros Hblock.
  destruct (decide (i < length (DeltaParameterVector.frame d))%nat) as [Hlt | Hge].
  - rewrite (Hin i Hblock Hlt).
    by destruct (lookup_lt_is_Some_2 _ _ Hlt) as [x ->].
  - rewrite (lookup_ge_None_2 (DeltaParameterVector.frame d)) by lia.
    apply lookup_ge_None_2. cbv zeta in Hlen. lia.
Qed.

(** Two lists of rationals are equal when their entries are, whether an
    index lies in an affine block or not. *)
Lemma frame_eq_by_block order (l k : list Qc) :
  (∀ i, inAffineBlockFrom1 order i → l !! i = k !! i) →
  (∀ i, ¬ inAffineBlockFrom1 order i → l !! i = k !! i) →
  l = k.
Proof.
  intros Hin Hout. apply list_eq. intros i.
  destruct (decide (l !! i = k !! i)) as [| Hne]; [done |].
  exfalso. apply Hne. apply Hout. intros Hblock. apply Hne. by apply Hin.
Qed.

(** X6. [setAffineZero] is idempotent, leaves the layout as it is, and
    commutes with the scaling [factor * delta] and with
    [constraintDepths]. *)
Theorem setAffineZero_composes (factor maxAbsDeltaD : Qc)
    (d : DeltaParameterVector.t) :
  DeltaParameterVector.setAffineZero (DeltaParameterVector.setAffineZero d) =
    DeltaParameterVector.setAffineZero d ∧
  DeltaParameterVector.frameParameterOrder (DeltaParameterVector.setAffineZero d) =
    DeltaParameterVector.frameParameterOrder d ∧
  DeltaParameterVector.setAffineZero (DeltaParameterVector.scale factor d) =
    DeltaParameterVector.scale factor (DeltaParameterVector.setAffineZero d) ∧
  DeltaParameterVector.setAffineZero
    (DeltaParameterVector.constraintDepths maxAbsDeltaD d) =
    DeltaParameterVector.constraintDepths maxAbsDeltaD
      (DeltaParameterVector.setAffineZero d).
Proof.
  assert (Hrecord : ∀ a b : DeltaParameterVector.t,
    DeltaParameterVector.frameParameterOrder a =
      DeltaParameterVector.frameParameterOrder b →
    DeltaParameterVector.frame a = DeltaParameterVector.frame b →
    DeltaParameterVector.point a = DeltaParameterVector.point b → a = b).
  { intros [] []. cbn. by intros -> -> ->. }
  split; [| split; [done | split; [| done]]].
  - apply Hrecord; [done | | done].
    apply (frame_eq_by_block (DeltaParameterVector.frameParameterOrder d));
      intros i Hi.
    + rewrite (proj1 (setAffineZero_frame_lookup
                        (DeltaParameterVector.setAffineZero d) i) Hi).
      rewrite (proj1 (setAffineZero_frame_lookup d i) Hi).
      by destruct (DeltaParameterVector.frame d !! i).
    + by rewrite (proj2 (setAffineZero_frame_lookup
                           (DeltaParameterVector.setAffineZero d) i) Hi).
  - apply Hrecord; [done | | done].
    apply (frame_eq_by_block (DeltaParameterVector.frameParameterOrder d));
      intros i Hi.
    + rewrite (proj1 (setAffineZero_frame_lookup
                        (DeltaParameterVector.scale factor d) i) Hi).
      cbn [DeltaParameterVector.scale DeltaParameterVector.frame].
      unfold DeltaParameterVector.getFrame.
      rewrite !list_lookup_fmap.
      rewrite (proj1 (setAffineZero_frame_lookup d i) Hi).
      destruct (DeltaParameterVector.frame d !! i);
        cbn [fmap option_fmap option_map]; [| done].
      f_equal. ring.
    + rewrite (proj2 (setAffineZero_frame_lookup
                        (DeltaParameterVector.scale factor d) i) Hi).
      cbn [DeltaParameterVector.scale DeltaParameterVector.frame].
      unfold DeltaParameterVector.getFrame.
      rewrite !list_lookup_fmap.
      by rewrite (proj2 (setAffineZero_frame_lookup d i) Hi).
Qed.


(** ** The losses and the weights *)

Lemma DBL_MIN_pos : 0 < DBL_MIN.
Proof. reflexivity. Qed.

Lemma getLoss_rho1_nonneg sqrtT type outlierDiff s :
  0 ≤ rho1 (getLoss sqrtT type outlierDiff s).
Proof.
  destruct type; cbn [getLoss]; unfold TrivialLoss, HuberLoss.
  - cbn [rho1]. discriminate.
  - destruct (gtb s (outlierDiff * outlierDiff)); cbn [rho1].
    + apply Qclt_le_weak, std_max_pos, DBL_MIN_pos.
    + discriminate.
Qed.

(** X7. For the two losses [getLoss] makes, whatever the threshold and the
    values are, [Residual::getWeights] never fails its [CHECK_GE(rho[1], 0)]:
    it returns one weight per pattern element. *)
Theorem getWeights_of_getLoss sqrtT type outlierDiff settings res values :
  ∃ weights,
    getWeights (getLoss sqrtT type outlierDiff) settings res values =
      Some weights ∧
    length weights = length (pattern settings).
Proof.
  exists (flooredWeight (getLoss sqrtT type outlierDiff) settings res values
            <$> seq 0 (length (pattern settings))).
  split; [| by rewrite length_fmap, length_seq].
  unfold getWeights. apply mapM_Some_2.
  apply Forall2_fmap_r, Forall_Forall2_diag, Forall_forall.
  intros i _. apply getWeight_floored. apply getLoss_rho1_nonneg.
Qed.

Lemma square_nonneg (v : Qc) : 0 ≤ v * v.
Proof. qc2q. nra. Qed.

Lemma getWeights_floored lossFunction settings res values :
  (∀ s, 0 ≤ rho1 (lossFunction s)) →
  getWeights lossFunction settings res values =
  Some (flooredWeight lossFunction settings res values
          <$> seq 0 (length (pattern settings))).
Proof.
  intros Hrho. unfold getWeights. apply mapM_Some_2.
  apply Forall2_fmap_r, Forall_Forall2_diag, Forall_forall.
  intros i _. apply getWeight_floored. apply Hrho.
Qed.

Lemma huber_curvature_within sqrtT a (values : list Qc) i :
  at_ values i * at_ values i ≤ a * a →
  curvature (HuberLoss sqrtT a) values i = 1.
Proof.
  intros Hin. unfold curvature, HuberLoss.
  rewrite (proj2 (gtb_false _ _) Hin). cbn [rho1 rho2]. ring.
Qed.

(** X8. Under the Huber loss [getWeights] returns, and the weight of every
    sample within the threshold, [v_i^2 <= a^2], is its gradient weight
    [gradWeights[i]], whatever the square root returns: there the loss has
    [rho[1] = 1] and [rho[2] = 0], and the floor is not taken. *)
Theorem getWeights_huber_inliers sqrtT a settings res (values : list Qc) :
  ∃ weights,
    getWeights (HuberLoss sqrtT a) settings res values = Some weights ∧
    ∀ i, (i < length (pattern settings))%nat →
         at_ values i * at_ values i ≤ a * a →
         weights !! i = Some (at_ (gradWeights res) i).
Proof.
  eexists. split.
  { apply getWeights_floored. intros s.
    apply (getLoss_rho1_nonneg sqrtT HUBER a s). }
  intros i Hi Hin. rewrite list_lookup_fmap, lookup_seq_lt by done.
  cbn [fmap option_fmap option_map Nat.add]. f_equal.
  unfold flooredWeight. rewrite (huber_curvature_within sqrtT a values i Hin).
  rewrite bool_decide_eq_false_2 by (intros H; vm_compute in H; discriminate).
  ring.
Qed.

Lemma getWeights_huber_inliers_witness :
  ∃ weights,
    getWeights (HuberLoss Demo.sqrt_exact (Demo.q 3)) Demo.residualSettings
               DemoRun.res0 [Demo.q 2] = Some weights ∧
    weights !! 0%nat = Some (at_ (gradWeights DemoRun.res0) 0).
Proof.
  destruct (getWeights_huber_inliers Demo.sqrt_exact (Demo.q 3)
              Demo.residualSettings DemoRun.res0 [Demo.q 2])
    as (weights & Hweights & Hin).
  exists weights. split; [done |]. apply Hin.
  - vm_compute. lia.
  - unfold Qcle. vm_compute. discriminate.
Defined.

(** ** The energy of the values of an energy function *)

Lemma getValues_length env settings res h l logDepthVal :
  length (fst (getValues env settings res h l logDepthVal)) =
  length (pattern settings).
Proof. unfold getValues. cbn [fst]. by rewrite length_fmap, length_seq. Qed.

Lemma createValues_pattern_sized env ef p h l :
  Forall (λ vc, length (fst vc) = length (pattern (residual (settings ef))))
         (valsAndCache (createValues env ef p h l)).
Proof.
  unfold createValues, Values_new. cbn [valsAndCache].
  apply Forall_fmap, Forall_forall. intros res _. apply getValues_length.
Qed.

(** X9. For the values an energy function with a residual makes of its
    residuals, [totalEnergy] returns (it does not fail its check), and what
    it returns is the sum over the residuals of the sum over the pattern of
    the loss at the squared values. *)
Theorem totalEnergy_of_createValues env ef p h l :
  residuals ef ≠ [] →
  totalEnergy (createValues env ef p h l) =
  Some (sum_list ((λ vc, residualEnergy (lossFunction ef) (fst vc))
                    <$> valsAndCache (createValues env ef p h l))).
Proof.
  intros Hres. pose proof (createValues_pattern_sized env ef p h l) as Hall.
  pose proof (createValues_nonempty env ef p h l Hres) as Hne.
  unfold totalEnergy.
  replace (v_lossFunction (createValues env ef p h l)) with (lossFunction ef)
    by reflexivity.
  destruct (valsAndCache (createValues env ef p h l)) as [| vc0 rest]; [done |].
  f_equal. rewrite (foldl_addResidualEnergy (lossFunction ef)).
  - ring.
  - apply Forall_cons in Hall as [H0 Hrest]. constructor; [done |].
    eapply Forall_impl; [exact Hrest |]. intros vc Hvc. cbn beta in *. congruence.
Qed.

Lemma totalEnergy_of_createValues_witness :
  totalEnergy
    (createValues Demo.env (DemoRun.ef HUBER) (parameters (DemoRun.ef HUBER))
       (PrecomputedHostToTarget_new Demo.rig (parameters (DemoRun.ef HUBER)))
       (mkPrecomputedLightHostToTarget (parameters (DemoRun.ef HUBER)))) =
  Some (sum_list
          ((λ vc, residualEnergy (lossFunction (DemoRun.ef HUBER)) (fst vc))
             <$> valsAndCache
                   (createValues Demo.env (DemoRun.ef HUBER)
                      (parameters (DemoRun.ef HUBER))
                      (PrecomputedHostToTarget_new
                         Demo.rig (parameters (DemoRun.ef HUBER)))
                      (mkPrecomputedLightHostToTarget
                         (parameters (DemoRun.ef HUBER)))))).
Proof.
  apply totalEnergy_of_createValues.
  intros H. apply (f_equal length) in H. vm_compute in H. discriminate.
Defined.

Lemma addResidualEnergy_nonneg lossFunction n (e : Qc) vc :
  (∀ s, 0 ≤ s → 0 ≤ rho0 (lossFunction s)) →
  0 ≤ e → 0 ≤ addResidualEnergy lossFunction n e vc.
Proof.
  intros Hloss He. unfold addResidualEnergy.
  apply (foldl_invariant (λ e, 0 ≤ e)); [done |].
  intros e' i _ He'. cbn zeta.
  pose proof (Hloss _ (square_nonneg (at_ (fst vc) i))) as Hr.
  set (r := rho0 (lossFunction (at_ (fst vc) i * at_ (fst vc) i))) in *.
  clearbody r. qc2q. lra.
Qed.

(** X10. For a loss that is not negative on arguments that are not negative,
    the total energy of a non-empty collection of values is not negative. *)
Theorem totalEnergy_nonneg (v : Values) :
  (∀ s, 0 ≤ s → 0 ≤ rho0 (v_lossFunction v s)) →
  valsAndCache v ≠ [] →
  ∃ energy, totalEnergy v = Some energy ∧ 0 ≤ energy.
Proof.
  intros Hloss Hne. unfold totalEnergy.
  destruct (valsAndCache v) as [| vc0 rest] eqn:Hv; [done |].
  eexists. split; [reflexivity |].
  apply (foldl_invariant (λ e, 0 ≤ e)); [done |].
  intros e vc _ He. by apply addResidualEnergy_nonneg.
Qed.

Lemma totalEnergy_nonneg_witness :
  ∃ energy, totalEnergy DemoRun.values0 = Some energy ∧ 0 ≤ energy.
Proof.
  apply totalEnergy_nonneg.
  - intros s Hs. exact Hs.
  - intros H. apply (f_equal length) in H. vm_compute in H. discriminate.
Defined.


(** ** The table of host-to-target transforms *)

Lemma lookup_fmap_seq {A} (f : nat → A) (n i : nat) :
  (i < n)%nat → (f <$> seq 0 n) !! i = Some (f i).
Proof. intros Hi. by rewrite list_lookup_fmap, lookup_seq_lt. Qed.

Lemma hostToTarget_get_table (f : nat → nat → nat → nat → SE3) (n c : nat)
    hostInd hostCamInd targetInd targetCamInd :
  (hostInd < n)%nat → (targetInd < n)%nat →
  (hostCamInd < c)%nat → (targetCamInd < c)%nat →
  hostToTarget_get
    ((λ hi, (λ hci, (λ ti, (λ tci, f hi hci ti tci) <$> seq 0 c)
                      <$> seq 0 n) <$> seq 0 c) <$> seq 0 n)
    hostInd hostCamInd targetInd targetCamInd =
  f hostInd hostCamInd targetInd targetCamInd.
Proof.
  intros Hh Ht Hhc Htc. unfold hostToTarget_get.
  rewrite (lookup_fmap_seq _ _ _ Hh). cbn [default from_option id].
  rewrite (lookup_fmap_seq _ _ _ Hhc). cbn [default from_option id].
  rewrite (lookup_fmap_seq _ _ _ Ht). cbn [default from_option id].
  by rewrite (lookup_fmap_seq _ _ _ Htc).
Qed.

Lemma hostToTarget_get_in_range cam p hostInd hostCamInd targetInd
    targetCamInd :
  (hostInd < numKeyFrames p)%nat →
  (targetInd < numKeyFrames p)%nat →
  (hostCamInd < length (bundle cam))%nat →
  (targetCamInd < length (bundle cam))%nat →
  hostToTarget_get (PrecomputedHostToTarget_new cam p)
                   hostInd hostCamInd targetInd targetCamInd =
  if decide (hostInd = targetInd) then se3_id
  else se3_mul (bodyToCam cam targetCamInd)
               (se3_mul (se3_mul (se3_inverse (getBodyToWorld p targetInd))
                                 (getBodyToWorld p hostInd))
                        (camToBody cam hostCamInd)).
Proof.
  intros Hh Ht Hhc Htc. unfold PrecomputedHostToTarget_new.
  exact (hostToTarget_get_table
           (λ hi hci ti tci,
              if decide (hi = ti) then se3_id
              else se3_mul (bodyToCam cam tci)
                     (se3_mul (se3_mul (se3_inverse (getBodyToWorld p ti))
                                       (getBodyToWorld p hi))
                              (camToBody cam hci)))
           _ _ _ _ _ _ Hh Ht Hhc Htc).
Qed.

(** X11. Reading the table of [PrecomputedHostToTarget] at indices in range
    gives, for distinct host and target frames, the transform
    [bodyToCam[targetCam] * bodyToWorld[target]^-1 * bodyToWorld[host] *
    camToBody[hostCam]], and for the same frame the identity the table was
    made with. *)
Theorem hostToTarget_get_new cam p hostInd hostCamInd targetInd targetCamInd :
  (hostInd < numKeyFrames p)%nat →
  (targetInd < numKeyFrames p)%nat →
  (hostCamInd < length (bundle cam))%nat →
  (targetCamInd < length (bundle cam))%nat →
  hostToTarget_get (PrecomputedHostToTarget_new cam p)
                   hostInd hostCamInd targetInd targetCamInd =
  if decide (hostInd = targetInd) then se3_id
  else se3_mul (bodyToCam cam targetCamInd)
               (se3_mul (se3_mul (se3_inverse (getBodyToWorld p targetInd))
                                 (getBodyToWorld p hostInd))
                        (camToBody cam hostCamInd)).
Proof.
  intros Hh Ht Hhc Htc.
  unfold hostToTarget_get, PrecomputedHostToTarget_new.
  rewrite (lookup_fmap_seq _ _ _ Hh). cbn [default from_option id].
  rewrite (lookup_fmap_seq _ _ _ Hhc). cbn [default from_option id].
  rewrite (lookup_fmap_seq _ _ _ Ht). cbn [default from_option id].
  rewrite (lookup_fmap_seq _ _ _ Htc). cbn [default from_option id].
  done.
Qed.

Lemma hostToTarget_get_new_witness :
  hostToTarget_get
    (PrecomputedHostToTarget_new Demo.rig (parameters (DemoRun.ef TRIVIAL)))
    0 0 1 0 =
  if decide (0%nat = 1%nat) then se3_id
  else se3_mul (bodyToCam Demo.rig 0)
               (se3_mul
                  (se3_mul
                     (se3_inverse
                        (getBodyToWorld (parameters (DemoRun.ef TRIVIAL)) 1))
                     (getBodyToWorld (parameters (DemoRun.ef TRIVIAL)) 0))
                  (camToBody Demo.rig 0)).
Proof. apply hostToTarget_get_new; vm_compute; lia. Defined.

Lemma se3_mul_assoc (a b c : SE3) :
  se3_mul (se3_mul a b) c = se3_mul a (se3_mul b c).
Proof.
  destruct a as [ra ta], b as [rb tb], c as [rc tc].
  unfold se3_mul. cbn [so3 translation]. f_equal; by_components.
Qed.

Lemma se3_mul_id_l (a : SE3) : se3_mul se3_id a = a.
Proof.
  destruct a as [ra ta]. unfold se3_mul, se3_id. cbn [so3 translation].
  f_equal; by_components.
Qed.

Lemma se3_mul_id_r (a : SE3) : se3_mul a se3_id = a.
Proof.
  destruct a as [ra ta]. unfold se3_mul, se3_id. cbn [so3 translation].
  f_equal; by_components.
Qed.

Lemma mat33_mulv_opp (a : Mat33) (v : Vec3) :
  mat33_mulv a (vec3_opp v) = vec3_opp (mat33_mulv a v).
Proof. by_components. Qed.

Lemma vec3_add_opp_l (v : Vec3) : vec3_add (vec3_opp v) v = vec3_zero.
Proof. by_components. Qed.

Lemma vec3_add_opp_r (v : Vec3) : vec3_add v (vec3_opp v) = vec3_zero.
Proof. by_components. Qed.

Lemma mat33_mulv_id (v : Vec3) : mat33_mulv mat33_id v = v.
Proof. by_components. Qed.

Lemma se3_inverse_l (a : SE3) : rigid a → se3_mul (se3_inverse a) a = se3_id.
Proof.
  intros [Hl _]. destruct a as [r t]. unfold is_rotation in Hl.
  unfold se3_mul, se3_inverse, se3_id. cbn [so3 translation] in *.
  f_equal; [done |]. rewrite vec3_add_opp_r. done.
Qed.

Lemma se3_inverse_r (a : SE3) : rigid a → se3_mul a (se3_inverse a) = se3_id.
Proof.
  intros [_ Hr]. destruct a as [r t].
  unfold se3_mul, se3_inverse, se3_id. cbn [so3 translation] in *.
  f_equal; [done |].
  rewrite mat33_mulv_opp, <- mat33_mulv_mul, Hr, mat33_mulv_id.
  apply vec3_add_opp_l.
Qed.

(** X12. When the key frame poses are rigid motions and the two extrinsics
    of each camera are inverse to each other, the transform of the table
    from a target back to its host is the inverse of the transform from the
    host to the target: their product is the identity. *)
Theorem hostToTarget_back_and_forth cam p hostInd hostCamInd targetInd
    targetCamInd :
  (hostInd < numKeyFrames p)%nat →
  (targetInd < numKeyFrames p)%nat →
  (hostCamInd < length (bundle cam))%nat →
  (targetCamInd < length (bundle cam))%nat →
  rigid (getBodyToWorld p hostInd) →
  rigid (getBodyToWorld p targetInd) →
  se3_mul (bodyToCam cam hostCamInd) (camToBody cam hostCamInd) = se3_id →
  se3_mul (camToBody cam targetCamInd) (bodyToCam cam targetCamInd) = se3_id →
  se3_mul
    (hostToTarget_get (PrecomputedHostToTarget_new cam p)
                      targetInd targetCamInd hostInd hostCamInd)
    (hostToTarget_get (PrecomputedHostToTarget_new cam p)
                      hostInd hostCamInd targetInd targetCamInd) = se3_id.
Proof.
  intros Hh Ht Hhc Htc Hrh Hrt Hch Hct.
  rewrite !hostToTarget_get_in_range by done.
  destruct (decide (hostInd = targetInd)) as [-> | Hne].
  - rewrite decide_True by done. apply se3_mul_id_l.
  - rewrite decide_False by done.
    set (bh := getBodyToWorld p hostInd) in *.
    set (bt := getBodyToWorld p targetInd) in *.
    set (ch := camToBody cam hostCamInd) in *.
    set (ct := camToBody cam targetCamInd) in *.
    set (ch' := bodyToCam cam hostCamInd) in *.
    set (ct' := bodyToCam cam targetCamInd) in *.
    rewrite !se3_mul_assoc.
    rewrite <- (se3_mul_assoc ct ct'), Hct, se3_mul_id_l.
    rewrite <- (se3_mul_assoc bt (se3_inverse bt)), (se3_inverse_r bt Hrt),
      se3_mul_id_l.
    rewrite <- (se3_mul_assoc (se3_inverse bh) bh), (se3_inverse_l bh Hrh),
      se3_mul_id_l.
    exact Hch.
Qed.

Lemma rigid_identity_rotation t : rigid (mkSE3 mat33_id t).
Proof.
  split; unfold is_rotation; cbn [so3];
    cbv [mat33_mul mat33_transpose mat33_col0 mat33_col1 mat33_col2
         vec3_mulm vec3_dot mat33_id];
    repeat match goal with |- (_, _) = (_, _) => f_equal end;
    apply Qc_is_canon; reflexivity.
Defined.

Lemma hostToTarget_back_and_forth_witness :
  se3_mul
    (hostToTarget_get
       (PrecomputedHostToTarget_new Demo.rig (parameters (DemoRun.ef TRIVIAL)))
       1 0 0 0)
    (hostToTarget_get
       (PrecomputedHostToTarget_new Demo.rig (parameters (DemoRun.ef TRIVIAL)))
       0 0 1 0) = se3_id.
Proof.
  apply hostToTarget_back_and_forth.
  - vm_compute; lia.
  - vm_compute; lia.
  - vm_compute; lia.
  - vm_compute; lia.
  - exact (rigid_identity_rotation vec3_zero).
  - exact (rigid_identity_rotation (1, 0, 0)).
  - exact (se3_mul_id_l se3_id).
  - exact (se3_mul_id_l se3_id).
Defined.

(** ** The cached values *)

(** X13. On an energy function whose cache is empty, [getResidualValues]
    fails its checks exactly for the indices that are not those of a
    residual; for the index of a residual it returns the pattern values
    [getValues] gives for that residual at the current parameters, and it
    leaves the values of all residuals in the cache. *)
Theorem getResidualValues_fresh {C : Collaborators} env ef
    (pc : Precomputations C) residualInd :
  pc_values pc = None →
  let h := PrecomputedHostToTarget_new (cam ef) (parameters ef) in
  let l := mkPrecomputedLightHostToTarget (parameters ef) in
  match residuals ef !! residualInd with
  | Some res =>
      getResidualValues env ef pc residualInd =
      Some (fst (getValues env (residual (settings ef)) res
                   (hostToTarget_get h (mHostInd res) (mHostCamInd res)
                                     (mTargetInd res) (mTargetCamInd res))
                   (lightHostToTarget_get env l (mHostInd res) (mHostCamInd res)
                                          (mTargetInd res) (mTargetCamInd res))
                   (p_logDepth (parameters ef) (mPointInd res))),
            mkPrecomputations
              (Some (createValues env ef (parameters ef) h l))
              (pc_derivatives pc))
  | None => getResidualValues env ef pc residualInd = None
  end.
Proof.
  intros Hpc h l. unfold getResidualValues, getAllValues, getAllValuesWith.
  rewrite Hpc. fold h l.
  destruct (residuals ef !! residualInd) as [res |] eqn:Hres.
  - rewrite decide_True by (by eapply lookup_lt_Some).
    unfold values, Values_new. cbn [valsAndCache].
    rewrite list_lookup_fmap, Hres. reflexivity.
  - rewrite decide_False; [done |]. apply lookup_ge_None in Hres. lia.
Qed.

Lemma getResidualValues_fresh_witness :
  getResidualValues (C := Demo.collaborators 0) Demo.env (DemoRun.ef TRIVIAL)
                    (mkPrecomputations None None) 1 = None.
Proof.
  exact (getResidualValues_fresh (C := Demo.collaborators 0) Demo.env
           (DemoRun.ef TRIVIAL) (mkPrecomputations None None) 1 eq_refl).
Defined.


(** ** The points and the residuals of the constructor *)

Section ConstructorPoints.

Variables (env : Env) (cam : CameraBundle) (keyFrames : list KeyFrame)
          (settings : EnergyFunctionSettings)
          (hostToTarget : PrecomputedHostToTarget).

(** What the loops keep true of the residuals and the points made so far. *)
Let fits (cs : CtorState) : Prop :=
  (∀ r, r ∈ cs_residuals cs →
        ∃ op, cs_optimizedPoints cs !! mPointInd r = Some (logDepth r, op) ∧
              lookupPoint keyFrames (logDepth r) = Some op) ∧
  (∀ j, (j < length (cs_optimizedPoints cs))%nat →
        ∃ r, r ∈ cs_residuals cs ∧ mPointInd r = j).

(** Within the loops over the targets of one point, in addition: once the
    point has a residual it is the last of the points. *)
Let fitsAt (ref : PointRef) (op : OptimizedPoint) (acc : bool * CtorState)
  : Prop :=
  fits (snd acc) ∧
  (fst acc = true → last (cs_optimizedPoints (snd acc)) = Some (ref, op)).

Lemma visitTargetCam_fits hostInd hostCamInd ref op ray targetInd acc
    targetCamInd :
  lookupPoint keyFrames ref = Some op →
  fitsAt ref op acc →
  fitsAt ref op (visitTargetCam env settings hostToTarget hostInd hostCamInd
                                ref op ray targetInd acc targetCamInd).
Proof.
  intros Hop [[Hres Hpts] Hlast]. unfold visitTargetCam.
  destruct (reprojects env _ _ _ _); [| done]. cbn [negb].
  destruct acc as [b cs]. cbn [fst snd] in *.
  set (points := if b then cs_optimizedPoints cs
                 else cs_optimizedPoints cs ++ [(ref, op)]).
  assert (Hkeep : ∀ i x, cs_optimizedPoints cs !! i = Some x →
                         points !! i = Some x).
  { intros i x Hx. subst points. destruct b; [done |].
    by apply lookup_app_l_Some. }
  assert (Hend : points !! (length points - 1)%nat = Some (ref, op)).
  { subst points. destruct b.
    - rewrite <- (Hlast eq_refl), last_lookup. f_equal. lia.
    - rewrite length_app. cbn [length].
      apply list_lookup_middle. lia. }
  assert (Hlen : length points = length (cs_optimizedPoints cs) ∨
                 length points = S (length (cs_optimizedPoints cs))).
  { subst points. destruct b; [by left |]. right.
    rewrite length_app. cbn [length]. lia. }
  split; [split |]; cbn [fst snd cs_residuals cs_optimizedPoints].
  - intros r [Hr | Hr%list_elem_of_singleton]%elem_of_app.
    + destruct (Hres r Hr) as (op' & Hl & Hp). exists op'. split; [| done].
      by apply Hkeep.
    + subst r. exists op. cbn [mPointInd logDepth Residual_new].
      split; [exact Hend | exact Hop].
  - intros j Hj.
    destruct (decide (j < length (cs_optimizedPoints cs))%nat) as [Hold | Hnew].
    + destruct (Hpts j Hold) as (r & Hr & Hj'). exists r.
      split; [| done]. apply elem_of_app. by left.
    + eexists. split; [apply elem_of_app; right; by apply list_elem_of_singleton |].
      cbn [mPointInd Residual_new]. lia.
  - intros _. rewrite last_lookup. rewrite <- Hend. f_equal. lia.
Qed.

Lemma visitPoint_fits hostInd hostCamInd cs kop :
  kop ∈ pointsOf keyFrames hostInd hostCamInd →
  fits cs →
  fits (visitPoint env settings cam hostToTarget (length keyFrames)
                   hostInd hostCamInd cs kop).
Proof.
  destruct kop as [k op]. intros Hin%pointsOf_lookup Hcs. unfold visitPoint.
  destruct (op_state op); try done.
  apply (foldl_invariant (fitsAt (hostInd, hostCamInd, k) op)); [done |].
  intros acc targetInd _ Hacc. unfold visitTarget.
  destruct (decide (hostInd = targetInd)); [done |].
  apply (foldl_invariant (fitsAt (hostInd, hostCamInd, k) op)); [done |].
  intros acc' targetCamInd _. by apply visitTargetCam_fits.
Qed.

Lemma constructor_fits :
  fits (foldl (visitHost env settings cam keyFrames hostToTarget)
              (mkCtorState [] []) (seq 0 (length keyFrames))).
Proof.
  apply (foldl_invariant fits).
  - split; cbn [cs_residuals cs_optimizedPoints length].
    + intros r Hr. by apply elem_of_nil in Hr.
    + intros j Hj. lia.
  - intros cs hostInd _ Hcs. unfold visitHost.
    apply (foldl_invariant fits); [done |].
    intros cs' hostCamInd _ Hcs'. unfold visitHostCam.
    apply (foldl_invariant fits); [done |].
    intros cs'' kop Hin. by apply visitPoint_fits.
Qed.

(** The residuals only grow. *)
Let grows (old : CtorState) (cs : CtorState) : Prop :=
  ∀ r, r ∈ cs_residuals old → r ∈ cs_residuals cs.

Lemma visitTargetCam_grows old hostInd hostCamInd ref op ray targetInd acc
    targetCamInd :
  grows old (snd acc) →
  grows old (snd (visitTargetCam env settings hostToTarget hostInd hostCamInd
                                 ref op ray targetInd acc targetCamInd)).
Proof.
  intros Hacc. unfold visitTargetCam.
  destruct (reprojects env _ _ _ _); [| done]. cbn [negb].
  destruct acc as [b cs]. cbn [snd cs_residuals] in *.
  intros r Hr. apply elem_of_app. left. by apply Hacc.
Qed.

Lemma visitTarget_grows old hostInd hostCamInd ref op ray acc targetInd :
  grows old (snd acc) →
  grows old (snd (visitTarget env settings cam hostToTarget hostInd hostCamInd
                              ref op ray acc targetInd)).
Proof.
  intros Hacc. unfold visitTarget.
  destruct (decide (hostInd = targetInd)); [done |].
  apply (foldl_invariant (λ acc, grows old (snd acc))); [done |].
  intros acc' targetCamInd _. apply visitTargetCam_grows.
Qed.

Lemma visitPoint_grows old hostInd hostCamInd cs kop :
  grows old cs →
  grows old (visitPoint env settings cam hostToTarget (length keyFrames)
                        hostInd hostCamInd cs kop).
Proof.
  intros Hcs. destruct kop as [k op]. unfold visitPoint.
  destruct (op_state op); try done.
  apply (foldl_invariant (λ acc, grows old (snd acc))); [done |].
  intros acc targetInd _. apply visitTarget_grows.
Qed.

Lemma visitHostCam_grows old hostInd cs hostCamInd :
  grows old cs →
  grows old (visitHostCam env settings cam keyFrames hostToTarget hostInd cs
                          hostCamInd).
Proof.
  intros Hcs. unfold visitHostCam.
  apply (foldl_invariant (grows old)); [done |].
  intros cs' kop _. apply visitPoint_grows.
Qed.

Lemma visitHost_grows old cs hostInd :
  grows old cs →
  grows old (visitHost env settings cam keyFrames hostToTarget cs hostInd).
Proof.
  intros Hcs. unfold visitHost.
  apply (foldl_invariant (grows old)); [done |].
  intros cs' hostCamInd _. apply visitHostCam_grows.
Qed.

Variables (hostInd hostCamInd k targetInd targetCamInd : nat)
          (op : OptimizedPoint).

(** The state has the residual of the combination looked for. *)
Let found (cs : CtorState) : Prop :=
  ∃ r, r ∈ cs_residuals cs ∧
       mHostInd r = hostInd ∧ mHostCamInd r = hostCamInd ∧
       mTargetInd r = targetInd ∧ mTargetCamInd r = targetCamInd ∧
       logDepth r = (hostInd, hostCamInd, k).

Lemma found_grows old cs : grows old cs → found old → found cs.
Proof. intros Hg (r & Hr & Hkey). exists r. split; [by apply Hg | done]. Qed.

Lemma grows_refl cs : grows cs cs.
Proof. by intros r Hr. Qed.

Hypothesis Hpoint : lookupPoint keyFrames (hostInd, hostCamInd, k) = Some op.
Hypothesis HhostCam : (hostCamInd < length (bundle cam))%nat.
Hypothesis Htarget : (targetInd < length keyFrames)%nat.
Hypothesis HtargetCam : (targetCamInd < length (bundle cam))%nat.
Hypothesis Hdistinct : hostInd ≠ targetInd.
Hypothesis Hactive : op_state op = ACTIVE.
Hypothesis Hreprojects :
  reprojects env (patternHeight (residual settings))
             (hostToTarget_get hostToTarget hostInd hostCamInd targetInd
                               targetCamInd)
             (vec3_scale (op_depth env op) (op_dir op)) targetCamInd = true.

Lemma pointsOf_elem : (k, op) ∈ pointsOf keyFrames hostInd hostCamInd.
Proof.
  revert Hpoint. unfold lookupPoint, pointsOf.
  destruct (keyFrames !! hostInd) as [kf |]; [| done].
  cbn [mbind option_bind].
  destruct (frames kf !! hostCamInd) as [e |]; [| done].
  cbn [mbind option_bind fmap option_fmap option_map default from_option id].
  intros Hk. apply elem_of_lookup_zip_with. exists k, k, op.
  split; [done |]. split; [| done].
  apply lookup_seq. split; [done |]. by eapply lookup_lt_Some.
Qed.

Lemma hostInd_in_range : (hostInd < length keyFrames)%nat.
Proof.
  revert Hpoint. unfold lookupPoint.
  destruct (keyFrames !! hostInd) as [kf |] eqn:Hkf; [| done].
  intros _. by eapply lookup_lt_Some.
Qed.

Lemma constructor_finds :
  found (foldl (visitHost env settings cam keyFrames hostToTarget)
               (mkCtorState [] []) (seq 0 (length keyFrames))).
Proof.
  apply (foldl_establishes (λ _, True) found _ _ hostInd); try done.
  { apply elem_of_seq. pose proof hostInd_in_range. lia. }
  { intros cs y. apply found_grows, visitHost_grows, grows_refl. }
  intros cs _. unfold visitHost.
  apply (foldl_establishes (λ _, True) found _ _ hostCamInd); try done.
  { apply elem_of_seq. lia. }
  { intros cs' y. apply found_grows, visitHostCam_grows, grows_refl. }
  intros cs' _. unfold visitHostCam.
  apply (foldl_establishes (λ _, True) found _ _ (k, op)); try done.
  { apply pointsOf_elem. }
  { intros cs'' y. apply found_grows, visitPoint_grows, grows_refl. }
  intros cs'' _. unfold visitPoint. rewrite Hactive.
  apply (foldl_establishes (λ _, True) (λ acc, found (snd acc)) _ _ targetInd);
    try done.
  { apply elem_of_seq. lia. }
  { intros acc y. apply found_grows, visitTarget_grows, grows_refl. }
  intros acc _. unfold visitTarget. rewrite decide_False by done.
  apply (foldl_establishes (λ _, True) (λ acc, found (snd acc)) _ _
                           targetCamInd); try done.
  { apply elem_of_seq. lia. }
  { intros acc' y. apply found_grows, visitTargetCam_grows, grows_refl. }
  intros acc' _. unfold visitTargetCam. rewrite Hreprojects. cbn [negb].
  destruct acc' as [b cs3]. cbn [snd cs_residuals].
  eexists. split; [apply elem_of_app; right; by apply list_elem_of_singleton |].
  by cbn [mHostInd mHostCamInd mTargetInd mTargetCamInd logDepth Residual_new].
Qed.

End ConstructorPoints.

(** X14. In the energy function the constructor makes, residuals and points
    fit: the point index of every residual names, among the points handed to
    the parameters, the point the residual was made for, and the parameters
    hold the log-depth of that point at this index; every point of the
    parameters has at least one residual. *)
Theorem constructor_points env cam keyFrames settings :
  (2 ≤ length keyFrames)%nat →
  ∃ ef, EnergyFunction_new env cam keyFrames settings = Some ef ∧
        points_rule keyFrames ef.
Proof.
  intros Hsize. unfold EnergyFunction_new.
  destruct (decide (2 ≤ length keyFrames)%nat); [| done].
  eexists. split; [reflexivity |].
  destruct (constructor_fits env cam keyFrames settings
              (PrecomputedHostToTarget_new cam (Parameters_new cam keyFrames)))
    as [Hres Hpts].
  unfold points_rule, numPoints, setPoints.
  cbn [residuals parameters p_points state st_logDepth].
  split; [| split].
  - intros r Hr. destruct (Hres r Hr) as (op & Hl & Hp).
    rewrite !list_lookup_fmap, Hl. split; [done |]. by exists op.
  - intros j Hj. rewrite length_fmap in Hj. by apply Hpts.
  - by rewrite !length_fmap.
Qed.

Lemma constructor_points_witness :
  ∃ ef, EnergyFunction_new Demo.env Demo.rig (Demo.scene 0 ACTIVE)
                           (Demo.energySettings TRIVIAL) = Some ef ∧
        points_rule (Demo.scene 0 ACTIVE) ef.
Proof. apply constructor_points. vm_compute. lia. Defined.

(** X15. The constructor leaves no combination out: for every active point
    of a host entry and every camera of another key frame such that the ray
    of the point at its depth is mappable by that camera and projects on its
    image within the border, the energy function has a residual of this
    host, point and target. *)
Theorem constructor_complete env cam keyFrames settings hostInd hostCamInd k
    targetInd targetCamInd op :
  (2 ≤ length keyFrames)%nat →
  lookupPoint keyFrames (hostInd, hostCamInd, k) = Some op →
  (hostCamInd < length (bundle cam))%nat →
  (targetInd < length keyFrames)%nat →
  (targetCamInd < length (bundle cam))%nat →
  hostInd ≠ targetInd →
  op_state op = ACTIVE →
  reprojects env (patternHeight (residual settings))
             (hostToTarget_get
                (PrecomputedHostToTarget_new cam (Parameters_new cam keyFrames))
                hostInd hostCamInd targetInd targetCamInd)
             (vec3_scale (op_depth env op) (op_dir op)) targetCamInd = true →
  ∃ ef, EnergyFunction_new env cam keyFrames settings = Some ef ∧
        has_residual ef hostInd hostCamInd k targetInd targetCamInd.
Proof.
  intros Hsize Hpoint Hhc Ht Htc Hne Hactive Hre. unfold EnergyFunction_new.
  destruct (decide (2 ≤ length keyFrames)%nat); [| done].
  eexists. split; [reflexivity |]. unfold has_residual. cbn [residuals].
  by eapply constructor_finds.
Qed.

Lemma constructor_complete_witness :
  ∃ ef, EnergyFunction_new Demo.env Demo.rig (Demo.scene 0 ACTIVE)
                           (Demo.energySettings TRIVIAL) = Some ef ∧
        has_residual ef 0 0 0 1 0.
Proof.
  apply (constructor_complete Demo.env Demo.rig (Demo.scene 0 ACTIVE)
           (Demo.energySettings TRIVIAL) 0 0 0 1 0 (Demo.thePoint 0 ACTIVE));
    vm_compute; try reflexivity; lia.
Defined.


(** ** The run of [optimize] *)

Lemma valuesAt_state env ef p p' :
  state p = state p' → valuesAt env ef p = valuesAt env ef p'.
Proof.
  intros Hs.
  unfold valuesAt, createValues, Values_new, PrecomputedHostToTarget_new,
    numKeyFrames, getBodyToWorld, lightHostToTarget_get, getLightWorldToFrame,
    p_logDepth.
  cbn [plh_parameters]. by rewrite Hs.
Qed.

Lemma valuesAt_recoverState env ef p p' :
  valuesAt env ef (recoverState p' (saveState p)) = valuesAt env ef p.
Proof. by apply valuesAt_state. Qed.

(** One iteration keeps the current values those of the current parameters
    and does not raise their energy. *)
Lemma iteration_descends env C ef (st : LoopState C) :
  residuals ef ≠ [] →
  ls_curValues st = valuesAt env ef (ls_parameters st) →
  ∃ log st',
    iteration env C ef st = Some (log, st') ∧
    totalEnergy (ls_curValues st) = Some (log_curEnergy log) ∧
    totalEnergy (ls_curValues st') =
      Some (if accepted log then log_newEnergy log else log_curEnergy log) ∧
    ls_curValues st' = valuesAt env ef (ls_parameters st') ∧
    ls_lambda st' =
      ls_lambda st *
      (if accepted log then successMultiplier (optimization (settings ef))
       else failMultiplier (optimization (settings ef))).
Proof.
  intros Hres Hinv.
  assert (Hlen : length (valsAndCache (ls_curValues st)) = length (residuals ef)).
  { rewrite Hinv. apply createValues_length. }
  destruct (iteration_cases env C ef st Hres Hlen)
    as (cur & new & delta & st' & Hit & Hcur & Hnew & _ & Hcase).
  exists (mkStepLog cur new), st'. split; [done |]. split; [done |].
  unfold accepted. cbn [log_curEnergy log_newEnergy].
  destruct Hcase as [(Hlt & _ & Hp & Hv & Hl) | (Hle & _ & Hp & Hv & Hl)].
  - rewrite (bool_decide_eq_true_2 _ Hlt). rewrite Hv, Hp.
    by repeat split.
  - rewrite bool_decide_eq_false_2 by (by apply Qcle_not_lt).
    rewrite Hv. split; [done |]. split; [| done].
    rewrite Hinv. apply valuesAt_state. exact (eq_sym Hp).
Qed.

Lemma Qc_lesser_le (cur new : Qc) :
  (if bool_decide (new < cur) then new else cur) ≤ cur.
Proof.
  destruct (decide (new < cur)) as [Hlt | Hnlt].
  - rewrite (bool_decide_eq_true_2 _ Hlt). by apply Qclt_le_weak.
  - rewrite (bool_decide_eq_false_2 _ Hnlt). apply Qcle_refl.
Qed.

Lemma optimize_loop_descends env C ef maxIterations (st : LoopState C) :
  residuals ef ≠ [] →
  ls_curValues st = valuesAt env ef (ls_parameters st) →
  ∃ logs st' energy energy',
    optimize_loop env C ef maxIterations st = Some (logs, st') ∧
    totalEnergy (ls_curValues st) = Some energy ∧
    totalEnergy (ls_curValues st') = Some energy' ∧
    energy' ≤ energy ∧
    ls_curValues st' = valuesAt env ef (ls_parameters st').
Proof.
  intros Hres. revert st.
  induction maxIterations as [| n IH]; intros st Hinv.
  - destruct (totalEnergy_is_Some (ls_curValues st)) as [e He].
    { rewrite Hinv. by apply createValues_nonempty. }
    exists [], st, e, e. repeat split; done.
  - destruct (iteration_descends env C ef st Hres Hinv)
      as (log & st1 & Hit & Hcur & Hnext & Hinv1 & _).
    destruct (IH st1 Hinv1) as (logs & st2 & e1 & e2 & Hloop & He1 & He2 & Hle & Hinv2).
    exists (log :: logs), st2, (log_curEnergy log), e2.
    cbn [optimize_loop]. rewrite Hit. cbn [mbind option_bind].
    rewrite Hloop. cbn [mbind option_bind].
    repeat split; try done.
    rewrite Hnext in He1. injection He1 as <-.
    eapply Qcle_trans; [exact Hle |]. apply Qc_lesser_le.
Qed.

(** X16. On an energy function with residuals [optimize] returns, for every
    number of iterations, and the total energy at the parameters it returns
    is not above the total energy at the parameters it was called with. *)
Theorem optimize_descends env C ef keyFrames maxIterations :
  residuals ef ≠ [] →
  descent_rule env C ef keyFrames maxIterations.
Proof.
  intros Hres. unfold descent_rule, optimize.
  assert (Hinit : ∃ st0, optimize_init env C ef = Some st0 ∧
                         ls_parameters st0 = parameters ef ∧
                         ls_curValues st0 = valuesAt env ef (parameters ef)).
  { unfold optimize_init.
    destruct (createDerivatives_is_Some env C ef (parameters ef)
                (createValues env ef (parameters ef)
                   (PrecomputedHostToTarget_new (cam ef) (parameters ef))
                   (mkPrecomputedLightHostToTarget (parameters ef)))
                (PrecomputedHostToTarget_new (cam ef) (parameters ef))
                (mkPrecomputedMotionDerivatives (cam ef) (parameters ef))
                (mkPrecomputedLightHostToTarget (parameters ef))) as [d Hd].
    { apply createValues_length. }
    rewrite Hd. cbn [mbind option_bind]. eexists. by repeat split. }
  destruct Hinit as (st0 & Hst0 & Hp0 & Hv0).
  rewrite Hst0. cbn [mbind option_bind].
  destruct (optimize_loop_descends env C ef maxIterations st0 Hres)
    as (logs & st & e0 & e1 & Hloop & He0 & He1 & Hle & Hinv).
  { by rewrite Hv0, Hp0. }
  rewrite Hloop. cbn [mbind option_bind].
  eexists _, _, e0, e1. split; [reflexivity |]. cbn [parameters].
  repeat split; [by rewrite <- Hv0 | by rewrite <- Hinv | done].
Qed.

Lemma optimize_descends_witness :
  descent_rule Demo.env (Demo.collaborators (qc 1 10)) (DemoRun.ef TRIVIAL)
               (Demo.scene 0 ACTIVE) 3.
Proof.
  apply optimize_descends.
  intros H. apply (f_equal length) in H. vm_compute in H. discriminate.
Defined.

Lemma countAccepted_cons log logs :
  countAccepted (log :: logs) =
  ((if accepted log then 1 else 0) + countAccepted logs)%nat.
Proof.
  unfold countAccepted. rewrite filter_cons.
  destruct (accepted log); [by rewrite decide_True | by rewrite decide_False].
Qed.

Lemma countAccepted_le logs : (countAccepted logs ≤ length logs)%nat.
Proof. unfold countAccepted. apply length_filter. Qed.

(** X17. On an energy function with residuals, entered with the values of
    its parameters, the loop of [optimize] runs all its iterations; each
    iteration starts from the lesser of the two energies of the one before,
    so the current energy never rises; and lambda ends as its start value
    times [successMultiplier] to the number of accepted iterations times
    [failMultiplier] to the number of rejected ones. *)
Theorem optimize_loop_trace env C ef maxIterations (st : LoopState C) :
  residuals ef ≠ [] →
  ls_curValues st = valuesAt env ef (ls_parameters st) →
  loop_rule env C ef maxIterations st.
Proof.
  intros Hres. revert st.
  induction maxIterations as [| n IH]; intros st Hinv; unfold loop_rule.
  - exists [], st. cbn [optimize_loop length]. repeat split; try done.
    unfold countAccepted. cbn [filter list_filter length Nat.sub Qcpower]. ring.
  - destruct (iteration_descends env C ef st Hres Hinv)
      as (log & st1 & Hit & Hcur & Hnext & Hinv1 & Hlam).
    destruct (IH st1 Hinv1) as (logs & st2 & Hloop & Hlen & Hchain & Hl).
    exists (log :: logs), st2.
    cbn [optimize_loop]. rewrite Hit. cbn [mbind option_bind].
    rewrite Hloop. cbn [mbind option_bind length].
    split; [done |]. split; [by rewrite Hlen |]. split.
    + intros [| i] log1 log2 H1 H2.
      * cbn [lookup list_lookup] in H1, H2. injection H1 as <-.
        destruct n as [| n'].
        { destruct logs; [done | cbn in Hlen; lia]. }
        destruct logs as [| l2 logs']; [done |].
        cbn [lookup list_lookup] in H2. injection H2 as <-.
        cbn [optimize_loop] in Hloop.
        destruct (iteration_descends env C ef st1 Hres Hinv1)
          as (log' & st1' & Hit' & Hcur' & _).
        rewrite Hit' in Hloop. cbn [mbind option_bind] in Hloop.
        destruct (optimize_loop env C ef n' st1') as [[logs'' st''] |];
          [| done].
        cbn [mbind option_bind] in Hloop. injection Hloop as <- <- <-.
        rewrite Hnext in Hcur'. by injection Hcur'.
      * cbn [lookup list_lookup] in H1, H2. by eapply Hchain.
    + rewrite Hl, Hlam, countAccepted_cons.
      pose proof (countAccepted_le logs) as Hle. rewrite Hlen in Hle.
      destruct (accepted log).
      * replace (S n - (1 + countAccepted logs))%nat
          with (n - countAccepted logs)%nat by lia.
        cbn [Nat.add]. rewrite Qcpower_S. ring.
      * cbn [Nat.add].
        replace (S n - countAccepted logs)%nat
          with (S (n - countAccepted logs))%nat by lia.
        rewrite Qcpower_S. ring.
Qed.

Lemma optimize_loop_trace_witness :
  loop_rule Demo.env (Demo.collaborators (qc 1 10)) (DemoRun.ef TRIVIAL) 3
            (DemoRun.st0 (qc 1 10)).
Proof.
  apply optimize_loop_trace.
  - intros H. apply (f_equal length) in H. vm_compute in H. discriminate.
  - reflexivity.
Defined.


(** ** The Hessian contribution of a residual *)
Module HessianFacts.
Import Hessians.

Ltac split_pairs :=
  repeat match goal with
         | x : Mat22 |- _ => destruct x as [? ?]
         | x : Vec2 |- _ => destruct x as [? ?]
         end.

Ltac by_pairs :=
  split_pairs;
  cbv [mat22_transpose mat22_add mat22_mulv mat22_zero vec2_dot vec2_add];
  repeat match goal with |- (_, _) = (_, _) => f_equal end; ring.

Lemma mat22_transpose_add (m n : Mat22) :
  mat22_transpose (mat22_add m n) =
  mat22_add (mat22_transpose m) (mat22_transpose n).
Proof. by_pairs. Qed.

Lemma gtwd_transpose weights (g d : list Vec2) :
  mat22_transpose (gtwd weights g d) = gtwd weights d g.
Proof.
  revert g d. induction weights as [| w weights IH]; intros g d.
  - by destruct g, d.
  - destruct g as [| [g0 g1] g], d as [| [d0 d1] d]; try done.
    cbn [gtwd]. rewrite mat22_transpose_add, IH. f_equal. by_pairs.
Qed.

Lemma quadratic_transpose (s : Mat22) (c1 c2 : Vec2) :
  vec2_dot c1 (mat22_mulv s c2) =
  vec2_dot c2 (mat22_mulv (mat22_transpose s) c1).
Proof. split_pairs. cbv [mat22_transpose mat22_mulv vec2_dot]. ring. Qed.

Lemma mat77_transpose_table {A} (f : A → Vec2 → Qc) (rows : list A)
    (cols : list Vec2) :
  length cols = 7%nat →
  mat77_transpose ((λ r, (λ c, f r c) <$> cols) <$> rows) =
  (λ c, (λ r, f r c) <$> rows) <$> cols.
Proof.
  intros Hlen.
  do 7 (destruct cols as [| ? cols]; [done |]).
  destruct cols; [| done]. clear Hlen.
  unfold mat77_transpose. cbn [seq fmap list_fmap].
  rewrite <- !list_fmap_compose.
  repeat f_equal.
Qed.

Lemma qtqt_transpose (s : Mat22) (df1 df2 : list Vec2) :
  length df2 = 7%nat →
  mat22_transpose s = s →
  mat77_transpose
    ((λ c1, (λ c2, vec2_dot c1 (mat22_mulv s c2)) <$> df2) <$> df1) =
  (λ c2, (λ c1, vec2_dot c2 (mat22_mulv s c1)) <$> df1) <$> df2.
Proof.
  intros Hlen Hsym.
  rewrite (mat77_transpose_table
             (λ c1 c2, vec2_dot c1 (mat22_mulv s c2)) df1 df2 Hlen).
  apply list_fmap_ext. intros _ c2 _. apply list_fmap_ext. intros _ c1 _.
  by rewrite quadratic_transpose, Hsym.
Qed.

(** X18. The transpose of the frame-frame block [H_frameframe<false>]
    computes for two frames is the block it computes for the two frames in
    the other order, when the 2 x 2 sum [sum_wgradgradT] is symmetric (as the
    one [getDeltaHessian] passes is): the target-host block need not be
    computed. *)
Theorem H_frameframe_transpose (df1 df2 d1 d2 : list Vec2) weights
    (s sg1 sg2 : Mat22) :
  length df2 = 7%nat →
  mat22_transpose s = s →
  FrameFrameHessian_transpose
    (H_frameframe false df1 df2 d1 d2 weights s sg1 sg2) =
  H_frameframe false df2 df1 d2 d1 weights s sg2 sg1.
Proof.
  intros Hlen Hsym. unfold FrameFrameHessian_transpose, H_frameframe.
  cbn [qtqt qtab abqt abab]. f_equal.
  - by apply qtqt_transpose.
  - apply gtwd_transpose.
Qed.

Lemma H_frameframe_transpose_witness :
  FrameFrameHessian_transpose
    (H_frameframe false HessianExamples.hostColumns
                  HessianExamples.targetColumns
                  (dr_dab (dhost HessianExamples.jacobian))
                  (dr_dab (dtarget HessianExamples.jacobian))
                  HessianExamples.weights HessianExamples.gradGrad
                  mat22_zero mat22_zero) =
  H_frameframe false HessianExamples.targetColumns HessianExamples.hostColumns
               (dr_dab (dtarget HessianExamples.jacobian))
               (dr_dab (dhost HessianExamples.jacobian))
               HessianExamples.weights HessianExamples.gradGrad
               mat22_zero mat22_zero.
Proof.
  apply H_frameframe_transpose.
  - vm_compute. reflexivity.
  - apply gtwd_transpose.
Defined.

Lemma columns_length (m24 : Mat24) (m23 : Mat23) :
  length (mat24_cols m24 ++ mat23_cols m23) = 7%nat.
Proof.
  destruct m24 as [[[[? ?] ?] ?] [[[? ?] ?] ?]].
  destruct m23 as [[[? ?] ?] [[? ?] ?]]. reflexivity.
Qed.

Lemma H_frameframe_same_symmetric (df d : list Vec2) weights (g : list Vec2)
    (sg : Mat22) :
  length df = 7%nat →
  FrameFrameHessian_transpose
    (H_frameframe true df df d d weights (gtwd weights g g) sg sg) =
  H_frameframe true df df d d weights (gtwd weights g g) sg sg.
Proof.
  intros Hlen. unfold FrameFrameHessian_transpose, H_frameframe.
  cbn [qtqt qtab abqt abab]. f_equal.
  - apply qtqt_transpose; [done | apply gtwd_transpose].
  - apply gtwd_transpose.
Qed.

(** X19. The host-host and the target-target block of [getDeltaHessian],
    which [H_frameframe<true>] computes with [abqt] taken as the transpose of
    [qtab], are symmetric, for all weights and every Jacobian. *)
Theorem getDeltaHessian_symmetric weights (j : Jacobian) :
  FrameFrameHessian_transpose (hostHost (getDeltaHessian weights j)) =
    hostHost (getDeltaHessian weights j) ∧
  FrameFrameHessian_transpose (targetTarget (getDeltaHessian weights j)) =
    targetTarget (getDeltaHessian weights j).
Proof.
  unfold getDeltaHessian. cbn [hostHost targetTarget].
  split.
  - apply H_frameframe_same_symmetric, columns_length.
  - apply H_frameframe_same_symmetric, columns_length.
Qed.

Lemma quadratic_sum weights (g : list Vec2) (d : Vec2) :
  vec2_dot d (mat22_mulv (gtwd weights g g) d) =
  sum_list (zip_with (λ w r, w * (r * r)) weights
                     ((λ gi, vec2_dot gi d) <$> g)).
Proof.
  revert g. induction weights as [| w weights IH]; intros g.
  - destruct g; destruct d; cbv [gtwd mat22_mulv mat22_zero vec2_dot sum_list
                                 zip_with foldr fmap list_fmap]; ring.
  - destruct g as [| [g0 g1] g].
    + destruct d. cbv [gtwd mat22_mulv mat22_zero vec2_dot sum_list zip_with
                       foldr fmap list_fmap]. ring.
    + cbn [gtwd fmap list_fmap zip_with]. unfold sum_list in *.
      cbn [foldr]. rewrite <- IH. destruct d as [d0 d1].
      destruct (gtwd weights g g) as [[a b] [c e]].
      cbv [mat22_add mat22_mulv vec2_dot vec2_add]. ring.
Qed.

Lemma weighted_squares_nonneg (weights rs : list Qc) :
  Forall (λ w, 0 ≤ w) weights →
  0 ≤ sum_list (zip_with (λ w r, w * (r * r)) weights rs).
Proof.
  intros Hw. revert rs.
  induction Hw as [| w weights Hw0 _ IH]; intros rs; [done |].
  destruct rs as [| r rs]; [done |].
  cbn [zip_with]. unfold sum_list in *. cbn [foldr].
  specialize (IH rs).
  set (rest := foldr Qcplus 0 (zip_with (λ w r, w * (r * r)) weights rs)) in *.
  clearbody rest. qc2q. nra.
Qed.

(** X20. The point-point entry of [getDeltaHessian] is the weighted sum over
    the pattern of the squares of the derivatives of the values by the
    log-depth, [sum_i w_i (dr_dlogd_i)^2], with [dr_dlogd] as the Jacobian
    reports it; so it is not negative when no weight is. *)
Theorem pointPoint_weighted_squares weights (j : Jacobian) :
  pointPoint (getDeltaHessian weights j) =
    sum_list (zip_with (λ w r, w * (r * r)) weights (dr_dlogd j)) ∧
  (Forall (λ w, 0 ≤ w) weights → 0 ≤ pointPoint (getDeltaHessian weights j)).
Proof.
  assert (Heq : pointPoint (getDeltaHessian weights j) =
                sum_list (zip_with (λ w r, w * (r * r)) weights (dr_dlogd j))).
  { unfold getDeltaHessian, dr_dlogd. cbn [pointPoint]. apply quadratic_sum. }
  split; [done |]. intros Hw. rewrite Heq. by apply weighted_squares_nonneg.
Qed.

Lemma pointPoint_weighted_squares_witness :
  0 ≤ pointPoint (getDeltaHessian HessianExamples.weights
                                   HessianExamples.jacobian).
Proof.
  apply (proj2 (pointPoint_weighted_squares HessianExamples.weights
                                            HessianExamples.jacobian)).
  repeat constructor. unfold Qcle. vm_compute. discriminate.
Defined.

Lemma zip_with_comm' {A} (f : A → A → A) (l k : list A) :
  (∀ x y, f x y = f y x) → zip_with f l k = zip_with f k l.
Proof.
  intros Hf. revert k. induction l as [| x l IH]; intros [| y k]; try done.
  cbn [zip_with]. by rewrite Hf, IH.
Qed.

Lemma zip_with_assoc' {A} (f : A → A → A) (l k m : list A) :
  (∀ x y z, f (f x y) z = f x (f y z)) →
  zip_with f (zip_with f l k) m = zip_with f l (zip_with f k m).
Proof.
  intros Hf. revert k m.
  induction l as [| x l IH]; intros [| y k] [| z m]; try done.
  cbn [zip_with]. by rewrite Hf, IH.
Qed.

Lemma vec2_add_comm (u v : Vec2) : vec2_add u v = vec2_add v u.
Proof. by_pairs. Qed.
Lemma vec2_add_assoc (u v w : Vec2) :
  vec2_add (vec2_add u v) w = vec2_add u (vec2_add v w).
Proof. by_pairs. Qed.
Lemma mat22_add_comm (m n : Mat22) : mat22_add m n = mat22_add n m.
Proof. by_pairs. Qed.
Lemma mat22_add_assoc (m n o : Mat22) :
  mat22_add (mat22_add m n) o = mat22_add m (mat22_add n o).
Proof. by_pairs. Qed.

(** X21. Adding up Hessian blocks with [operator+=] does not depend on the
    order: the sum of frame-frame blocks and the sum of frame-point blocks
    are commutative and associative. *)
Theorem Hessian_add_order (a b c : FrameFrameHessian)
    (u v w : FramePointHessian) :
  FrameFrameHessian_add a b = FrameFrameHessian_add b a ∧
  FrameFrameHessian_add (FrameFrameHessian_add a b) c =
    FrameFrameHessian_add a (FrameFrameHessian_add b c) ∧
  FramePointHessian_add u v = FramePointHessian_add v u ∧
  FramePointHessian_add (FramePointHessian_add u v) w =
    FramePointHessian_add u (FramePointHessian_add v w).
Proof.
  unfold FrameFrameHessian_add, FramePointHessian_add.
  cbn [qtqt qtab abqt abab qtd abd].
  repeat split; f_equal;
    first [ apply zip_with_comm'; intros;
            first [ apply zip_with_comm'; intros; ring
                  | apply vec2_add_comm | ring ]
          | apply zip_with_assoc'; intros;
            first [ apply zip_with_assoc'; intros; ring
                  | apply vec2_add_assoc | ring ]
          | apply mat22_add_comm | apply mat22_add_assoc
          | apply vec2_add_comm | apply vec2_add_assoc ].
Qed.

End HessianFacts.


(** ** The residual at the point where it was made *)

Lemma vec2_add_sub (a b : Vec2) : vec2_add a (vec2_sub b a) = b.
Proof.
  destruct a, b. cbv [vec2_add vec2_sub].
  repeat match goal with |- (_, _) = (_, _) => f_equal end; ring.
Qed.

Lemma at2_fmap {A} (f : A → Vec2) (l : list A) i x :
  l !! i = Some x → at2 (f <$> l) i = f x.
Proof. intros H. unfold at2. by rewrite list_lookup_fmap, H. Qed.

Lemma at_fmap {A} (f : A → Qc) (l : list A) i x :
  l !! i = Some x → at_ (f <$> l) i = f x.
Proof. intros H. unfold at_. by rewrite list_lookup_fmap, H. Qed.

(** X22. With the host-to-target transform and the log-depth a residual was
    constructed with, [getValues] samples the target image exactly at the
    projections of the pattern pixels: its value at each pattern offset is
    the target intensity at the projection of that pixel, minus the host
    intensity at the pixel taken through the affine light transform. *)
Theorem getValues_at_construction env settings hostInd hostCamInd targetInd
    targetCamInd pointInd ref logDepthVal op (h : SE3) (light : AffLight) :
  fst (getValues env settings
         (Residual_new env settings hostInd hostCamInd targetInd targetCamInd
                       pointInd ref logDepthVal op h)
         h light logDepthVal) =
  (λ off,
     intensityAt env (targetInd, targetCamInd)
       (patternProjection env hostCamInd targetCamInd h op logDepthVal off)
     - aff_apply env light
         (intensityAt env (hostInd, hostCamInd) (vec2_add (op_p op) off)))
    <$> pattern settings.
Proof.
  unfold getValues. cbn [fst].
  apply list_eq. intros i. rewrite !list_lookup_fmap.
  destruct (pattern settings !! i) as [off |] eqn:Hoff.
  - rewrite lookup_seq_lt by (by eapply lookup_lt_Some).
    cbn [fmap option_fmap option_map Nat.add]. f_equal.
    cbn [Residual_new reprojPattern hostIntensities mTargetCamInd target
         hostDir].
    rewrite (at2_fmap _ _ _ _ Hoff).
    rewrite <- list_fmap_compose, (at_fmap _ _ _ _ Hoff).
    rewrite vec2_add_sub.
    unfold intensityAt, patternProjection, compose.
    destruct (interpolator env (targetInd, targetCamInd) _ _) as [[t ?] ?].
    destruct (interpolator env (hostInd, hostCamInd) _ _) as [[s ?] ?].
    reflexivity.
  - rewrite lookup_seq_ge; [done |]. by apply lookup_ge_None.
Qed.


(** ** What the Ceres adjuster leaves alone *)

Lemma adjust_is_Some env settings cam keyFrames sol :
  (2 ≤ length keyFrames)%nat →
  length (bundle cam) = 1%nat →
  BundleAdjusterCeres.adjust env settings cam keyFrames sol =
  Some (imap (BundleAdjusterCeres.adjustKeyFrame env settings keyFrames sol)
             keyFrames).
Proof.
  intros Hsize Hcam. unfold BundleAdjusterCeres.adjust.
  by rewrite decide_True, decide_True.
Qed.

(** X23. [adjust] keeps the key frames, their entries and their points in
    place and never changes a point's pixel, direction or state; the
    log-depth of a point whose depth is not strictly between [depth.min] and
    [depth.max] is not a parameter and stays as it is, whatever the
    minimizer arrives at. *)
Theorem adjust_keeps_points env settings cam keyFrames sol (ref : PointRef) :
  (2 ≤ length keyFrames)%nat →
  length (bundle cam) = 1%nat →
  ∃ keyFrames',
    BundleAdjusterCeres.adjust env settings cam keyFrames sol = Some keyFrames' ∧
    length keyFrames' = length keyFrames ∧
    point_kept env settings keyFrames keyFrames' ref.
Proof.
  intros Hsize Hcam. eexists.
  split; [by apply adjust_is_Some |]. split; [by rewrite length_imap |].
  unfold point_kept. destruct ref as [[kf ci] k].
  unfold lookupPoint at 1.
  destruct (keyFrames !! kf) as [f |] eqn:Hf; cbn [mbind option_bind].
  2: { unfold lookupPoint. by rewrite list_lookup_imap, Hf. }
  destruct (frames f !! ci) as [e |] eqn:He; cbn [mbind option_bind].
  2: { unfold lookupPoint. rewrite list_lookup_imap, Hf.
       cbn [fmap option_fmap option_map mbind option_bind
            BundleAdjusterCeres.adjustKeyFrame frames].
       by rewrite list_lookup_imap, He. }
  destruct (optimizedPoints e !! k) as [op |] eqn:Hop.
  2: { unfold lookupPoint. rewrite list_lookup_imap, Hf.
       cbn [fmap option_fmap option_map mbind option_bind
            BundleAdjusterCeres.adjustKeyFrame frames].
       rewrite list_lookup_imap, He.
       cbn [fmap option_fmap option_map mbind option_bind
            BundleAdjusterCeres.adjustEntry optimizedPoints].
       by rewrite list_lookup_imap, Hop. }
  eexists. split.
  { unfold lookupPoint. rewrite list_lookup_imap, Hf.
    cbn [fmap option_fmap option_map mbind option_bind
         BundleAdjusterCeres.adjustKeyFrame frames].
    rewrite list_lookup_imap, He.
    cbn [fmap option_fmap option_map mbind option_bind
         BundleAdjusterCeres.adjustEntry optimizedPoints].
    rewrite list_lookup_imap, Hop. reflexivity. }
  cbn [BundleAdjusterCeres.adjustPoint op_p op_dir op_state op_logDepth].
  repeat split. intros Hout.
  assert (Hconst : BundleAdjusterCeres.isConstant env settings keyFrames
                     (BundleAdjusterCeres.LogDepthBlock (kf, ci, k)) = true).
  { cbn [BundleAdjusterCeres.isConstant]. unfold lookupPoint.
    rewrite Hf. cbn [mbind option_bind]. rewrite He. cbn [mbind option_bind].
    rewrite Hop. apply orb_true_iff.
    destruct Hout as [Hmin | Hmax]; [left | right]; by apply geb_true. }
  by rewrite Hconst.
Qed.

Lemma adjust_keeps_points_witness :
  ∃ keyFrames' op',
    BundleAdjusterCeres.adjust Demo.env Examples.nearSettings Demo.rig
                               (Demo.scene 0 ACTIVE)
                               DemoRun.movedSolution = Some keyFrames' ∧
    lookupPoint keyFrames' (0, 0, 0)%nat = Some op' ∧
    op_logDepth op' = 0.
Proof.
  destruct (adjust_keeps_points Demo.env Examples.nearSettings Demo.rig
              (Demo.scene 0 ACTIVE) DemoRun.movedSolution (0, 0, 0)%nat)
    as (keyFrames' & Hadjust & _ & Hkept); [vm_compute; lia | reflexivity |].
  unfold point_kept in Hkept.
  change (lookupPoint (Demo.scene 0 ACTIVE) (0, 0, 0)%nat)
    with (Some (Demo.thePoint 0 ACTIVE)) in Hkept.
  destruct Hkept as (op' & Hlookup & _ & _ & _ & Hdepth).
  exists keyFrames', op'. split; [done |]. split; [done |].
  rewrite Hdepth; [reflexivity |].
  left. unfold Qcle. vm_compute. discriminate.
Defined.

(** X24. The options of [adjust] freeze what they name, whatever the
    minimizer arrives at: with [optimizeAffineLight] off every affine pair of
    every key frame stays; the rotation of the second key frame stays under
    [fixedRotationOnSecondKF]; its translation stays when the first two key
    frames are not farther apart than [minFirstToSecondRadius]; and its whole
    pose stays under [fixedMotionOnFirstAdjustent] when there are exactly two
    key frames. *)
Theorem adjust_frozen_by_options env settings cam keyFrames sol :
  (2 ≤ length keyFrames)%nat →
  length (bundle cam) = 1%nat →
  ∃ keyFrames',
    BundleAdjusterCeres.adjust env settings cam keyFrames sol = Some keyFrames' ∧
    frozen_by_options env settings keyFrames keyFrames'.
Proof.
  intros Hsize Hcam. eexists.
  split; [by apply adjust_is_Some |]. split.
  - intros Haff i kf Hkf. eexists. split.
    { rewrite list_lookup_imap, Hkf. reflexivity. }
    cbn [BundleAdjusterCeres.adjustKeyFrame frames].
    apply list_eq. intros ci. rewrite !list_lookup_fmap, list_lookup_imap.
    destruct (frames kf !! ci) as [entry |]; [| done].
    cbn [fmap option_fmap option_map BundleAdjusterCeres.adjustEntry
         lightWorldToThis BundleAdjusterCeres.isConstant].
    by rewrite Haff.
  - intros kf1 Hkf1. eexists. split.
    { rewrite list_lookup_imap, Hkf1. reflexivity. }
    cbn [BundleAdjusterCeres.adjustKeyFrame thisToWorld so3 translation
         BundleAdjusterCeres.isConstant].
    rewrite !(bool_decide_eq_false_2 (1%nat = 0%nat)) by done.
    rewrite !(bool_decide_eq_true_2 (1%nat = 1%nat)) by done.
    cbn [orb andb]. split; [| split].
    + intros Hrot. by rewrite Hrot.
    + intros Hradius. apply gtb_false in Hradius. by rewrite Hradius.
    + intros Hfixed Htwo. rewrite Hfixed.
      rewrite (bool_decide_eq_true_2 _ Htwo). cbn [andb].
      rewrite !orb_true_r. cbn [BundleAdjusterCeres.solved].
      by destruct (thisToWorld kf1).
Qed.

Lemma adjust_frozen_by_options_witness :
  (∃ keyFrames' kf1',
     BundleAdjusterCeres.adjust Demo.env Examples.frozenSettings Demo.rig
                                (Demo.scene 0 ACTIVE) DemoRun.movedSolution
     = Some keyFrames' ∧
     keyFrames' !! 1%nat = Some kf1' ∧
     lightWorldToThis <$> frames kf1' = [mkAffLight 0 0] ∧
     so3 (thisToWorld kf1') = mat33_id ∧
     translation (thisToWorld kf1') = (1, 0, 0)) ∧
  (∃ keyFrames' kf1',
     BundleAdjusterCeres.adjust Demo.env Examples.fixedMotionSettings Demo.rig
                                (Demo.scene 0 ACTIVE) DemoRun.movedSolution
     = Some keyFrames' ∧
     keyFrames' !! 1%nat = Some kf1' ∧
     thisToWorld kf1' = Demo.sideways 1).
Proof.
  split.
  - destruct (adjust_frozen_by_options Demo.env Examples.frozenSettings
                Demo.rig (Demo.scene 0 ACTIVE) DemoRun.movedSolution)
      as (keyFrames' & Hadjust & Haffine & Hsecond);
      [vm_compute; lia | reflexivity |].
    destruct (Hsecond (mkKeyFrame (Demo.sideways 1)
                                  [mkKeyFrameEntry (mkAffLight 0 0) []]))
      as (kf1' & Hkf1' & Hrotation & Htranslation & _); [reflexivity |].
    destruct (Haffine eq_refl 1%nat
                (mkKeyFrame (Demo.sideways 1)
                            [mkKeyFrameEntry (mkAffLight 0 0) []]))
      as (kf1'' & Hkf1'' & Hlights); [reflexivity |].
    rewrite Hkf1' in Hkf1''. injection Hkf1'' as <-.
    exists keyFrames', kf1'. split; [done |]. split; [done |].
    split; [exact Hlights |]. split.
    + by rewrite Hrotation.
    + rewrite Htranslation; [reflexivity |].
      unfold Qcle. vm_compute. discriminate.
  - destruct (adjust_frozen_by_options Demo.env Examples.fixedMotionSettings
                Demo.rig (Demo.scene 0 ACTIVE) DemoRun.movedSolution)
      as (keyFrames' & Hadjust & _ & Hsecond);
      [vm_compute; lia | reflexivity |].
    destruct (Hsecond (mkKeyFrame (Demo.sideways 1)
                                  [mkKeyFrameEntry (mkAffLight 0 0) []]))
      as (kf1' & Hkf1' & _ & _ & Hmotion); [reflexivity |].
    exists keyFrames', kf1'. split; [done |]. split; [done |].
    by rewrite Hmotion.
Defined.


(** ** The reprojector *)

Lemma pointsOf_lookup_iff keyFrames hostInd hostCamInd k op :
  (k, op) ∈ pointsOf keyFrames hostInd hostCamInd ↔
  lookupPoint keyFrames (hostInd, hostCamInd, k) = Some op.
Proof.
  split; [apply pointsOf_lookup |].
  unfold lookupPoint, pointsOf.
  destruct (keyFrames !! hostInd) as [kf |]; [| done].
  cbn [mbind option_bind].
  destruct (frames kf !! hostCamInd) as [e |]; [| done].
  cbn [mbind option_bind fmap option_fmap option_map default from_option id].
  intros Hk. apply elem_of_lookup_zip_with. exists k, k, op.
  split; [done |]. split; [| done].
  apply lookup_seq. split; [done |]. by eapply lookup_lt_Some.
Qed.

Lemma reprojectPoint_elem env r targetCamInd hostInd hostCamInd k op re :
  re ∈ Reprojector.reprojectPoint env r targetCamInd hostInd hostCamInd (k, op)
  ↔
  let v := se3_act (Reprojector.hostCamToTargetCam r targetCamInd hostInd
                                                   hostCamInd)
                   (vec3_scale (op_depth env op) (op_dir op)) in
  cam_isMappable env targetCamInd v = true ∧
  cam_isOnImage env targetCamInd (cam_map env targetCamInd v)
                (Reprojector.borderSize r) = true ∧
  re = Reprojector.mkReprojection hostInd hostCamInd targetCamInd k
         (cam_map env targetCamInd v) (sqrtT env (vec3_dot v v)).
Proof.
  unfold Reprojector.reprojectPoint. cbv zeta.
  destruct (cam_isMappable env _ _); cbn [negb].
  - destruct (cam_isOnImage env _ _ _); cbn [negb].
    + rewrite list_elem_of_singleton.
      split; [by intros -> | by intros (_ & _ & ->)].
    + split; [by intros ?%elem_of_nil | by intros (_ & [=] & _)].
  - split; [by intros ?%elem_of_nil | by intros ([=] & _)].
Qed.

(** The four loops of [reproject], unfolded. *)
Lemma reproject_elem env (r : Reprojector.t) (re : Reprojector.Reprojection) :
  re ∈ Reprojector.reproject env r ↔
  ∃ targetCamInd hostInd hostCamInd k op,
    (targetCamInd < Reprojector.numCams r)%nat ∧
    (hostInd < Reprojector.numKeyFrames r)%nat ∧
    (hostCamInd < Reprojector.numCams r)%nat ∧
    lookupPoint (Reprojector.keyFrames r) (hostInd, hostCamInd, k) = Some op ∧
    re ∈ Reprojector.reprojectPoint env r targetCamInd hostInd hostCamInd
                                    (k, op).
Proof.
  unfold Reprojector.reproject. split.
  - intros (tci & Hre & Htci%elem_of_seq)%list_elem_of_bind.
    apply list_elem_of_bind in Hre as (hi & Hre & Hhi%elem_of_seq).
    apply list_elem_of_bind in Hre as (hci & Hre & Hhci%elem_of_seq).
    apply list_elem_of_bind in Hre as ([k op] & Hre & Hkp%pointsOf_lookup).
    exists tci, hi, hci, k, op. repeat split; try done; lia.
  - intros (tci & hi & hci & k & op & Htci & Hhi & Hhci & Hop & Hre).
    apply list_elem_of_bind. exists tci. split; [| apply elem_of_seq; lia].
    apply list_elem_of_bind. exists hi. split; [| apply elem_of_seq; lia].
    apply list_elem_of_bind. exists hci. split; [| apply elem_of_seq; lia].
    apply list_elem_of_bind. exists (k, op).
    split; [done | by apply pointsOf_lookup_iff].
Qed.

(** X25. [reproject] reports exactly the reprojections that pass its two
    tests: a reprojection is in its result if and only if its indices name a
    target camera, a host key frame, a host camera and a point of that host
    entry, the point at its depth is mappable by the target camera and
    projects on the image within the border, and the reprojection carries
    that projection and the norm of the point in the target camera. *)
Theorem reproject_exact env (r : Reprojector.t) (re : Reprojector.Reprojection) :
  re ∈ Reprojector.reproject env r ↔
  (Reprojector.targetCamInd re < Reprojector.numCams r)%nat ∧
  (Reprojector.hostInd re < Reprojector.numKeyFrames r)%nat ∧
  (Reprojector.hostCamInd re < Reprojector.numCams r)%nat ∧
  ∃ op,
    lookupPoint (Reprojector.keyFrames r)
                (Reprojector.hostInd re, Reprojector.hostCamInd re,
                 Reprojector.pointInd re) = Some op ∧
    let v := se3_act (Reprojector.hostCamToTargetCam
                        r (Reprojector.targetCamInd re)
                        (Reprojector.hostInd re) (Reprojector.hostCamInd re))
                     (vec3_scale (op_depth env op) (op_dir op)) in
    cam_isMappable env (Reprojector.targetCamInd re) v = true ∧
    cam_isOnImage env (Reprojector.targetCamInd re)
                  (cam_map env (Reprojector.targetCamInd re) v)
                  (Reprojector.borderSize r) = true ∧
    Reprojector.reprojected re = cam_map env (Reprojector.targetCamInd re) v ∧
    Reprojector.reprojectedDepth re = sqrtT env (vec3_dot v v).
Proof.
  rewrite reproject_elem. split.
  - intros (tci & hi & hci & k & op & Htci & Hhi & Hhci & Hop & Hre).
    apply reprojectPoint_elem in Hre as (Hmap & Himg & ->).
    cbn [Reprojector.targetCamInd Reprojector.hostInd Reprojector.hostCamInd
         Reprojector.pointInd Reprojector.reprojected
         Reprojector.reprojectedDepth].
    repeat split; try done. exists op. by repeat split.
  - destruct re as [hi hci tci k p d].
    cbn [Reprojector.targetCamInd Reprojector.hostInd Reprojector.hostCamInd
         Reprojector.pointInd Reprojector.reprojected
         Reprojector.reprojectedDepth].
    intros (Htci & Hhi & Hhci & op & Hop & Hmap & Himg & -> & ->).
    exists tci, hi, hci, k, op. repeat split; try done.
    apply reprojectPoint_elem. by repeat split.
Qed.

Lemma getBodyToWorld_new cam keyFrames i :
  getBodyToWorld (Parameters_new cam keyFrames) i =
  default se3_id (thisToWorld <$> keyFrames !! i).
Proof.
  unfold getBodyToWorld, Parameters_new. cbn [state st_bodyToWorld].
  by rewrite list_lookup_fmap.
Qed.

Lemma hostToTarget_is_hostCamToTargetCam cam keyFrames border r hostInd
    hostCamInd targetInd targetCamInd :
  Reprojector.make cam keyFrames
    (default se3_id (thisToWorld <$> keyFrames !! targetInd)) border = Some r →
  (hostInd < length keyFrames)%nat →
  (targetInd < length keyFrames)%nat →
  (hostCamInd < length (bundle cam))%nat →
  (targetCamInd < length (bundle cam))%nat →
  hostInd ≠ targetInd →
  hostToTarget_get
    (PrecomputedHostToTarget_new cam (Parameters_new cam keyFrames))
    hostInd hostCamInd targetInd targetCamInd =
  Reprojector.hostCamToTargetCam r targetCamInd hostInd hostCamInd.
Proof.
  intros Hr Hh Ht Hhc Htc Hne.
  rewrite hostToTarget_get_in_range; try done.
  2, 3: unfold numKeyFrames, Parameters_new; cbn [state st_bodyToWorld];
        by rewrite length_fmap.
  rewrite decide_False by done. rewrite !getBodyToWorld_new.
  unfold Reprojector.make in Hr.
  destruct keyFrames as [| kf0 rest]; [done |]. injection Hr as <-.
  unfold Reprojector.hostCamToTargetCam.
  cbn [Reprojector.cam Reprojector.targetWorldToBody Reprojector.keyFrames].
  by rewrite !se3_mul_assoc.
Qed.

(** X26. The constructor of the energy function and the reprojector agree:
    for an active point of a host entry and a camera of another key frame,
    the energy function has a residual of the point into that camera if and
    only if the reprojector of the same key frames, at the pose of the target
    key frame and with the border [residualPattern.height], reports the
    point in that camera. *)
Theorem residuals_agree_with_reprojector env cam keyFrames settings ef r
    hostInd hostCamInd k targetInd targetCamInd op :
  EnergyFunction_new env cam keyFrames settings = Some ef →
  Reprojector.make cam keyFrames
    (default se3_id (thisToWorld <$> keyFrames !! targetInd))
    (patternHeight (residual settings)) = Some r →
  lookupPoint keyFrames (hostInd, hostCamInd, k) = Some op →
  op_state op = ACTIVE →
  (hostCamInd < length (bundle cam))%nat →
  (targetInd < length keyFrames)%nat →
  (targetCamInd < length (bundle cam))%nat →
  hostInd ≠ targetInd →
  has_residual ef hostInd hostCamInd k targetInd targetCamInd ↔
  reports env r hostInd hostCamInd k targetCamInd.
Proof.
  intros Hef Hr Hop Hactive Hhc Ht Htc Hne.
  assert (Hh : (hostInd < length keyFrames)%nat).
  { revert Hop. unfold lookupPoint.
    destruct (keyFrames !! hostInd) as [kf |] eqn:Hkf; [| done].
    intros _. by eapply lookup_lt_Some. }
  pose proof (hostToTarget_is_hostCamToTargetCam cam keyFrames _ r hostInd
                hostCamInd targetInd targetCamInd Hr Hh Ht Hhc Htc Hne) as Htrans.
  assert (Hfields : Reprojector.keyFrames r = keyFrames ∧
                    Reprojector.numCams r = length (bundle cam) ∧
                    Reprojector.numKeyFrames r = length keyFrames ∧
                    Reprojector.borderSize r = patternHeight (residual settings)).
  { unfold Reprojector.make in Hr. destruct keyFrames; [done |].
    by injection Hr as <-. }
  destruct Hfields as (Hkfs & Hnc & Hnk & Hborder).
  unfold EnergyFunction_new in Hef.
  destruct (decide (2 ≤ length keyFrames)%nat) as [Hsize |]; [| done].
  injection Hef as <-. unfold has_residual, reports. cbn [residuals].
  split.
  - intros (res & Hres & Hhi & Hhci & Hti & Htci & Hptr).
    pose proof (constructor_residuals_ok env cam keyFrames settings) as Hall.
    cbv zeta in Hall. rewrite Forall_forall in Hall.
    destruct (Hall res Hres) as (_ & op' & k' & _ & Hop' & _ & Hmap & Himg).
    rewrite Hptr in Hop'. rewrite Hop in Hop'. injection Hop' as <-.
    rewrite Hhi, Hhci, Hti, Htci, Htrans in Hmap, Himg.
    eexists. split.
    + apply reproject_elem. exists targetCamInd, hostInd, hostCamInd, k, op.
      rewrite Hnc, Hnk, Hkfs.
      repeat split; try done.
      apply reprojectPoint_elem. rewrite Hborder. by repeat split.
    + done.
  - intros (re & Hre & Hhi & Hhci & Htci & Hk).
    apply reproject_elem in Hre
      as (tci' & hi' & hci' & k' & op' & _ & _ & _ & Hop' & Hre).
    apply reprojectPoint_elem in Hre as (Hmap & Himg & ->).
    cbn [Reprojector.targetCamInd Reprojector.hostInd Reprojector.hostCamInd
         Reprojector.pointInd] in Hhi, Hhci, Htci, Hk.
    subst hi' hci' tci' k'. rewrite Hkfs, Hop in Hop'.
    injection Hop' as <-. rewrite Hborder in Himg.
    eapply (constructor_finds env cam keyFrames settings _ hostInd hostCamInd
              k targetInd targetCamInd op); try done.
    unfold reprojects. rewrite Htrans. rewrite Hmap. cbn [negb].
    by rewrite Himg.
Qed.

Lemma residuals_agree_with_reprojector_witness :
  has_residual (DemoRun.ef TRIVIAL) 0 0 0 1 0 ↔
  reports Demo.env
          (Reprojector.mk (se3_inverse (Demo.sideways 1)) (Demo.scene 0 ACTIVE)
                          Demo.rig 2 1 2)
          0 0 0 0.
Proof.
  apply (residuals_agree_with_reprojector Demo.env Demo.rig
           (Demo.scene 0 ACTIVE) (Demo.energySettings TRIVIAL)
           (DemoRun.ef TRIVIAL) _ 0 0 0 1 0 (Demo.thePoint 0 ACTIVE));
    try reflexivity; vm_compute; lia.
Defined.

